(** * abort-controller-x: cancellation-aware combinators

    A shallow embedding of [AbortError.ts], [execute.ts], [all.ts], [race.ts],
    [spawn.ts], [retry.ts], [abortable.ts], [forever.ts], [delay.ts],
    [waitForEvent.ts], [run.ts] and [proactiveRetry.ts].  Every combinator is
    a closure over a handful of mutable variables whose callbacks are run by
    the host's event loop; it is embedded as a record holding those variables,
    a constructor that runs the synchronous part of the call, and a [step]
    function that runs the callbacks one event triggers.  The life of a call
    is a list of events folded through [step]; what the environment may do
    (each promise settles once, a signal fires once) is stated on the list
    where a property needs it. *)

From stdpp Require Import base decidable option list sets gmap strings.
From Stdlib Require Import ZArith QArith Qround Qpower Lia Lqa.

Open Scope string_scope.
Open Scope Z_scope.
Open Scope nat_scope.
Open Scope list_scope.

(** ** JavaScript values and settled promises *)

#[local] Unset Elimination Schemes.
Inductive value : Type :=
| Undefined
| Null
| Num (n : Z)
| Str (s : string)
| Obj (props : list (string * value)).
#[local] Set Elimination Schemes.

Fixpoint property (key : string) (props : list (string * value)) : value :=
  match props with
  | [] => Undefined
  | (k, v) :: rest => if String.eqb k key then v else property key rest
  end.

Inductive PromiseSettledResult (A : Type) : Type :=
| Fulfilled (a : A)
| Rejected (reason : value).

Arguments Fulfilled {A} a.
Arguments Rejected {A} reason.

(** A promise is pending ([None]) or settled; [resolve] and [reject] only have
    an effect on a pending promise. *)
Abbreviation Promise A := (option (PromiseSettledResult A)).

Definition settle {A} (r : PromiseSettledResult A) (p : Promise A) : Promise A :=
  match p with
  | None => Some r
  | Some _ => p
  end.

(** The assignment [a[i] = x] on an array with holes: past the end, the
    array grows. *)
Definition arraySet {A} (i : nat) (x : A) (a : list (option A)) : list (option A) :=
  if decide (i < length a) then <[i := Some x]> a
  else a ++ replicate (i - length a) None ++ [Some x].

(** ** AbortError.ts *)

Definition AbortError : value :=
  Obj [("message", Str "The operation has been aborted"); ("name", Str "AbortError")].

(** A plain [Error] with the given message. *)
Definition Error (message : string) : value :=
  Obj [("message", Str message); ("name", Str "Error")].

Definition isAbortError (error : value) : bool :=
  match error with
  | Obj props =>
      match property "name" props with
      | Str s => String.eqb s "AbortError"
      | _ => false
      end
  | _ => false
  end.

(** [catchAbortError] returns normally on an [AbortError] and rethrows
    anything else. *)
Definition catchAbortError (error : value) : PromiseSettledResult unit :=
  if isAbortError error then Fulfilled tt else Rejected error.

(** [rethrowAbortError] throws an [AbortError] and returns on anything else. *)
Definition rethrowAbortError (error : value) : PromiseSettledResult unit :=
  if isAbortError error then Rejected error else Fulfilled tt.

(** ** An AbortSignal as seen by one subscriber

    Each call registers a single fresh closure on a signal, so the signal is
    modelled by its [aborted] flag, whether that closure is currently
    registered, and the number of [addEventListener] and [removeEventListener]
    calls made so far. *)

Record AbortSignal : Type := mkSignal {
  aborted : bool;
  listening : bool;
  addCalls : nat;
  removeCalls : nat
}.

Definition pendingSignal : AbortSignal := mkSignal false false 0 0.
Definition abortedSignal : AbortSignal := mkSignal true false 0 0.

Definition addEventListener (s : AbortSignal) : AbortSignal :=
  mkSignal (aborted s) true (S (addCalls s)) (removeCalls s).

Definition removeEventListener (s : AbortSignal) : AbortSignal :=
  mkSignal (aborted s) false (addCalls s) (S (removeCalls s)).

(** [AbortController.abort]: the first call sets the flag and dispatches the
    event; the result says whether the registered closure is to be run. *)
Definition abort (s : AbortSignal) : AbortSignal * bool :=
  if aborted s then (s, false)
  else (mkSignal true (listening s) (addCalls s) (removeCalls s), listening s).

(** ** execute.ts *)

Module Execute.

(** What the abort callback returned by the executor does when it is called:
    return nothing, return a promise, or throw. *)
Inductive CallbackResult : Type :=
| NoAction
| PendingAction
| Throws (e : value).

Section Execute.
Context {T : Type}.

(** A call of one of the two functions handed to the executor. *)
Inductive Completion : Type :=
| CallResolve (v : T)
| CallReject (reason : value).

Inductive Event : Type :=
| Complete (c : Completion)
| Abort
| CallbackFulfils
| CallbackRejects (reason : value).

Record State : Type := mkState {
  signal : AbortSignal;
  executorCalls : nat;
  removeAbortListener : bool;
  finished : bool;
  callback : CallbackResult;
  callbackCalls : nat;
  callbackPending : bool;
  promise : Promise T
}.

Definition setSignal (s : AbortSignal) (st : State) : State :=
  mkState s (executorCalls st) (removeAbortListener st) (finished st) (callback st)
          (callbackCalls st) (callbackPending st) (promise st).

Definition setCallbackPending (b : bool) (st : State) : State :=
  mkState (signal st) (executorCalls st) (removeAbortListener st) (finished st)
          (callback st) (callbackCalls st) b (promise st).

(** [resolve] and [reject] of the promise under construction. *)
Definition settlePromise (r : PromiseSettledResult T) (st : State) : State :=
  mkState (signal st) (executorCalls st) (removeAbortListener st) (finished st)
          (callback st) (callbackCalls st) (callbackPending st) (settle r (promise st)).

Definition finish (st : State) : State :=
  if finished st then st
  else
    mkState (if removeAbortListener st then removeEventListener (signal st) else signal st)
            (executorCalls st) (removeAbortListener st) true (callback st)
            (callbackCalls st) (callbackPending st) (promise st).

(** The two functions handed to the executor. *)
Definition complete (c : Completion) (st : State) : State :=
  match c with
  | CallResolve v => finish (settlePromise (Fulfilled v) st)
  | CallReject reason => finish (settlePromise (Rejected reason) st)
  end.

(** The abort listener: it calls the callback, then looks at what it got. *)
Definition listener (st : State) : State :=
  let st := mkState (signal st) (executorCalls st) (removeAbortListener st) (finished st)
                    (callback st) (S (callbackCalls st)) (callbackPending st)
                    (promise st) in
  match callback st with
  | NoAction => finish (settlePromise (Rejected AbortError) st)
  | PendingAction => finish (setCallbackPending true st)
  | Throws _ => st
  end.

(** [execute signal executor]: [sync] lists the completion calls the executor
    makes before it returns, [cb] is the behaviour of the callback it
    returns. *)
Definition execute (sig : AbortSignal) (sync : list Completion) (cb : CallbackResult)
  : State :=
  if aborted sig then
    mkState sig 0 false false cb 0 false (Some (Rejected AbortError))
  else
    let st := foldl (fun st c => complete c st)
                    (mkState sig 1 false false cb 0 false None) sync in
    if finished st then st
    else
      mkState (addEventListener (signal st)) (executorCalls st) true (finished st)
              (callback st) (callbackCalls st) (callbackPending st) (promise st).

Definition step (st : State) (ev : Event) : State :=
  match ev with
  | Complete c => complete c st
  | Abort =>
      let '(sig, fire) := abort (signal st) in
      let st := setSignal sig st in
      if fire then listener st else st
  | CallbackFulfils =>
      if callbackPending st
      then settlePromise (Rejected AbortError) (setCallbackPending false st)
      else st
  | CallbackRejects reason =>
      if callbackPending st
      then settlePromise (Rejected reason) (setCallbackPending false st)
      else st
  end.

Definition run (st : State) (evs : list Event) : State := foldl step st evs.

End Execute.

Arguments State : clear implicits.
Arguments Event : clear implicits.
Arguments Completion : clear implicits.

End Execute.

(** ** all.ts *)

Module All.
Section All.
Context {T : Type}.

Inductive Event : Type :=
| Settles (i : nat) (r : PromiseSettledResult T)
| Abort.

Record State : Type := mkState {
  signal : AbortSignal;
  innerAborted : bool;
  length : nat;
  rejection : option value;
  results : list (option T);
  settledCount : nat;
  promise : Promise (list (option T))
}.

(** [all signal executor], where the executor returns [n] promises. *)
Definition all (sig : AbortSignal) (n : nat) : State :=
  if aborted sig then
    mkState sig false 0 None [] 0 (Some (Rejected AbortError))
  else if Nat.eqb n 0 then
    mkState sig false 0 None [] 0 (Some (Fulfilled []))
  else
    mkState (addEventListener sig) false n None (replicate n None) 0 None.

(** [reject(rejection.reason)] or [resolve(results)]. *)
Definition verdict (st : State) : PromiseSettledResult (list (option T)) :=
  match rejection st with
  | Some reason => Rejected reason
  | None => Fulfilled (results st)
  end.

Definition settled (st : State) : State :=
  let count := S (settledCount st) in
  if Nat.eqb count (length st) then
    mkState (removeEventListener (signal st)) (innerAborted st) (length st)
            (rejection st) (results st) count
            (settle (verdict st) (promise st))
  else
    mkState (signal st) (innerAborted st) (length st) (rejection st) (results st)
            count (promise st).

Definition onFulfilled (i : nat) (v : T) (st : State) : State :=
  settled (mkState (signal st) (innerAborted st) (length st) (rejection st)
                   (arraySet i v (results st)) (settledCount st) (promise st)).

(** The test guarding [rejection = {reason}]. *)
Definition recordRejection (rejection : option value) (reason : value) : option value :=
  match rejection with
  | None => Some reason
  | Some old =>
      if negb (isAbortError reason) && isAbortError old then Some reason
      else Some old
  end.

Definition onRejected (reason : value) (st : State) : State :=
  settled (mkState (signal st) true (length st)
                    (recordRejection (rejection st) reason) (results st)
                    (settledCount st) (promise st)).

Definition abortListener (st : State) : State :=
  mkState (signal st) true (length st) (rejection st) (results st)
          (settledCount st) (promise st).

Definition step (st : State) (ev : Event) : State :=
  match ev with
  | Settles i (Fulfilled v) => onFulfilled i v st
  | Settles i (Rejected reason) => onRejected reason st
  | Abort =>
      let '(sig, fire) := abort (signal st) in
      let st := mkState sig (innerAborted st) (length st) (rejection st)
                        (results st) (settledCount st) (promise st) in
      if fire then abortListener st else st
  end.

Definition run (st : State) (evs : list Event) : State := foldl step st evs.

(** The reasons of the rejections of a trace, in order of arrival. *)
Definition rejections (evs : list Event) : list value :=
  omap (fun ev => match ev with
                  | Settles _ (Rejected reason) => Some reason
                  | _ => None
                  end) evs.

(** The input positions that settle in a trace, in order of arrival. *)
Definition settlers (evs : list Event) : list nat :=
  omap (fun ev => match ev with Settles i _ => Some i | Abort => None end) evs.

(** The fulfilments of a trace with their positions, and the assignment
    [results[i] = value]. *)
Definition fulfilments (evs : list Event) : list (nat * T) :=
  omap (fun ev => match ev with
                  | Settles i (Fulfilled v) => Some (i, v)
                  | _ => None
                  end) evs.

Definition store (res : list (option T)) (iv : nat * T) : list (option T) :=
  arraySet iv.1 iv.2 res.

(** The trace in which the inputs fulfil with the values [vs], in the order
    of the positions listed in [order]. *)
Definition fulfilIn (vs : list T) (order : list nat) : list Event :=
  omap (fun i => (fun v => Settles i (Fulfilled v)) <$> vs !! i) order.

End All.

Arguments State : clear implicits.
Arguments Event : clear implicits.

End All.

(** ** race.ts *)

Module Race.
Section Race.
Context {T : Type}.

Inductive Event : Type :=
| Settles (i : nat) (r : PromiseSettledResult T)
| Abort.

Record State : Type := mkState {
  signal : AbortSignal;
  innerAborted : bool;
  length : nat;
  result : Promise T;
  settledCount : nat;
  promise : Promise T
}.

(** [race signal executor], where the executor returns [n] promises. *)
Definition race (sig : AbortSignal) (n : nat) : State :=
  if aborted sig then
    mkState sig false 0 None 0 (Some (Rejected AbortError))
  else
    mkState (addEventListener sig) false n None 0 None.

(** [settled(result)], called with the value of [result] after the handler
    updated it. *)
Definition settled (st : State) : State :=
  let count := S (settledCount st) in
  if Nat.eqb count (length st) then
    mkState (removeEventListener (signal st)) true (length st) (result st) count
            (match result st with
             | Some r => settle r (promise st)
             | None => promise st
             end)
  else
    mkState (signal st) true (length st) (result st) count (promise st).

(** The tests guarding the two assignments to [result]. *)
Definition recordFulfilment (result : Promise T) (v : T) : Promise T :=
  match result with
  | None => Some (Fulfilled v)
  | Some old => Some old
  end.

Definition recordRejection (result : Promise T) (reason : value)
  : Promise T :=
  match result with
  | None => Some (Rejected reason)
  | Some old =>
      if negb (isAbortError reason) &&
         match old with
         | Fulfilled _ => true
         | Rejected oldReason => isAbortError oldReason
         end
      then Some (Rejected reason)
      else Some old
  end.

Definition onFulfilled (v : T) (st : State) : State :=
  settled (mkState (signal st) (innerAborted st) (length st)
                    (recordFulfilment (result st) v) (settledCount st) (promise st)).

Definition onRejected (reason : value) (st : State) : State :=
  settled (mkState (signal st) (innerAborted st) (length st)
                    (recordRejection (result st) reason) (settledCount st) (promise st)).

Definition abortListener (st : State) : State :=
  mkState (signal st) true (length st) (result st) (settledCount st) (promise st).

Definition step (st : State) (ev : Event) : State :=
  match ev with
  | Settles _ (Fulfilled v) => onFulfilled v st
  | Settles _ (Rejected reason) => onRejected reason st
  | Abort =>
      let '(sig, fire) := abort (signal st) in
      let st := mkState sig (innerAborted st) (length st) (result st)
                        (settledCount st) (promise st) in
      if fire then abortListener st else st
  end.

Definition run (st : State) (evs : list Event) : State := foldl step st evs.

(** The settlements of a trace, in order of arrival. *)
Definition settlements (evs : list Event) : list (PromiseSettledResult T) :=
  omap (fun ev => match ev with Settles _ r => Some r | Abort => None end) evs.

Definition settlers (evs : list Event) : list nat :=
  omap (fun ev => match ev with Settles i _ => Some i | Abort => None end) evs.

(** The update of [result] made by the handlers of one settlement. *)
Definition record (result : Promise T) (r : PromiseSettledResult T) : Promise T :=
  match r with
  | Fulfilled v => recordFulfilment result v
  | Rejected reason => recordRejection result reason
  end.

End Race.

Arguments State : clear implicits.
Arguments Event : clear implicits.

End Race.

(** ** spawn.ts *)

Module Spawn.

(** What [fork] returns: the already aborted stub, or a task registered under
    an identifier.  Tasks are numbered in order of creation; the spawned
    function itself is task [root]. *)
Inductive ForkTask : Type :=
| Stub
| Task (id : nat).

Definition root : nat := 0.

(** The promise [join] returns: one that is already settled, or the promise of
    a forked function. *)
Inductive JoinPromise : Type :=
| Settled (r : PromiseSettledResult value)
| TaskPromise (id : nat).

(** What happens to a call: the user code calls [fork] or [defer] (with a
    function named by a number) or [abort] on a task, the outer controller
    aborts, the promise returned by a forked function settles, the deferred
    function that is running completes. *)
Inductive Event : Type :=
| Fork
| Defer (fn : nat)
| TaskAbort (t : ForkTask)
| Abort
| TaskSettles (id : nat) (r : PromiseSettledResult value)
| DeferredSettles (r : PromiseSettledResult unit).

(** The variables of the closure.  [abortedTasks] holds the tasks whose own
    signal is aborted and [forked] counts the calls of forked functions;
    [promise] is the inner promise and [finalPromise] the one [spawn] returns.
    Of the chain built by the [finally] callback, [deferQueue] lists the
    deferred functions not yet completed, the running one first,
    [deferStarted] those called so far and [deferFailure] the rejection the
    chain carries. *)
Record State : Type := mkState {
  signal : AbortSignal;
  spawnSignal : AbortSignal;
  tasks : gset nat;
  abortedTasks : gset nat;
  forked : nat;
  result : option value;
  failure : option value;
  deferredFunctions : list nat;
  promise : Promise value;
  deferQueue : list nat;
  deferStarted : list nat;
  deferFailure : option value;
  finalPromise : Promise value
}.

Definition setSignal (s : AbortSignal) (st : State) : State :=
  mkState s (spawnSignal st) (tasks st) (abortedTasks st) (forked st) (result st)
          (failure st) (deferredFunctions st) (promise st) (deferQueue st)
          (deferStarted st) (deferFailure st) (finalPromise st).

Definition setSpawnSignal (s : AbortSignal) (st : State) : State :=
  mkState (signal st) s (tasks st) (abortedTasks st) (forked st) (result st)
          (failure st) (deferredFunctions st) (promise st) (deferQueue st)
          (deferStarted st) (deferFailure st) (finalPromise st).

Definition setTasks (ts : gset nat) (st : State) : State :=
  mkState (signal st) (spawnSignal st) ts (abortedTasks st) (forked st) (result st)
          (failure st) (deferredFunctions st) (promise st) (deferQueue st)
          (deferStarted st) (deferFailure st) (finalPromise st).

Definition setAbortedTasks (ts : gset nat) (st : State) : State :=
  mkState (signal st) (spawnSignal st) (tasks st) ts (forked st) (result st)
          (failure st) (deferredFunctions st) (promise st) (deferQueue st)
          (deferStarted st) (deferFailure st) (finalPromise st).

Definition setResult (v : value) (st : State) : State :=
  mkState (signal st) (spawnSignal st) (tasks st) (abortedTasks st) (forked st)
          (Some v) (failure st) (deferredFunctions st) (promise st) (deferQueue st)
          (deferStarted st) (deferFailure st) (finalPromise st).

Definition setFailure (error : value) (st : State) : State :=
  mkState (signal st) (spawnSignal st) (tasks st) (abortedTasks st) (forked st)
          (result st) (Some error) (deferredFunctions st) (promise st) (deferQueue st)
          (deferStarted st) (deferFailure st) (finalPromise st).

(** [abortTasks], the listener on the spawn signal. *)
Definition abortTasks (st : State) : State :=
  setAbortedTasks (abortedTasks st ∪ tasks st) st.

(** [spawnAbortController.abort()]. *)
Definition abortSpawn (st : State) : State :=
  let '(sig, fire) := abort (spawnSignal st) in
  let st := setSpawnSignal sig st in
  if fire then abortTasks st else st.

(** [fork(forkFn)]: [forked] counts the calls of a forked function. *)
Definition fork (st : State) : State * ForkTask :=
  if aborted (spawnSignal st) then (st, Stub)
  else
    let id := forked st in
    (mkState (signal st) (spawnSignal st) ({[id]} ∪ tasks st) (abortedTasks st)
             (S id) (result st) (failure st) (deferredFunctions st) (promise st)
             (deferQueue st) (deferStarted st) (deferFailure st) (finalPromise st),
     Task id).

(** [task.abort()] and [task.join()]. *)
Definition taskAbort (t : ForkTask) (st : State) : State :=
  match t with
  | Stub => st
  | Task id => setAbortedTasks ({[id]} ∪ abortedTasks st) st
  end.

Definition join (t : ForkTask) : JoinPromise :=
  match t with
  | Stub => Settled (Rejected AbortError)
  | Task id => TaskPromise id
  end.

Definition defer (fn : nat) (st : State) : State :=
  mkState (signal st) (spawnSignal st) (tasks st) (abortedTasks st) (forked st)
          (result st) (failure st) (deferredFunctions st ++ [fn]) (promise st)
          (deferQueue st) (deferStarted st) (deferFailure st) (finalPromise st).

(** The callback of [promise.finally]: both listeners are removed and the
    chain of deferred functions is built, last registered first; the head of
    [deferQueue] is the function that is running. *)
Definition onFinally (st : State) : State :=
  let queue := reverse (deferredFunctions st) in
  mkState (removeEventListener (signal st)) (removeEventListener (spawnSignal st))
          (tasks st) (abortedTasks st) (forked st) (result st) (failure st)
          (deferredFunctions st) (promise st) queue
          (deferStarted st ++ take 1 queue) None
          (match queue with
           | [] => promise st
           | _ :: _ => finalPromise st
           end).

(** [resolve] and [reject] of the inner promise. *)
Definition settlePromise (r : PromiseSettledResult value) (st : State) : State :=
  match promise st with
  | Some _ => st
  | None =>
      onFinally
        (mkState (signal st) (spawnSignal st) (tasks st) (abortedTasks st) (forked st)
                 (result st) (failure st) (deferredFunctions st) (Some r)
                 (deferQueue st) (deferStarted st) (deferFailure st) (finalPromise st))
  end.

(** The handlers attached to the promise of the spawned function. *)
Definition onRootSettled (r : PromiseSettledResult value) (st : State) : State :=
  match r with
  | Fulfilled v => setResult v (abortSpawn st)
  | Rejected error =>
      let st := abortSpawn st in
      if negb (isAbortError error) || bool_decide (failure st = None)
      then setFailure error st
      else st
  end.

(** The chain [.catch(catchAbortError).catch(...)] attached to every task. *)
Definition onTaskFailure (r : PromiseSettledResult value) (st : State) : State :=
  match r with
  | Fulfilled _ => st
  | Rejected error =>
      match catchAbortError error with
      | Fulfilled _ => st
      | Rejected error => abortSpawn (setFailure error st)
      end
  end.

(** The [.finally] callback of every task. *)
Definition onTaskFinally (id : nat) (st : State) : State :=
  let st := setTasks (tasks st ∖ {[id]}) st in
  if Nat.eqb (size (tasks st)) 0 then
    match failure st, result st with
    | Some error, _ => settlePromise (Rejected error) st
    | None, Some v => settlePromise (Fulfilled v) st
    | None, None => st
    end
  else st.

(** The reactions to the settlement of a task, in the order in which they
    were attached to its promise: for the spawned function the handlers given
    to [then], then the failure handler and the [finally] callback. *)
Definition onTaskSettled (id : nat) (r : PromiseSettledResult value) (st : State) : State :=
  let st := if Nat.eqb id root then onRootSettled r st else st in
  onTaskFinally id (onTaskFailure r st).

(** One link [deferPromise.finally(fn)] of the chain completes: a failure of
    [fn] replaces the state of the chain, then the next function starts or the
    promise returned by [spawn] settles. *)
Definition onDeferredSettled (r : PromiseSettledResult unit) (st : State) : State :=
  match deferQueue st with
  | [] => st
  | _ :: rest =>
      let failed :=
        match r with
        | Rejected error => Some error
        | Fulfilled _ => deferFailure st
        end in
      mkState (signal st) (spawnSignal st) (tasks st) (abortedTasks st) (forked st)
              (result st) (failure st) (deferredFunctions st) (promise st) rest
              (deferStarted st ++ take 1 rest) failed
              (match rest with
               | [] =>
                   match failed with
                   | Some error => Some (Rejected error)
                   | None => promise st
                   end
               | _ :: _ => finalPromise st
               end)
  end.

(** [spawn signal fn]. *)
Definition spawn (sig : AbortSignal) : State :=
  if aborted sig then
    mkState sig pendingSignal ∅ ∅ 0 None None [] None [] [] None
            (Some (Rejected AbortError))
  else
    (fork (mkState (addEventListener sig) (addEventListener pendingSignal) ∅ ∅ 0
                   None None [] None [] [] None None)).1.

Definition step (st : State) (ev : Event) : State :=
  match ev with
  | Fork => (fork st).1
  | Defer fn => defer fn st
  | TaskAbort t => taskAbort t st
  | Abort =>
      let '(sig, fire) := abort (signal st) in
      let st := setSignal sig st in
      if fire then abortSpawn st else st
  | TaskSettles id r =>
      if bool_decide (id ∈ tasks st) then onTaskSettled id r st else st
  | DeferredSettles r => onDeferredSettled r st
  end.

Definition run (st : State) (evs : list Event) : State := foldl step st evs.

(** A trace in which only live tasks settle: a promise settles once, and only
    the promise of a forked function has the handlers installed. *)
Fixpoint liveSettles (st : State) (evs : list Event) : bool :=
  match evs with
  | [] => true
  | ev :: rest =>
      match ev with
      | TaskSettles id _ => bool_decide (id ∈ tasks st)
      | _ => true
      end && liveSettles (step st ev) rest
  end.

(** The settlements of tasks in a trace, in order of arrival. *)
Definition settlements (evs : list Event) : list (nat * PromiseSettledResult value) :=
  omap (fun ev => match ev with TaskSettles id r => Some (id, r) | _ => None end) evs.

(** The part of the state that the promise returned by [spawn] and the
    listener on the outer signal depend on. *)
Definition view (st : State)
  : nat * nat * Promise value * Promise value *
    list nat * list nat * list nat * option value :=
  (addCalls (signal st), removeCalls (signal st), promise st, finalPromise st,
   deferQueue st, deferStarted st, deferredFunctions st, deferFailure st).

(** The phases of a call: while tasks are live the listener is registered
    and nothing of the cleanup has started; once the inner promise has
    settled the listener is gone and the promise returned by [spawn] is
    pending exactly while deferred functions remain. *)
Definition phase (st : State) : Prop :=
  addCalls (signal st) = 1 ∧
  match promise st with
  | None =>
      removeCalls (signal st) = 0 ∧ finalPromise st = None ∧
      deferQueue st = [] ∧ deferStarted st = []
  | Some r =>
      removeCalls (signal st) = 1 ∧
      (deferQueue st ≠ [] → finalPromise st = None) ∧
      (deferQueue st = [] → is_Some (finalPromise st)) ∧
      (deferredFunctions st = [] → deferQueue st = [] ∧ finalPromise st = Some r)
  end.

End Spawn.

(** ** retry.ts

    JavaScript numbers are read as exact rationals; [Math.round] rounds to the
    nearest integer, halves upwards. *)

Module Retry.

#[local] Open Scope Q_scope.

Definition Math_min (a b : Q) : Q := if Qle_bool a b then a else b.

Definition Math_pow (a : Q) (b : Z) : Q := Qpower a b.

Definition Math_round (x : Q) : Z := Qfloor (x + (1 # 2)).

(** [maxAttempts = None] stands for [Infinity]. *)
Record RetryOptions : Type := mkOptions {
  baseMs : Q;
  maxDelayMs : Q;
  maxAttempts : option Q
}.

Definition defaults : RetryOptions := mkOptions 1000 30000 None.

Definition backoff (opts : RetryOptions) (attempt : Z) : Q :=
  Math_min (maxDelayMs opts) (Math_pow 2 attempt * baseMs opts).

(** The delay computed in the [catch] block; [random] is the sample drawn
    from [Math.random()]. *)
Definition delayMs (opts : RetryOptions) (attempt : Z) (random : Q) : Z :=
  if Z.eqb attempt (-1) then 0%Z
  else Math_round (backoff opts attempt * (1 + random) / 2).

Section Retry.
Context {T : Type}.

(** One call of [fn]: whether it calls [reset], how its promise settles, the
    sample [Math.random()] returns afterwards, what [onError] throws if it
    throws, and how the promise of [delay] settles. *)
Record Attempt : Type := mkAttempt {
  resets : bool;
  returns : PromiseSettledResult T;
  random : Q;
  onErrorThrows : option value;
  delay : PromiseSettledResult unit
}.

Inductive Outcome : Type :=
| Return (v : T)
| Throw (error : value)
| Continue (attempt : Z) (delay : Z).

Definition exhausted (attempt : Z) (opts : RetryOptions) : bool :=
  match maxAttempts opts with
  | None => false
  | Some m => Qle_bool m (inject_Z attempt)
  end.

(** One turn of the [while (true)] loop. *)
Definition iteration (opts : RetryOptions) (attempt : Z) (a : Attempt) : Outcome :=
  let attempt := if resets a then (-1)%Z else attempt in
  match returns a with
  | Fulfilled v => Return v
  | Rejected error =>
      match rethrowAbortError error with
      | Rejected e => Throw e
      | Fulfilled _ =>
          if exhausted attempt opts then Throw error
          else
            let d := delayMs opts attempt (random a) in
            match onErrorThrows a with
            | Some e => Throw e
            | None =>
                if Z.eqb d 0 then Continue (attempt + 1)%Z d
                else
                  match delay a with
                  | Rejected e => Throw e
                  | Fulfilled _ => Continue (attempt + 1)%Z d
                  end
            end
      end
  end.

(** [retry signal fn options] played against the calls of [fn] in [script]:
    the delays computed, and the settlement of the returned promise if it
    settles within the script. *)
Fixpoint loop (opts : RetryOptions) (attempt : Z) (script : list Attempt)
  : list Z * Promise T :=
  match script with
  | [] => ([], None)
  | a :: rest =>
      match iteration opts attempt a with
      | Return v => ([], Some (Fulfilled v))
      | Throw error => ([], Some (Rejected error))
      | Continue attempt' d =>
          let '(ds, r) := loop opts attempt' rest in (d :: ds, r)
      end
  end.

Definition retry (opts : RetryOptions) (script : list Attempt)
  : list Z * Promise T :=
  loop opts 0 script.

End Retry.

Arguments Attempt : clear implicits.
Arguments Outcome : clear implicits.

End Retry.

(** ** abortable.ts *)

Module Abortable.
Section Abortable.
Context {T : Type}.

(** The handler pairs attached to the wrapped promise: [then(noop, noop)] and
    [then(resolve, reject)]. *)
Inductive Handler : Type :=
| Noop
| Forward.

Inductive Event : Type :=
| Settles (r : PromiseSettledResult T)
| Abort.

Record State : Type := mkState {
  handlers : list Handler;
  underlying : Promise T;
  unhandledRejection : bool;
  execution : Execute.State T
}.

Definition completion (r : PromiseSettledResult T) : Execute.Completion T :=
  match r with
  | Fulfilled v => Execute.CallResolve v
  | Rejected reason => Execute.CallReject reason
  end.

(** [abortable signal promise]: the executor, when [execute] calls it,
    attaches the forwarding handlers and returns a callback that does
    nothing. *)
Definition abortable (sig : AbortSignal) : State :=
  let noops := if aborted sig then [Noop] else [] in
  let execution := Execute.execute sig [] Execute.NoAction in
  mkState (noops ++ replicate (Execute.executorCalls execution) Forward)
          None false execution.

Definition runHandler (r : PromiseSettledResult T) (e : Execute.State T) (h : Handler)
  : Execute.State T :=
  match h with
  | Noop => e
  | Forward => Execute.complete (completion r) e
  end.

(** A rejection of a promise nobody attached a handler to is reported as
    unhandled. *)
Definition step (st : State) (ev : Event) : State :=
  match ev with
  | Settles r =>
      match underlying st with
      | Some _ => st
      | None =>
          mkState (handlers st) (Some r)
                  (match r, handlers st with
                   | Rejected _, [] => true
                   | _, _ => unhandledRejection st
                   end)
                  (foldl (runHandler r) (execution st) (handlers st))
      end
  | Abort =>
      mkState (handlers st) (underlying st) (unhandledRejection st)
              (Execute.step (execution st) Execute.Abort)
  end.

Definition run (st : State) (evs : list Event) : State := foldl step st evs.

End Abortable.

Arguments State : clear implicits.
Arguments Event : clear implicits.

End Abortable.

(** ** Subscriptions

    A call has subscribed to the outer signal at most once, has unsubscribed
    no more often than it subscribed, and has unsubscribed as often as it
    subscribed once its promise [p] is settled. *)


(** A call that never subscribed. *)
Definition unsubscribed (sig : AbortSignal) : Prop :=
  addCalls sig = 0 ∧ removeCalls sig = 0.


Definition allSubscription {T} (st : All.State T) : Prop :=
  addCalls (All.signal st) = 1 ∧
  match All.promise st with
  | None => removeCalls (All.signal st) = 0 ∧ All.settledCount st < All.length st
  | Some _ => removeCalls (All.signal st) = 1 ∧ All.length st ≤ All.settledCount st
  end.

Definition raceSubscription {T} (st : Race.State T) : Prop :=
  addCalls (Race.signal st) = 1 ∧
  match Race.promise st with
  | None =>
      removeCalls (Race.signal st) = 0 ∧
      (Race.length st = 0 ∨ Race.settledCount st < Race.length st)
  | Some _ =>
      removeCalls (Race.signal st) = 1 ∧ Race.length st ≤ Race.settledCount st
  end.

(** What holds of a call of [abortable] on an aborted signal. *)
Definition abortableFastPath {T} (st : Abortable.State T) : Prop :=
  Abortable.handlers st = [Abortable.Noop] ∧
  Abortable.unhandledRejection st = false ∧
  ∃ evs, Abortable.execution st
         = Execute.run (Execute.execute abortedSignal [] Execute.NoAction) evs.

(** ** Reference outcomes

    What the priority rules select from the settlements of a trace. *)

Definition genuine (reason : value) : bool := negb (isAbortError reason).

(** The first failure that is not an [AbortError] if there is one, otherwise
    the first failure. *)
Definition firstFailure (reasons : list value) : option value :=
  match find genuine reasons with
  | Some reason => Some reason
  | None => head reasons
  end.

(** The last failure that is not an [AbortError]. *)
Definition lastGenuine (reasons : list value) : option value :=
  find genuine (reverse reasons).

Section Winners.
Context {T : Type}.

Definition failureOf (r : PromiseSettledResult T) : option value :=
  match r with
  | Fulfilled _ => None
  | Rejected reason => Some reason
  end.

Definition fulfilled (r : PromiseSettledResult T) : bool :=
  match r with
  | Fulfilled _ => true
  | Rejected _ => false
  end.

(** [race]: the first failure that is not an [AbortError] if there is one,
    otherwise the first settlement of any kind. *)
Definition raceWinner (rs : list (PromiseSettledResult T)) : Promise T :=
  match find genuine (omap failureOf rs) with
  | Some reason => Some (Rejected reason)
  | None => head rs
  end.

(** The priority rule in the words of the specification: a fulfilment
    outranks any failure, a failure that is not an [AbortError] outranks one
    that is, ties go to the first arrival. *)
Definition raceWinnerAsSpecified (rs : list (PromiseSettledResult T)) : Promise T :=
  match find fulfilled rs with
  | Some r => Some r
  | None => Rejected <$> firstFailure (omap failureOf rs)
  end.

End Winners.

(** [spawn]: the last failure of a task that is not an [AbortError] if there
    is one, otherwise the settlement of the spawned function. *)
Definition taskFailures (h : list (nat * PromiseSettledResult value)) : list value :=
  omap (fun p => failureOf p.2) h.

Definition rootSettlement (h : list (nat * PromiseSettledResult value))
  : Promise value :=
  snd <$> find (fun p => Nat.eqb p.1 Spawn.root) h.

Definition spawnOutcome (h : list (nat * PromiseSettledResult value))
  : Promise value :=
  match lastGenuine (taskFailures h) with
  | Some error => Some (Rejected error)
  | None => rootSettlement h
  end.

(** What [failure] holds after the settlements [h]. *)
Definition recordedFailure (h : list (nat * PromiseSettledResult value)) : option value :=
  match lastGenuine (taskFailures h) with
  | Some error => Some error
  | None =>
      match rootSettlement h with
      | Some (Rejected error) => Some error
      | _ => None
      end
  end.

(** The variables of a call of [spawn] after the settlements [h]. *)
Definition spawnTracks (st : Spawn.State) (h : list (nat * PromiseSettledResult value))
  : Prop :=
  1 ≤ Spawn.forked st ∧
  (Spawn.root ∈ Spawn.tasks st ↔ rootSettlement h = None) ∧
  Spawn.result st = match rootSettlement h with
                    | Some (Fulfilled v) => Some v
                    | _ => None
                    end ∧
  Spawn.failure st = recordedFailure h ∧
  (Spawn.root ∉ Spawn.tasks st → aborted (Spawn.spawnSignal st) = true) ∧
  Spawn.promise st = if decide (Spawn.tasks st = ∅) then spawnOutcome h else None.

(** The promise returned by [spawn] during the cleanup: pending while a
    deferred function remains, then rejected with the failure of the chain or
    settled like the inner promise. *)
Definition spawnCleanup (st : Spawn.State) (r : PromiseSettledResult value) : Prop :=
  Spawn.promise st = Some r ∧
  Spawn.finalPromise st
  = match Spawn.deferQueue st with
    | [] => Some (match Spawn.deferFailure st with
                  | Some error => Rejected error
                  | None => r
                  end)
    | _ :: _ => None
    end.

(** The failure of the deferred function that ran last among those that
    failed. *)
Definition lastFailure (rs : list (PromiseSettledResult unit)) : option value :=
  last (omap failureOf rs).

(** ** forever.ts *)

Module Forever.

(** [forever signal]: the executor keeps neither completion function and
    returns a callback that does nothing, so the only event of a call is an
    abort request. *)
Definition forever (sig : AbortSignal) : Execute.State Empty_set :=
  Execute.execute sig [] Execute.NoAction.

Definition run (st : Execute.State Empty_set) (aborts : nat) : Execute.State Empty_set :=
  Execute.run st (replicate aborts Execute.Abort).

End Forever.

(** ** delay.ts *)

Module Delay.

Inductive DueTime : Type :=
| Milliseconds (ms : Z)
| Date (time : Z).

(** [typeof dueTime === 'number' ? dueTime : dueTime.getTime() - Date.now()],
    where [now] is what [Date.now()] returns. *)
Definition milliseconds (now : Z) (dueTime : DueTime) : Z :=
  match dueTime with
  | Milliseconds ms => ms
  | Date time => (time - now)%Z
  end.

Inductive Event : Type :=
| TimerFires
| Abort.

(** [timer] holds the delay of the timer set by the executor while that timer
    is armed. *)
Record State : Type := mkState {
  execution : Execute.State unit;
  timer : option Z;
  setTimeoutCalls : nat;
  clearTimeoutCalls : nat
}.

(** [delay signal dueTime]: the executor, when [execute] calls it, sets the
    timer. *)
Definition delay (sig : AbortSignal) (now : Z) (dueTime : DueTime) : State :=
  let execution := Execute.execute sig [] Execute.NoAction in
  if Nat.eqb (Execute.executorCalls execution) 0 then mkState execution None 0 0
  else mkState execution (Some (milliseconds now dueTime)) 1 0.

(** The timer calls [resolve]; the abort callback, when the listener of
    [execute] calls it, clears the timer. *)
Definition step (st : State) (ev : Event) : State :=
  match ev with
  | TimerFires =>
      match timer st with
      | None => st
      | Some _ =>
          mkState (Execute.complete (Execute.CallResolve tt) (execution st)) None
                  (setTimeoutCalls st) (clearTimeoutCalls st)
      end
  | Abort =>
      let execution' := Execute.step (execution st) Execute.Abort in
      if Nat.ltb (Execute.callbackCalls (execution st)) (Execute.callbackCalls execution')
      then mkState execution' None (setTimeoutCalls st) (S (clearTimeoutCalls st))
      else mkState execution' (timer st) (setTimeoutCalls st) (clearTimeoutCalls st)
  end.

Definition run (st : State) (evs : list Event) : State := foldl step st evs.

End Delay.

(** ** waitForEvent.ts *)

Module WaitForEvent.

(** An event target, by the methods [isFunction] finds on it. *)
Record EventTargetLike : Type := mkTarget {
  hasAddEventListener : bool;
  hasRemoveEventListener : bool;
  hasOn : bool;
  hasOff : bool;
  hasAddListener : bool;
  hasRemoveListener : bool
}.

Definition isEventTarget (sourceObj : EventTargetLike) : bool :=
  hasAddEventListener sourceObj && hasRemoveEventListener sourceObj.

Definition isJQueryStyleEventEmitter (sourceObj : EventTargetLike) : bool :=
  hasOn sourceObj && hasOff sourceObj.

Definition isNodeStyleEventEmitter (sourceObj : EventTargetLike) : bool :=
  hasAddListener sourceObj && hasRemoveListener sourceObj.

(** The pair of methods [listen] registers and removes the handler with. *)
Inductive Methods : Type :=
| AddRemoveEventListener
| OnOff
| AddRemoveListener.

(** [listen target eventName handler options]: the methods used; [None]
    stands for the [Error] thrown on an invalid target. *)
Definition listen (target : EventTargetLike) : option Methods :=
  if isEventTarget target then Some AddRemoveEventListener
  else if isJQueryStyleEventEmitter target then Some OnOff
  else if isNodeStyleEventEmitter target then Some AddRemoveListener
  else None.

(** [args.length > 1 ? args : args[0]] *)
Inductive Payload : Type :=
| Single (v : value)
| Several (args : list value).

Definition payload (args : list value) : Payload :=
  match args with
  | [] => Single Undefined
  | [v] => Single v
  | _ => Several args
  end.

(** The target emits the event with the given arguments, or the signal is
    aborted. *)
Inductive Event : Type :=
| Emit (args : list value)
| Abort.

(** [registered] says whether the handler is registered on the target;
    [listenCalls] and [unlistenCalls] count the calls of [listen] and of the
    function it returned. *)
Record State : Type := mkState {
  execution : Execute.State Payload;
  methods : option Methods;
  registered : bool;
  listenCalls : nat;
  unlistenCalls : nat;
  finished : bool
}.

(** [waitForEvent signal target eventName options].  [during] lists the
    emissions made while [listen] runs: the handler then finds [unlisten]
    unset, and the executor calls it after [listen] has returned.  When
    [listen] throws, the promise under construction rejects with what it
    threw and [execute] gets no further. *)
Definition waitForEvent (sig : AbortSignal) (target : EventTargetLike)
    (during : list (list value)) : State :=
  if aborted sig then
    mkState (Execute.execute sig [] Execute.NoAction) None false 0 0 false
  else
    match listen target with
    | None =>
        mkState (Execute.mkState sig 1 false false Execute.NoAction 0 false
                   (Some (Rejected (Error "Invalid event target"))))
                None false 1 0 false
    | Some m =>
        let finished := negb (bool_decide (during = [])) in
        mkState (Execute.execute sig
                   ((fun args => Execute.CallResolve (payload args)) <$> during)
                   Execute.NoAction)
                (Some m) (negb finished) 1 (if finished then 1 else 0) finished
    end.

(** [unlisten()]. *)
Definition unlisten (st : State) : State :=
  mkState (execution st) (methods st) false (listenCalls st) (S (unlistenCalls st))
          (finished st).

Definition setFinished (st : State) : State :=
  mkState (execution st) (methods st) (registered st) (listenCalls st) (unlistenCalls st)
          true.

(** The handler, called once [listen] has returned. *)
Definition handler (args : list value) (st : State) : State :=
  let st := mkState (Execute.complete (Execute.CallResolve (payload args)) (execution st))
                    (methods st) (registered st) (listenCalls st) (unlistenCalls st)
                    (finished st) in
  unlisten (setFinished st).

(** The abort callback the executor returns. *)
Definition callback (st : State) : State := unlisten (setFinished st).

Definition step (st : State) (ev : Event) : State :=
  match ev with
  | Emit args => if registered st then handler args st else st
  | Abort =>
      let execution' := Execute.step (execution st) Execute.Abort in
      let st' := mkState execution' (methods st) (registered st) (listenCalls st)
                         (unlistenCalls st) (finished st) in
      if Nat.ltb (Execute.callbackCalls (execution st)) (Execute.callbackCalls execution')
      then callback st'
      else st'
  end.

Definition run (st : State) (evs : list Event) : State := foldl step st evs.

End WaitForEvent.

(** ** run.ts *)

Module Run.

(** [promise.catch(catchAbortError)] *)
Definition catch (p : Promise unit) : Promise unit :=
  match p with
  | None => None
  | Some (Fulfilled v) => Some (Fulfilled v)
  | Some (Rejected error) => Some (catchAbortError error)
  end.

(** [run fn] for a function [fn] that hands its signal to [execute] and
    returns the promise it gets, as [forever] and [delay] do: the signal is
    the one of a fresh controller, and the state of the call of [execute] is
    all there is. *)
Definition run (sync : list (Execute.Completion unit)) (cb : Execute.CallbackResult)
  : Execute.State unit :=
  Execute.execute pendingSignal sync cb.

(** The promise that the function returned by [run] hands out. *)
Definition promise (st : Execute.State unit) : Promise unit :=
  catch (Execute.promise st).

(** A call of the function returned by [run]: it aborts the signal. *)
Definition stop (st : Execute.State unit) : Execute.State unit :=
  Execute.step st Execute.Abort.

End Run.

(** ** proactiveRetry.ts *)

Module ProactiveRetry.

(** [maxAttempts = None] stands for [Infinity]. *)
Record ProactiveRetryOptions : Type := mkOptions {
  baseMs : Q;
  maxAttempts : option Q
}.

Definition defaults : ProactiveRetryOptions := mkOptions 1000 None.

(** [attempt + 1 >= maxAttempts] *)
Definition lastAttempt (opts : ProactiveRetryOptions) (attempt : nat) : bool :=
  match maxAttempts opts with
  | None => false
  | Some m => Qle_bool m (inject_Z (Z.of_nat attempt + 1))
  end.

(** The delay before the next attempt; [random] is the sample drawn from
    [Math.random()]. *)
Definition delayMs (opts : ProactiveRetryOptions) (attempt : nat) (random : Q) : Z :=
  Retry.Math_round
    ((Retry.Math_pow 2 (Z.of_nat attempt) * baseMs opts * (1 + random) / 2)%Q).

Section ProactiveRetry.
Context {T : Type}.

(** The promise of an attempt settles ([onErrorThrows] is what [onError]
    throws when it is called and throws), the timer of the pending delay
    fires ([random] is the sample drawn for the delay after the next
    attempt), or the outer signal is aborted. *)
Inductive Event : Type :=
| AttemptSettles (attempt : nat) (r : PromiseSettledResult T) (onErrorThrows : option value)
| DelayElapses (random : Q)
| Abort.

(** The variables of the closure.  [promises] holds the keys of the map,
    [calls] counts the calls of [fn], [unsettled] holds the attempts whose
    promise is pending, [waiting] says whether [makeAttempts] is suspended at
    [await delay], and [delays] lists the delays asked for. *)
Record State : Type := mkState {
  execution : Execute.State T;
  innerAborted : bool;
  attemptsExhausted : bool;
  promises : gset nat;
  calls : nat;
  unsettled : gset nat;
  waiting : bool;
  delays : list Z
}.

(** One turn of the loop of [makeAttempts], up to the [break] or the
    [await]. *)
Definition launch (opts : ProactiveRetryOptions) (random : Q) (st : State) : State :=
  let attempt := calls st in
  if lastAttempt opts attempt then
    mkState (execution st) (innerAborted st) true ({[attempt]} ∪ promises st)
            (S attempt) ({[attempt]} ∪ unsettled st) false (delays st)
  else
    mkState (execution st) (innerAborted st) (attemptsExhausted st)
            ({[attempt]} ∪ promises st) (S attempt) ({[attempt]} ∪ unsettled st) true
            (delays st ++ [delayMs opts attempt random]).

(** [innerAbortController.abort()]: a pending [delay] rejects with
    [AbortError], which ends [makeAttempts] before [attemptsExhausted] is
    set. *)
Definition innerAbort (st : State) : State :=
  mkState (execution st) true (attemptsExhausted st) (promises st) (calls st)
          (unsettled st) false (delays st).

Definition setExecution (e : Execute.State T) (st : State) : State :=
  mkState e (innerAborted st) (attemptsExhausted st) (promises st) (calls st)
          (unsettled st) (waiting st) (delays st).

Definition setPromises (ps : gset nat) (st : State) : State :=
  mkState (execution st) (innerAborted st) (attemptsExhausted st) ps (calls st)
          (unsettled st) (waiting st) (delays st).

Definition handleFulfilled (v : T) (st : State) : State :=
  let st := setPromises ∅ (innerAbort st) in
  setExecution (Execute.complete (Execute.CallResolve v) (execution st)) st.

Definition handleRejected (err : value) (attempt : nat) (onErrorThrows : option value)
    (st : State) : State :=
  let st := setPromises (promises st ∖ {[attempt]}) st in
  if attemptsExhausted st && Nat.eqb (size (promises st)) 0 then
    setExecution (Execute.complete (Execute.CallReject err) (execution st)) st
  else if isAbortError err then st
  else
    match onErrorThrows with
    | None => st
    | Some e =>
        let st := setPromises ∅ (innerAbort st) in
        setExecution (Execute.complete (Execute.CallReject e) (execution st)) st
    end.

(** [proactiveRetry signal fn options]: the executor, when [execute] calls
    it, starts [makeAttempts], which runs up to its first [await]. *)
Definition proactiveRetry (opts : ProactiveRetryOptions) (sig : AbortSignal) (random : Q)
  : State :=
  let execution := Execute.execute sig [] Execute.NoAction in
  let st := mkState execution false false ∅ 0 ∅ false [] in
  if Nat.eqb (Execute.executorCalls execution) 0 then st else launch opts random st.

Definition step (opts : ProactiveRetryOptions) (st : State) (ev : Event) : State :=
  match ev with
  | AttemptSettles attempt r onErrorThrows =>
      if bool_decide (attempt ∈ unsettled st) then
        let st := mkState (execution st) (innerAborted st) (attemptsExhausted st)
                          (promises st) (calls st) (unsettled st ∖ {[attempt]})
                          (waiting st) (delays st) in
        match r with
        | Fulfilled v => handleFulfilled v st
        | Rejected err => handleRejected err attempt onErrorThrows st
        end
      else st
  | DelayElapses random => if waiting st then launch opts random st else st
  | Abort =>
      let execution' := Execute.step (execution st) Execute.Abort in
      let st' := setExecution execution' st in
      if Nat.ltb (Execute.callbackCalls (execution st)) (Execute.callbackCalls execution')
      then innerAbort st'
      else st'
  end.

Definition run (opts : ProactiveRetryOptions) (st : State) (evs : list Event) : State :=
  foldl (step opts) st evs.

End ProactiveRetry.

Arguments State : clear implicits.
Arguments Event : clear implicits.

End ProactiveRetry.

(** ** Further outcomes and invariants *)

(** The settlement a completion call asks for. *)
Definition settlementOf {T} (c : Execute.Completion T) : PromiseSettledResult T :=
  match c with
  | Execute.CallResolve v => Fulfilled v
  | Execute.CallReject reason => Rejected reason
  end.

(** A call of [execute] that has finished and is not registered on the
    signal. *)
Definition executeDetached {T} (st : Execute.State T) : Prop :=
  Execute.finished st = true ∧ listening (Execute.signal st) = false.



(** The tasks on which [abort] is called by hand in a trace, the trace
    without those calls, and a state in which the signals of the tasks [ids]
    are aborted too. *)
Definition spawnHandAborted (evs : list Spawn.Event) : gset nat :=
  foldr (fun ev ids => match ev with
                       | Spawn.TaskAbort (Spawn.Task id) => {[id]} ∪ ids
                       | _ => ids
                       end) ∅ evs.

Definition spawnIsTaskAbort (ev : Spawn.Event) : bool :=
  match ev with
  | Spawn.TaskAbort _ => true
  | _ => false
  end.

Definition spawnWithoutTaskAborts (evs : list Spawn.Event) : list Spawn.Event :=
  List.filter (fun ev => negb (spawnIsTaskAbort ev)) evs.

Definition spawnMarkAborted (ids : gset nat) (st : Spawn.State) : Spawn.State :=
  Spawn.setAbortedTasks (Spawn.abortedTasks st ∪ ids) st.

(** Attempts of [retry]: one that fails with an error other than
    [AbortError] and is followed by an [onError] that returns and a delay that
    elapses; and one that ends the loop whatever the options, with a value or
    with an [AbortError]. *)
Definition retryFails {T} (a : Retry.Attempt T) : bool :=
  match Retry.returns a with
  | Fulfilled _ => false
  | Rejected error => genuine error
  end &&
  match Retry.onErrorThrows a with
  | None => true
  | Some _ => false
  end &&
  match Retry.delay a with
  | Fulfilled _ => true
  | Rejected _ => false
  end.

Definition retryDecides {T} (a : Retry.Attempt T) : bool :=
  match Retry.returns a with
  | Fulfilled _ => true
  | Rejected error => isAbortError error
  end.

(** A trace of [proactiveRetry] in which the outer signal does not fire and
    [onError] never throws. *)
Definition proactiveRetryUndisturbed {T} (evs : list (ProactiveRetry.Event T)) : bool :=
  forallb (fun ev => match ev with
                     | ProactiveRetry.AttemptSettles _ _ None => true
                     | ProactiveRetry.AttemptSettles _ _ (Some _) => false
                     | ProactiveRetry.DelayElapses _ => true
                     | ProactiveRetry.Abort => false
                     end) evs.

(** A completion call that does not reject with an error other than
    [AbortError]. *)
Definition completesQuietly {T} (ev : Execute.Event T) : bool :=
  match ev with
  | Execute.Complete (Execute.CallReject reason) => isAbortError reason
  | _ => true
  end.

(** * Properties *)

(** ** The tests of the repository, replayed *)

(** AbortError.test.ts *)
Example test_isAbortError :
  isAbortError (Obj []) = false ∧ isAbortError Undefined = false ∧
  isAbortError Null = false ∧ isAbortError AbortError = true.
Proof. by vm_compute. Qed.

Example test_rethrowAbortError :
  rethrowAbortError AbortError = Rejected AbortError ∧
  rethrowAbortError (Error "") = Fulfilled tt.
Proof. by vm_compute. Qed.

Example test_catchAbortError :
  catchAbortError AbortError = Fulfilled tt ∧
  catchAbortError (Error "") = Rejected (Error "").
Proof. by vm_compute. Qed.

(** execute.test.ts *)
Example test_execute_resolve_immediately :
  let st := Execute.run
              (Execute.execute pendingSignal [Execute.CallResolve (Str "test")]
                 Execute.NoAction)
              [Execute.Abort] in
  Execute.promise st = Some (Fulfilled (Str "test")) ∧
  Execute.callbackCalls st = 0 ∧ unsubscribed (Execute.signal st).
Proof. by vm_compute. Qed.

Example test_execute_abort_before_resolve :
  let st := Execute.run (Execute.execute pendingSignal [] Execute.NoAction)
              [Execute.Abort; Execute.Complete (Execute.CallResolve (Str "test"))] in
  Execute.promise st = Some (Rejected AbortError) ∧
  Execute.callbackCalls st = 1 ∧
  addCalls (Execute.signal st) = 1 ∧ removeCalls (Execute.signal st) = 1.
Proof. by vm_compute. Qed.

Example test_execute_abort_before_execute :
  let st := Execute.execute (T := value) abortedSignal [] Execute.NoAction in
  Execute.promise st = Some (Rejected AbortError) ∧
  Execute.executorCalls st = 0 ∧ unsubscribed (Execute.signal st).
Proof. by vm_compute. Qed.

Example test_execute_async_abort_callback :
  let st1 := Execute.run
               (Execute.execute (T := value) pendingSignal [] Execute.PendingAction)
               [Execute.Abort] in
  let st2 := Execute.step st1 Execute.CallbackFulfils in
  Execute.promise st1 = None ∧
  Execute.promise st2 = Some (Rejected AbortError) ∧
  Execute.callbackCalls st2 = 1 ∧
  addCalls (Execute.signal st2) = 1 ∧ removeCalls (Execute.signal st2) = 1.
Proof. by vm_compute. Qed.

Example test_execute_async_abort_callback_rejection :
  let st := Execute.run
              (Execute.execute (T := value) pendingSignal [] Execute.PendingAction)
              [Execute.Abort; Execute.CallbackRejects (Str "test")] in
  Execute.promise st = Some (Rejected (Str "test")) ∧
  Execute.callbackCalls st = 1 ∧
  addCalls (Execute.signal st) = 1 ∧ removeCalls (Execute.signal st) = 1.
Proof. by vm_compute. Qed.

(** all.test.ts *)
Example test_all_external_abort :
  let st1 := All.run (All.all (T := value) pendingSignal 2)
               [All.Abort; All.Settles 0 (Rejected AbortError)] in
  let st2 := All.step st1 (All.Settles 1 (Rejected AbortError)) in
  All.innerAborted st1 = true ∧ All.promise st1 = None ∧
  All.promise st2 = Some (Rejected AbortError) ∧
  addCalls (All.signal st2) = 1 ∧ removeCalls (All.signal st2) = 1.
Proof. by vm_compute. Qed.

Example test_all_fulfill :
  let st := All.run (All.all pendingSignal 2)
              [All.Settles 1 (Fulfilled (Num 42));
               All.Settles 0 (Fulfilled (Str "test"))] in
  All.innerAborted st = false ∧
  All.promise st = Some (Fulfilled [Some (Str "test"); Some (Num 42)]) ∧
  addCalls (All.signal st) = 1 ∧ removeCalls (All.signal st) = 1.
Proof. by vm_compute. Qed.

Example test_all_reject :
  let st1 := All.run (All.all (T := value) pendingSignal 2)
               [All.Settles 0 (Rejected (Str "test"))] in
  let st2 := All.step st1 (All.Settles 1 (Rejected AbortError)) in
  All.innerAborted st1 = true ∧ All.promise st1 = None ∧
  All.promise st2 = Some (Rejected (Str "test")) ∧
  addCalls (All.signal st2) = 1 ∧ removeCalls (All.signal st2) = 1.
Proof. by vm_compute. Qed.

Example test_all_reject_during_cleanup :
  let st := All.run (All.all (T := value) pendingSignal 2)
              [All.Abort; All.Settles 0 (Rejected AbortError);
               All.Settles 1 (Rejected (Error "test"))] in
  All.promise st = Some (Rejected (Error "test")) ∧
  addCalls (All.signal st) = 1 ∧ removeCalls (All.signal st) = 1.
Proof. by vm_compute. Qed.

Example test_all_empty :
  let st := All.all (T := value) pendingSignal 0 in
  All.promise st = Some (Fulfilled []) ∧ unsubscribed (All.signal st).
Proof. by vm_compute. Qed.

(** race.test.ts *)
Example test_race_external_abort :
  let st1 := Race.run (Race.race (T := value) pendingSignal 2)
               [Race.Abort; Race.Settles 0 (Rejected AbortError)] in
  let st2 := Race.step st1 (Race.Settles 1 (Rejected AbortError)) in
  Race.innerAborted st1 = true ∧ Race.promise st1 = None ∧
  Race.promise st2 = Some (Rejected AbortError) ∧
  addCalls (Race.signal st2) = 1 ∧ removeCalls (Race.signal st2) = 1.
Proof. by vm_compute. Qed.

Example test_race_fulfill :
  let st1 := Race.run (Race.race pendingSignal 2)
               [Race.Settles 0 (Fulfilled (Str "test"))] in
  let st2 := Race.step st1 (Race.Settles 1 (Rejected AbortError)) in
  Race.innerAborted st1 = true ∧ Race.promise st1 = None ∧
  Race.promise st2 = Some (Fulfilled (Str "test")) ∧
  addCalls (Race.signal st2) = 1 ∧ removeCalls (Race.signal st2) = 1.
Proof. by vm_compute. Qed.

Example test_race_reject :
  let st := Race.run (Race.race (T := value) pendingSignal 2)
              [Race.Settles 0 (Rejected (Str "test"));
               Race.Settles 1 (Rejected AbortError)] in
  Race.promise st = Some (Rejected (Str "test")) ∧
  addCalls (Race.signal st) = 1 ∧ removeCalls (Race.signal st) = 1.
Proof. by vm_compute. Qed.

Example test_race_reject_during_cleanup :
  let st := Race.run (Race.race (T := value) pendingSignal 2)
              [Race.Abort; Race.Settles 0 (Rejected AbortError);
               Race.Settles 1 (Rejected (Error "test"))] in
  Race.promise st = Some (Rejected (Error "test")) ∧
  addCalls (Race.signal st) = 1 ∧ removeCalls (Race.signal st) = 1.
Proof. by vm_compute. Qed.

(** spawn.test.ts *)
Example test_spawn_fork_manual_abort :
  let st := Spawn.run (Spawn.spawn pendingSignal)
              [Spawn.Fork; Spawn.TaskAbort (Spawn.Task 1);
               Spawn.TaskSettles 1 (Fulfilled Undefined);
               Spawn.TaskSettles Spawn.root (Fulfilled Undefined)] in
  Spawn.finalPromise st = Some (Fulfilled Undefined) ∧
  addCalls (Spawn.signal st) = 1 ∧ removeCalls (Spawn.signal st) = 1.
Proof. by vm_compute. Qed.

Example test_spawn_fork_abort_on_spawn_finish :
  let st1 := Spawn.run (Spawn.spawn pendingSignal)
               [Spawn.Fork; Spawn.TaskSettles Spawn.root (Fulfilled Undefined)] in
  let st2 := Spawn.step st1 (Spawn.TaskSettles 1 (Fulfilled Undefined)) in
  1 ∈ Spawn.abortedTasks st1 ∧ Spawn.finalPromise st1 = None ∧
  Spawn.finalPromise st2 = Some (Fulfilled Undefined) ∧
  addCalls (Spawn.signal st2) = 1 ∧ removeCalls (Spawn.signal st2) = 1.
Proof. split; [apply (bool_decide_unpack _); by vm_compute|by vm_compute]. Qed.

Example test_spawn_fork_abort_on_spawn_error :
  let st := Spawn.run (Spawn.spawn pendingSignal)
              [Spawn.Fork; Spawn.TaskSettles Spawn.root (Rejected (Error "the-error"));
               Spawn.TaskSettles 1 (Fulfilled Undefined)] in
  Spawn.finalPromise st = Some (Rejected (Error "the-error")) ∧
  addCalls (Spawn.signal st) = 1 ∧ removeCalls (Spawn.signal st) = 1.
Proof. by vm_compute. Qed.

Example test_spawn_error_thrown_from_fork :
  let st1 := Spawn.run (Spawn.spawn pendingSignal)
               [Spawn.Fork; Spawn.TaskSettles 1 (Rejected (Error "the-error"))] in
  let st2 := Spawn.step st1 (Spawn.TaskSettles Spawn.root (Rejected AbortError)) in
  Spawn.root ∈ Spawn.abortedTasks st1 ∧
  Spawn.finalPromise st2 = Some (Rejected (Error "the-error")) ∧
  addCalls (Spawn.signal st2) = 1 ∧ removeCalls (Spawn.signal st2) = 1.
Proof. split; [apply (bool_decide_unpack _); by vm_compute|by vm_compute]. Qed.

Example test_spawn_async_defer :
  let st := Spawn.run (Spawn.spawn pendingSignal)
              [Spawn.Defer 1; Spawn.TaskSettles Spawn.root (Fulfilled Undefined);
               Spawn.DeferredSettles (Fulfilled tt)] in
  Spawn.deferStarted st = [1] ∧ Spawn.finalPromise st = Some (Fulfilled Undefined).
Proof. by vm_compute. Qed.

Example test_spawn_abort_before_spawn :
  let st := Spawn.spawn abortedSignal in
  Spawn.finalPromise st = Some (Rejected AbortError) ∧
  Spawn.forked st = 0 ∧ unsubscribed (Spawn.signal st).
Proof. by vm_compute. Qed.

(** forever.test.ts and abortable.test.ts *)
Example test_forever :
  let st := Execute.run (Execute.execute (T := value) pendingSignal [] Execute.NoAction)
              [Execute.Abort] in
  Execute.promise st = Some (Rejected AbortError) ∧
  addCalls (Execute.signal st) = 1 ∧ removeCalls (Execute.signal st) = 1.
Proof. by vm_compute. Qed.

Example test_abortable_endless_promise :
  let st := Abortable.run (Abortable.abortable (T := value) pendingSignal)
              [Abortable.Abort] in
  Execute.promise (Abortable.execution st) = Some (Rejected AbortError) ∧
  addCalls (Execute.signal (Abortable.execution st)) = 1 ∧
  removeCalls (Execute.signal (Abortable.execution st)) = 1.
Proof. by vm_compute. Qed.

Example test_abortable_abort_before_reject :
  let st := Abortable.run (Abortable.abortable (T := value) abortedSignal)
              [Abortable.Settles (Rejected (Str "test"))] in
  Execute.promise (Abortable.execution st) = Some (Rejected AbortError) ∧
  Abortable.unhandledRejection st = false ∧
  unsubscribed (Execute.signal (Abortable.execution st)).
Proof. by vm_compute. Qed.

(** ** Promises and signals *)

Lemma settle_settled {A} (r o : PromiseSettledResult A) : settle r (Some o) = Some o.
Proof. reflexivity. Qed.

Lemma isAbortError_AbortError : isAbortError AbortError = true.
Proof. reflexivity. Qed.

(** ** execute *)

Section ExecuteFacts.
Context {T : Type}.
Implicit Types (st : Execute.State T) (ev : Execute.Event T) (evs : list (Execute.Event T)).

Lemma execute_run_app st evs evs' :
  Execute.run st (evs ++ evs') = Execute.run (Execute.run st evs) evs'.
Proof. apply foldl_app. Qed.

Lemma execute_run_cons st ev evs :
  Execute.run st (ev :: evs) = Execute.run (Execute.step st ev) evs.
Proof. reflexivity. Qed.

Lemma execute_finish_promise st : Execute.promise (Execute.finish st) = Execute.promise st.
Proof. unfold Execute.finish. by destruct (Execute.finished st). Qed.

Lemma execute_finish_calls st :
  Execute.callbackCalls (Execute.finish st) = Execute.callbackCalls st.
Proof. unfold Execute.finish. by destruct (Execute.finished st). Qed.

Lemma execute_finish_aborted st :
  aborted (Execute.signal (Execute.finish st)) = aborted (Execute.signal st).
Proof.
  unfold Execute.finish.
  destruct (Execute.finished st); [done|].
  by destruct (Execute.removeAbortListener st).
Qed.

(** Once settled, the promise keeps its value. *)
Lemma execute_step_settled st ev o :
  Execute.promise st = Some o → Execute.promise (Execute.step st ev) = Some o.
Proof.
  intros Hp. destruct ev as [[v|r]| | |r]; simpl.
  - by rewrite execute_finish_promise; simpl; rewrite Hp.
  - by rewrite execute_finish_promise; simpl; rewrite Hp.
  - destruct (abort (Execute.signal st)) as [sig [|]]; [|done].
    unfold Execute.listener; simpl.
    destruct (Execute.callback st); rewrite ?execute_finish_promise; simpl;
      by rewrite ?Hp.
  - destruct (Execute.callbackPending st); simpl; by rewrite ?Hp.
  - destruct (Execute.callbackPending st); simpl; by rewrite ?Hp.
Qed.

Lemma execute_run_settled st evs o :
  Execute.promise st = Some o → Execute.promise (Execute.run st evs) = Some o.
Proof.
  revert st. induction evs as [|ev evs IH]; intros st Hp; [done|].
  rewrite execute_run_cons. apply IH. by apply execute_step_settled.
Qed.

(** After the signal has fired, no event calls the abort callback again. *)
Lemma execute_step_after_abort st ev :
  aborted (Execute.signal st) = true →
  aborted (Execute.signal (Execute.step st ev)) = true ∧
  Execute.callbackCalls (Execute.step st ev) = Execute.callbackCalls st.
Proof.
  intros Ha. destruct ev as [[v|r]| | |r]; simpl.
  - by rewrite execute_finish_aborted, execute_finish_calls.
  - by rewrite execute_finish_aborted, execute_finish_calls.
  - unfold abort. by rewrite Ha.
  - by destruct (Execute.callbackPending st).
  - by destruct (Execute.callbackPending st).
Qed.

Lemma execute_run_after_abort st evs :
  aborted (Execute.signal st) = true →
  Execute.callbackCalls (Execute.run st evs) = Execute.callbackCalls st.
Proof.
  revert st. induction evs as [|ev evs IH]; intros st Ha; [done|].
  destruct (execute_step_after_abort st ev Ha) as [Ha' Hc].
  rewrite execute_run_cons, (IH _ Ha'). exact Hc.
Qed.

(** Further abort requests leave a call whose signal has fired untouched. *)
Lemma execute_run_aborts st evs :
  aborted (Execute.signal st) = true →
  Forall (λ ev, ev = Execute.Abort) evs →
  Execute.run st evs = st.
Proof.
  intros Ha Hevs. induction Hevs as [|ev evs -> _ IH]; [done|].
  rewrite execute_run_cons.
  assert (Execute.step st Execute.Abort = st) as ->; [|exact IH].
  simpl. unfold abort. rewrite Ha. by destruct st.
Qed.

End ExecuteFacts.

Section ExecuteCancellation.
Context {T : Type}.


End ExecuteCancellation.



(** ** Arrays *)

Lemma arraySet_lt {A} (i : nat) (x : A) (a : list (option A)) :
  i < length a → arraySet i x a = <[i := Some x]> a.
Proof. intros Hi. unfold arraySet. by rewrite decide_True. Qed.

(** ** Failure priority *)

Lemma genuine_AbortError : genuine AbortError = false.
Proof. reflexivity. Qed.

(** Folding [All.recordRejection] over the failures of a trace selects
    [firstFailure]. *)
Lemma recordRejection_foldl_Some (old : value) (reasons : list value) :
  foldl All.recordRejection (Some old) reasons
  = Some (if isAbortError old
          then default old (find genuine reasons)
          else old).
Proof.
  revert old. induction reasons as [|reason reasons IH]; intros old; simpl.
  - by destruct (isAbortError old).
  - unfold genuine at 1.
    destruct (isAbortError reason) eqn:Hr, (isAbortError old) eqn:Ho; simpl;
      rewrite IH, ?Hr, ?Ho; done.
Qed.

Lemma recordRejection_foldl (reasons : list value) :
  foldl All.recordRejection None reasons = firstFailure reasons.
Proof.
  destruct reasons as [|reason reasons]; [done|].
  simpl. rewrite recordRejection_foldl_Some. unfold firstFailure. simpl.
  unfold genuine at 2.
  destruct (isAbortError reason); simpl; [|done].
  by destruct (find genuine reasons).
Qed.

Lemma firstFailure_is_Some (reasons : list value) :
  reasons ≠ [] → is_Some (firstFailure reasons).
Proof.
  intros Hne. unfold firstFailure.
  destruct (find genuine reasons); [by eexists|].
  destruct reasons; [done|by eexists].
Qed.

Lemma firstFailure_genuine (reasons : list value) (reason : value) :
  firstFailure reasons = Some reason →
  Exists (λ r, isAbortError r = false) reasons →
  isAbortError reason = false.
Proof.
  unfold firstFailure. intros Hf Hex.
  destruct (find genuine reasons) as [g|] eqn:Hfind.
  - inversion Hf; subst. apply find_some in Hfind as [_ Hg].
    unfold genuine in Hg. by destruct (isAbortError reason).
  - apply Exists_exists in Hex as (r & Hin & Hr).
    apply list_elem_of_In in Hin.
    pose proof (find_none _ _ Hfind r Hin) as Hn.
    unfold genuine in Hn. by rewrite Hr in Hn.
Qed.

(** ** all *)

Section AllFacts.
Context {T : Type}.
Implicit Types (st : All.State T) (ev : All.Event T) (evs : list (All.Event T)).

Lemma all_run_cons st ev evs : All.run st (ev :: evs) = All.run (All.step st ev) evs.
Proof. reflexivity. Qed.

Lemma all_run_app st evs evs' : All.run st (evs ++ evs') = All.run (All.run st evs) evs'.
Proof. apply foldl_app. Qed.

(** The variables of the closure after a trace, whatever the trace. *)
Lemma all_run_variables st evs :
  All.length (All.run st evs) = All.length st ∧
  All.settledCount (All.run st evs)
  = All.settledCount st + length (All.settlers evs) ∧
  All.rejection (All.run st evs)
  = foldl All.recordRejection (All.rejection st) (All.rejections evs) ∧
  All.results (All.run st evs) = foldl All.store (All.results st) (All.fulfilments evs).
Proof.
  revert st. induction evs as [|ev evs IH]; intros st.
  - simpl. by rewrite Nat.add_0_r.
  - rewrite all_run_cons.
    destruct (IH (All.step st ev)) as (Hl & Hc & Hr & Hres).
    rewrite Hl, Hc, Hr, Hres. clear IH Hl Hc Hr Hres.
    destruct ev as [i [v|reason]|]; cbn [All.step].
    + unfold All.onFulfilled, All.settled; cbn [All.settledCount All.length].
      destruct (Nat.eqb _ _); simpl; repeat split; first [done | lia].
    + unfold All.onRejected, All.settled; cbn [All.settledCount All.length].
      destruct (Nat.eqb _ _); simpl; repeat split; first [done | lia].
    + destruct (abort (All.signal st)) as [sig [|]]; simpl; done.
Qed.

Lemma all_step_settled st ev o :
  All.promise st = Some o → All.promise (All.step st ev) = Some o.
Proof.
  intros Hp. destruct ev as [i [v|reason]|]; cbn [All.step].
  - unfold All.onFulfilled, All.settled; cbn [All.settledCount All.length].
    destruct (Nat.eqb _ _); simpl; by rewrite Hp.
  - unfold All.onRejected, All.settled; cbn [All.settledCount All.length].
    destruct (Nat.eqb _ _); simpl; by rewrite Hp.
  - by destruct (abort (All.signal st)) as [sig [|]].
Qed.

Lemma all_run_settled st evs o :
  All.promise st = Some o → All.promise (All.run st evs) = Some o.
Proof.
  revert st. induction evs as [|ev evs IH]; intros st Hp; [done|].
  rewrite all_run_cons. apply IH. by apply all_step_settled.
Qed.

Lemma all_step_last st i r :
  All.promise st = None →
  S (All.settledCount st) = All.length st →
  All.promise (All.step st (All.Settles i r))
  = Some (All.verdict (All.step st (All.Settles i r))).
Proof.
  intros Hp Hc. apply Nat.eqb_eq in Hc.
  destruct r as [v|reason]; cbn [All.step].
  - unfold All.onFulfilled, All.settled; cbn [All.settledCount All.length].
    rewrite Hc. unfold All.verdict; simpl. by rewrite Hp.
  - unfold All.onRejected, All.settled; cbn [All.settledCount All.length].
    rewrite Hc. unfold All.verdict; simpl. by rewrite Hp.
Qed.

Lemma all_step_not_last st i r :
  S (All.settledCount st) ≠ All.length st →
  All.promise (All.step st (All.Settles i r)) = All.promise st.
Proof.
  intros Hc. apply Nat.eqb_neq in Hc.
  destruct r as [v|reason]; cbn [All.step].
  - unfold All.onFulfilled, All.settled; cbn [All.settledCount All.length].
    by rewrite Hc.
  - unfold All.onRejected, All.settled; cbn [All.settledCount All.length].
    by rewrite Hc.
Qed.

Lemma all_step_abort_promise st : All.promise (All.step st All.Abort) = All.promise st.
Proof. simpl. by destruct (abort (All.signal st)) as [sig [|]]. Qed.

Lemma all_no_settlers evs :
  length (All.settlers evs) = 0 → All.rejections evs = [] ∧ All.fulfilments evs = [].
Proof.
  induction evs as [|[i r|] evs IH]; simpl; [done| |done].
  intros H. lia.
Qed.

(** When the last input settles, the promise settles with the verdict. *)
Lemma all_run_settles st evs :
  All.promise st = None →
  All.settledCount st < All.length st →
  All.settledCount st + length (All.settlers evs) = All.length st →
  All.promise (All.run st evs) = Some (All.verdict (All.run st evs)).
Proof.
  revert st. induction evs as [|ev evs IH]; intros st Hp Hlt Hsum.
  - simpl in Hsum. lia.
  - rewrite all_run_cons.
    destruct (all_run_variables st [ev]) as (Hl & Hc & _ & _).
    change (All.run st [ev]) with (All.step st ev) in Hl, Hc.
    destruct ev as [i r|].
    + change (length (All.settlers [All.Settles i r])) with 1 in Hc.
      change (All.settlers (All.Settles i r :: evs)) with (i :: All.settlers evs) in Hsum.
      cbn [length] in Hsum.
      destruct (decide (S (All.settledCount st) = All.length st)) as [Hlast|Hmore].
      * pose proof (all_step_last st i r Hp Hlast) as Hs.
        assert (length (All.settlers evs) = 0) as Hnone by lia.
        destruct (all_no_settlers evs Hnone) as [Hr Hf].
        destruct (all_run_variables (All.step st (All.Settles i r)) evs)
          as (_ & _ & Hrej & Hres).
        rewrite Hr in Hrej. rewrite Hf in Hres. cbn [foldl] in Hrej, Hres.
        rewrite (all_run_settled _ evs _ Hs).
        unfold All.verdict. by rewrite Hrej, Hres.
      * apply IH.
        -- by rewrite all_step_not_last.
        -- lia.
        -- lia.
    + change (length (All.settlers [All.Abort (T := T)])) with 0 in Hc.
      change (All.settlers (All.Abort :: evs)) with (All.settlers evs) in Hsum.
      apply IH.
      * by rewrite all_step_abort_promise.
      * lia.
      * lia.
Qed.

End AllFacts.

Section AllClaims.
Context {T : Type}.
Implicit Types (evs : list (All.Event T)) (vs : list T) (order : list nat).

Lemma all_rejections_settlers evs :
  length (All.rejections evs) ≤ length (All.settlers evs).
Proof. induction evs as [|[i [v|reason]|] evs IH]; simpl; lia. Qed.

(** C3.  [all] is called on a signal that is not aborted with [n] inputs;
    every input settles and at least one of them fails.  [all] rejects, with
    the first failure that is not an [AbortError] if there is one and with
    the first failure otherwise; it never rejects with an [AbortError] when
    some input failed with another error.  Aborts of the outer signal may
    occur anywhere in the trace. *)
Theorem all_rejects_with_first_genuine_failure (n : nat) evs :
  All.settlers evs ≡ₚ seq 0 n →
  All.rejections evs ≠ [] →
  ∃ reason,
    firstFailure (All.rejections evs) = Some reason ∧
    All.promise (All.run (All.all pendingSignal n) evs) = Some (Rejected reason) ∧
    (Exists (λ r, isAbortError r = false) (All.rejections evs) →
     isAbortError reason = false).
Proof.
  intros Hperm Hrej.
  assert (length (All.settlers evs) = n) as Hlen
    by (by rewrite Hperm, length_seq).
  assert (n ≠ 0) as Hn.
  { pose proof (all_rejections_settlers evs).
    destruct (All.rejections evs); [done|]. simpl in *. lia. }
  destruct (firstFailure_is_Some _ Hrej) as [reason Hreason].
  exists reason. split; [done|]. split; [|by apply firstFailure_genuine].
  destruct n as [|m]; [done|].
  set (st0 := All.all pendingSignal (S m)).
  rewrite (all_run_settles st0 evs); [|done|simpl; lia|simpl; lia].
  destruct (all_run_variables st0 evs) as (_ & _ & Hr & _).
  unfold All.verdict. rewrite Hr. simpl.
  by rewrite recordRejection_foldl, Hreason.
Qed.

Lemma all_fulfilIn_cons vs (i : nat) order :
  All.fulfilIn vs (i :: order)
  = match vs !! i with
    | Some v => All.Settles i (Fulfilled v) :: All.fulfilIn vs order
    | None => All.fulfilIn vs order
    end.
Proof. unfold All.fulfilIn. simpl. by destruct (vs !! i). Qed.

Lemma all_fulfilIn_settlers vs order :
  Forall (λ i, i < length vs) order →
  All.settlers (All.fulfilIn vs order) = order.
Proof.
  induction 1 as [|i order Hi _ IH]; [done|].
  apply lookup_lt_is_Some_2 in Hi as [v Hv].
  rewrite all_fulfilIn_cons, Hv.
  change (i :: All.settlers (All.fulfilIn vs order) = i :: order).
  by rewrite IH.
Qed.

Lemma all_fulfilIn_rejections vs order : All.rejections (All.fulfilIn vs order) = [].
Proof.
  induction order as [|i order IH]; [done|].
  rewrite all_fulfilIn_cons. by destruct (vs !! i).
Qed.

(** The array after the assignments of a trace of fulfilments. *)
Lemma all_fulfilIn_results vs order (res : list (option T)) (i : nat) :
  length res = length vs →
  foldl All.store res (All.fulfilments (All.fulfilIn vs order)) !! i
  = if decide (i ∈ order) then Some <$> vs !! i else res !! i.
Proof.
  revert res. induction order as [|j order IH]; intros res Hlen.
  - case_decide as Hin; [by apply elem_of_nil in Hin|done].
  - rewrite all_fulfilIn_cons.
    destruct (vs !! j) as [w|] eqn:Hj.
    + assert (j < length res) as Hj' by (rewrite Hlen; by eapply lookup_lt_Some).
      change (foldl All.store (arraySet j w res)
                (All.fulfilments (All.fulfilIn vs order)) !! i
              = if decide (i ∈ j :: order) then Some <$> vs !! i else res !! i).
      rewrite (arraySet_lt j w res Hj').
      rewrite IH by (by rewrite length_insert).
      destruct (decide (i = j)) as [->|Hne].
      * rewrite (decide_True (P := j ∈ j :: order)) by (apply elem_of_cons; by left).
        case_decide; [done|].
        rewrite list_lookup_insert_eq, Hj; [done|].
        rewrite Hlen. by eapply lookup_lt_Some.
      * rewrite list_lookup_insert_ne by done.
        destruct (decide (i ∈ order)) as [H1|H1], (decide (i ∈ j :: order)) as [H2|H2];
          [done| | |done].
        -- exfalso. apply H2, elem_of_cons. by right.
        -- exfalso. by apply elem_of_cons in H2 as [?|?].
    + rewrite IH by done.
      destruct (decide (i = j)) as [->|Hne].
      * rewrite (decide_True (P := j ∈ j :: order)) by (apply elem_of_cons; by left).
        case_decide; [done|].
        rewrite Hj. simpl. apply lookup_ge_None_2.
        rewrite Hlen. by apply lookup_ge_None_1.
      * destruct (decide (i ∈ order)) as [H1|H1], (decide (i ∈ j :: order)) as [H2|H2];
          [done| | |done].
        -- exfalso. apply H2, elem_of_cons. by right.
        -- exfalso. by apply elem_of_cons in H2 as [?|?].
Qed.

(** C8.  [all] is called on a signal that is never aborted with a non-empty
    list of inputs that fulfil with [vs], in any order of completion.  [all]
    fulfils with the array whose element at each position is the value of the
    input at that position. *)
Theorem all_fulfils_in_input_order vs order :
  vs ≠ [] →
  order ≡ₚ seq 0 (length vs) →
  All.promise (All.run (All.all pendingSignal (length vs)) (All.fulfilIn vs order))
  = Some (Fulfilled (Some <$> vs)).
Proof.
  intros Hne Hperm.
  assert (∀ i, i ∈ order ↔ i < length vs) as Hmem.
  { intros i. rewrite Hperm, elem_of_seq. lia. }
  assert (Forall (λ i, i < length vs) order) as Hrange.
  { apply Forall_forall. intros i. apply Hmem. }
  destruct vs as [|v0 vs']; [done|].
  set (vs := v0 :: vs') in *.
  set (st0 := All.all pendingSignal (length vs)).
  rewrite (all_run_settles st0); [|done|simpl; lia|].
  2:{ rewrite all_fulfilIn_settlers by done. by rewrite Hperm, length_seq. }
  destruct (all_run_variables st0 (All.fulfilIn vs order)) as (_ & _ & Hr & Hres).
  unfold All.verdict.
  rewrite Hr, all_fulfilIn_rejections.
  change (All.rejection st0) with (@None value). cbn [foldl]. do 2 f_equal.
  rewrite Hres. apply list_eq. intros i.
  rewrite all_fulfilIn_results by (simpl; by rewrite length_replicate).
  rewrite list_lookup_fmap.
  destruct (decide (i ∈ order)) as [Hin|Hnin]; [done|].
  assert (length vs ≤ i) as Hge.
  { destruct (decide (i < length vs)) as [Hlt|]; [|lia]. by apply Hmem in Hlt. }
  rewrite (lookup_ge_None_2 vs i Hge). simpl.
  apply lookup_ge_None_2. simpl. rewrite length_replicate. exact Hge.
Qed.

End AllClaims.

(** C3, witness: the cancelled sibling settles before the input that failed
    with ["boom"]. *)
Lemma all_rejects_with_first_genuine_failure_witness :
  All.promise
    (All.run (All.all (T := Z) pendingSignal 2)
       [All.Settles 1 (Rejected AbortError); All.Settles 0 (Rejected (Str "boom"))])
  = Some (Rejected (Str "boom")).
Proof.
  destruct (all_rejects_with_first_genuine_failure (T := Z) 2
              [All.Settles 1 (Rejected AbortError); All.Settles 0 (Rejected (Str "boom"))])
    as (reason & Hfirst & Hpromise & _).
  - apply perm_swap.
  - discriminate.
  - injection Hfirst as <-. exact Hpromise.
Defined.

(** C8, witness: the second input fulfils before the first. *)
Lemma all_fulfils_in_input_order_witness :
  All.promise
    (All.run (All.all pendingSignal 2)
       [All.Settles 1 (Fulfilled (Num 42)); All.Settles 0 (Fulfilled (Str "x"))])
  = Some (Fulfilled [Some (Str "x"); Some (Num 42)]).
Proof.
  apply (all_fulfils_in_input_order [Str "x"; Num 42] [1; 0]).
  - discriminate.
  - apply perm_swap.
Defined.

(** ** race *)

Section RaceFacts.
Context {T : Type}.
Implicit Types (st : Race.State T) (ev : Race.Event T) (evs : list (Race.Event T)).
Implicit Types (r old : PromiseSettledResult T) (rs : list (PromiseSettledResult T)).

Lemma race_run_cons st ev evs : Race.run st (ev :: evs) = Race.run (Race.step st ev) evs.
Proof. reflexivity. Qed.

(** A recorded result that a later failure may still replace. *)
Lemma race_record_foldl_Some old rs :
  foldl Race.record (Some old) rs
  = Some (if match old with
             | Fulfilled _ => true
             | Rejected reason => isAbortError reason
             end
          then match find genuine (omap failureOf rs) with
               | Some reason => Rejected reason
               | None => old
               end
          else old).
Proof.
  revert old. induction rs as [|[v|reason] rs IH]; intros old.
  - simpl. by destruct old as [?|reason]; [|destruct (isAbortError reason)].
  - change (foldl Race.record (Some old) rs = Some
      (if match old with Fulfilled _ => true | Rejected reason => isAbortError reason end
       then match find genuine (omap failureOf rs) with
            | Some reason => Rejected reason
            | None => old
            end
       else old)).
    apply IH.
  - cbn [foldl Race.record Race.recordRejection].
    change (omap failureOf (Rejected reason :: rs))
      with (reason :: omap (failureOf (T := T)) rs).
    cbn [find]. unfold genuine at 1.
    destruct (isAbortError reason) eqn:Hr; cbn [negb andb].
    + apply IH.
    + destruct old as [v|oldReason]; [|destruct (isAbortError oldReason) eqn:Ho];
        rewrite IH; cbn; by rewrite ?Hr, ?Ho.
Qed.

Lemma race_record_foldl rs : foldl Race.record None rs = raceWinner rs.
Proof.
  destruct rs as [|[v|reason] rs]; [done| |].
  - cbn [foldl Race.record Race.recordFulfilment].
    rewrite race_record_foldl_Some. unfold raceWinner.
    change (omap failureOf (Fulfilled v :: rs)) with (omap (failureOf (T := T)) rs).
    by destruct (find genuine (omap failureOf rs)).
  - cbn [foldl Race.record Race.recordRejection].
    rewrite race_record_foldl_Some. unfold raceWinner.
    change (omap failureOf (Rejected reason :: rs))
      with (reason :: omap (failureOf (T := T)) rs).
    cbn [find head]. unfold genuine at 2.
    destruct (isAbortError reason); cbn [negb]; [|done].
    by destruct (find genuine (omap failureOf rs)).
Qed.

Lemma race_run_variables st evs :
  Race.length (Race.run st evs) = Race.length st ∧
  Race.settledCount (Race.run st evs)
  = Race.settledCount st + length (Race.settlers evs) ∧
  Race.result (Race.run st evs) = foldl Race.record (Race.result st) (Race.settlements evs).
Proof.
  revert st. induction evs as [|ev evs IH]; intros st.
  - simpl. by rewrite Nat.add_0_r.
  - rewrite race_run_cons.
    destruct (IH (Race.step st ev)) as (Hl & Hc & Hr).
    rewrite Hl, Hc, Hr. clear IH Hl Hc Hr.
    destruct ev as [i [v|reason]|]; cbn [Race.step].
    + unfold Race.onFulfilled, Race.settled; cbn [Race.settledCount Race.length].
      destruct (Nat.eqb _ _); simpl; repeat split; first [done | lia].
    + unfold Race.onRejected, Race.settled; cbn [Race.settledCount Race.length].
      destruct (Nat.eqb _ _); simpl; repeat split; first [done | lia].
    + destruct (abort (Race.signal st)) as [sig [|]]; simpl; done.
Qed.

Lemma race_step_settled st ev o :
  Race.promise st = Some o → Race.promise (Race.step st ev) = Some o.
Proof.
  intros Hp. destruct ev as [i [v|reason]|]; cbn [Race.step].
  - unfold Race.onFulfilled, Race.settled;
      cbn [Race.settledCount Race.length Race.result Race.promise].
    destruct (Nat.eqb _ _); simpl; [|done].
    rewrite Hp. by destruct (Race.recordFulfilment _ _).
  - unfold Race.onRejected, Race.settled;
      cbn [Race.settledCount Race.length Race.result Race.promise].
    destruct (Nat.eqb _ _); simpl; [|done].
    rewrite Hp. by destruct (Race.recordRejection _ _).
  - by destruct (abort (Race.signal st)) as [sig [|]].
Qed.

Lemma race_run_settled st evs o :
  Race.promise st = Some o → Race.promise (Race.run st evs) = Some o.
Proof.
  revert st. induction evs as [|ev evs IH]; intros st Hp; [done|].
  rewrite race_run_cons. apply IH. by apply race_step_settled.
Qed.

Lemma race_step_last st i r :
  Race.promise st = None →
  S (Race.settledCount st) = Race.length st →
  Race.promise (Race.step st (Race.Settles i r))
  = Race.result (Race.step st (Race.Settles i r)).
Proof.
  intros Hp Hc. apply Nat.eqb_eq in Hc.
  destruct r as [v|reason]; cbn [Race.step].
  - unfold Race.onFulfilled, Race.settled;
      cbn [Race.settledCount Race.length Race.result Race.promise].
    rewrite Hc, Hp. simpl. by destruct (Race.result st).
  - unfold Race.onRejected, Race.settled;
      cbn [Race.settledCount Race.length Race.result Race.promise].
    rewrite Hc, Hp. simpl. by destruct (Race.recordRejection _ _).
Qed.

Lemma race_step_not_last st i r :
  S (Race.settledCount st) ≠ Race.length st →
  Race.promise (Race.step st (Race.Settles i r)) = Race.promise st.
Proof.
  intros Hc. apply Nat.eqb_neq in Hc.
  destruct r as [v|reason]; cbn [Race.step].
  - unfold Race.onFulfilled, Race.settled; cbn [Race.settledCount Race.length].
    by rewrite Hc.
  - unfold Race.onRejected, Race.settled; cbn [Race.settledCount Race.length].
    by rewrite Hc.
Qed.

Lemma race_step_abort_promise st : Race.promise (Race.step st Race.Abort) = Race.promise st.
Proof. simpl. by destruct (abort (Race.signal st)) as [sig [|]]. Qed.

Lemma race_no_settlers evs : length (Race.settlers evs) = 0 → Race.settlements evs = [].
Proof.
  induction evs as [|[i r|] evs IH]; simpl; [done| |done].
  intros H. lia.
Qed.

(** While inputs are outstanding the promise is pending; when the last one
    settles it takes the recorded result. *)
Lemma race_run_promise st evs :
  Race.promise st = None →
  Race.settledCount st < Race.length st →
  Race.settledCount st + length (Race.settlers evs) ≤ Race.length st →
  Race.promise (Race.run st evs)
  = if decide (Race.settledCount st + length (Race.settlers evs) = Race.length st)
    then Race.result (Race.run st evs)
    else None.
Proof.
  revert st. induction evs as [|ev evs IH]; intros st Hp Hlt Hsum.
  - simpl in *. rewrite decide_False by lia. exact Hp.
  - rewrite race_run_cons.
    destruct (race_run_variables st [ev]) as (Hl & Hc & _).
    change (Race.run st [ev]) with (Race.step st ev) in Hl, Hc.
    destruct ev as [i r|].
    + change (length (Race.settlers [Race.Settles i r])) with 1 in Hc.
      change (Race.settlers (Race.Settles i r :: evs)) with (i :: Race.settlers evs) in *.
      cbn [length] in *.
      destruct (decide (S (Race.settledCount st) = Race.length st)) as [Hlast|Hmore].
      * pose proof (race_step_last st i r Hp Hlast) as Hs.
        assert (length (Race.settlers evs) = 0) as Hnone by lia.
        rewrite decide_True by lia.
        destruct (race_run_variables (Race.step st (Race.Settles i r)) evs)
          as (_ & _ & Hres).
        rewrite (race_no_settlers evs Hnone) in Hres. cbn [foldl] in Hres.
        rewrite Hres.
        destruct (Race.result (Race.step st (Race.Settles i r))) as [o|] eqn:Ho.
        -- by apply race_run_settled.
        -- exfalso. revert Ho. clear.
           destruct r as [v|reason]; cbn [Race.step];
             unfold Race.onFulfilled, Race.onRejected, Race.settled;
             cbn [Race.settledCount Race.length Race.result];
             destruct (Nat.eqb _ _); cbn [Race.result];
             unfold Race.recordFulfilment, Race.recordRejection;
             repeat case_match; done.
      * rewrite IH; [|by rewrite race_step_not_last|lia|lia].
        rewrite Hc. repeat case_decide; first [done | lia].
    + change (length (Race.settlers [Race.Abort (T := T)])) with 0 in Hc.
      change (Race.settlers (Race.Abort :: evs)) with (Race.settlers evs) in *.
      rewrite IH; [|by rewrite race_step_abort_promise|lia|lia].
      rewrite Hc. repeat case_decide; first [done | lia].
Qed.

End RaceFacts.

Section RaceClaims.
Context {T : Type}.
Implicit Types (st : Race.State T) (evs : list (Race.Event T)).
Implicit Types (rs : list (PromiseSettledResult T)).

Lemma race_run_aborts_promise st evs :
  length (Race.settlers evs) = 0 → Race.promise (Race.run st evs) = Race.promise st.
Proof.
  revert st. induction evs as [|[i r|] evs IH]; intros st Hnone; [done| |].
  - simpl in Hnone. lia.
  - rewrite race_run_cons, IH by done. apply race_step_abort_promise.
Qed.

Lemma raceWinner_no_genuine rs :
  Forall (λ r, ∀ reason, r = Rejected reason → isAbortError reason = true) rs →
  find genuine (omap failureOf rs) = None.
Proof.
  induction 1 as [|[v|reason] rs Hr _ IH]; [done|exact IH|].
  change (omap failureOf (Rejected reason :: rs))
    with (reason :: omap (failureOf (T := T)) rs).
  cbn [find]. unfold genuine at 1. by rewrite (Hr reason eq_refl).
Qed.

(** C1 (as amended).  [race] is called on a signal that is not aborted with
    [n] inputs, and every input settles.  The promise settles with the first
    failure that is not an [AbortError] if there is one, and otherwise with
    the first settlement, be it a fulfilment or an [AbortError].  In
    particular, when the first input to settle fulfils and no input fails
    with an error other than [AbortError], [race] fulfils with that value. *)
Theorem race_settles_with_winner (n : nat) evs :
  Race.settlers evs ≡ₚ seq 0 n →
  Race.promise (Race.run (Race.race pendingSignal n) evs)
  = raceWinner (Race.settlements evs) ∧
  ∀ v rest,
    Race.settlements evs = Fulfilled v :: rest →
    Forall (λ r, ∀ reason, r = Rejected reason → isAbortError reason = true) rest →
    Race.promise (Race.run (Race.race pendingSignal n) evs) = Some (Fulfilled v).
Proof.
  intros Hperm.
  assert (length (Race.settlers evs) = n) as Hlen
    by (by rewrite Hperm, length_seq).
  assert (Race.promise (Race.run (Race.race pendingSignal n) evs)
          = raceWinner (Race.settlements evs)) as Hwin.
  { destruct n as [|m].
    - rewrite race_run_aborts_promise by done.
      by rewrite (race_no_settlers evs Hlen).
    - set (st0 := Race.race pendingSignal (S m)).
      rewrite (race_run_promise st0 evs); [|done|simpl; lia|simpl; lia].
      rewrite decide_True by (simpl; lia).
      destruct (race_run_variables st0 evs) as (_ & _ & Hr).
      rewrite Hr. apply race_record_foldl. }
  split; [exact Hwin|].
  intros v rest Hs Hrest. rewrite Hwin, Hs. unfold raceWinner.
  change (omap failureOf (Fulfilled v :: rest)) with (omap (failureOf (T := T)) rest).
  by rewrite raceWinner_no_genuine.
Qed.

End RaceClaims.

(** C1, witness: the input that fulfils with ["test"] settles first, its
    sibling then rejects with [AbortError]. *)
Lemma race_settles_with_winner_witness :
  Race.promise
    (Race.run (Race.race pendingSignal 2)
       [Race.Settles 1 (Fulfilled (Str "test")); Race.Settles 0 (Rejected AbortError)])
  = Some (Fulfilled (Str "test")).
Proof.
  refine (proj1 (race_settles_with_winner 2
    [Race.Settles 1 (Fulfilled (Str "test")); Race.Settles 0 (Rejected AbortError)] _)).
  apply perm_swap.
Defined.

(** C1, counterexample to the claim as stated.  An input fulfils with
    ["test"] and its sibling then fails with ["boom"]: [race] rejects with
    ["boom"], where the stated rule selects the fulfilment.  The outer signal
    is aborted after the call, an input rejects with [AbortError] and its
    sibling then fulfils with ["test"]: [race] rejects with the
    [AbortError]. *)
Lemma race_fulfilment_does_not_outrank_failures :
  let late_failure :=
    [Race.Settles 0 (Fulfilled (Str "test")); Race.Settles 1 (Rejected (Str "boom"))] in
  let early_abort :=
    [Race.Abort; Race.Settles 0 (Rejected AbortError);
     Race.Settles 1 (Fulfilled (Str "test"))] in
  (Race.promise (Race.run (Race.race pendingSignal 2) late_failure)
   = Some (Rejected (Str "boom")) ∧
   raceWinnerAsSpecified (Race.settlements late_failure)
   = Some (Fulfilled (Str "test"))) ∧
  (Race.promise (Race.run (Race.race pendingSignal 2) early_abort)
   = Some (Rejected AbortError) ∧
   raceWinnerAsSpecified (Race.settlements early_abort)
   = Some (Fulfilled (Str "test"))).
Proof. by vm_compute. Qed.

(** ** spawn *)

Section SpawnFacts.
Implicit Types (st : Spawn.State) (ev : Spawn.Event) (evs : list Spawn.Event).

Lemma spawn_run_cons st ev evs :
  Spawn.run st (ev :: evs) = Spawn.run (Spawn.step st ev) evs.
Proof. reflexivity. Qed.

Lemma spawn_run_app st evs evs' :
  Spawn.run st (evs ++ evs') = Spawn.run (Spawn.run st evs) evs'.
Proof. apply foldl_app. Qed.

Lemma spawn_phase_view st st' :
  Spawn.view st' = Spawn.view st → Spawn.phase st → Spawn.phase st'.
Proof.
  unfold Spawn.view, Spawn.phase. intros Hv.
  injection Hv as -> -> -> -> -> -> -> _. done.
Qed.

(** [spawnAbortController.abort()] only touches the spawn signal and the
    signals of the tasks. *)
Lemma spawn_abortSpawn_eq st :
  ∃ sig ats,
    aborted sig = true ∧
    Spawn.abortSpawn st = Spawn.setAbortedTasks ats (Spawn.setSpawnSignal sig st).
Proof.
  unfold Spawn.abortSpawn, abort.
  destruct (aborted (Spawn.spawnSignal st)) eqn:Ha.
  - by exists (Spawn.spawnSignal st), (Spawn.abortedTasks st).
  - destruct (listening (Spawn.spawnSignal st)) eqn:Hl.
    + eexists (mkSignal true _ _ _), (Spawn.abortedTasks st ∪ Spawn.tasks st).
      split; reflexivity.
    + eexists (mkSignal true _ _ _), (Spawn.abortedTasks st).
      split; reflexivity.
Qed.

Lemma spawn_abortSpawn_view st : Spawn.view (Spawn.abortSpawn st) = Spawn.view st.
Proof. by destruct (spawn_abortSpawn_eq st) as (sig & ats & _ & ->). Qed.

Lemma spawn_onRootSettled_view r st :
  Spawn.view (Spawn.onRootSettled r st) = Spawn.view st.
Proof.
  destruct (spawn_abortSpawn_eq st) as (sig & ats & _ & Heq).
  destruct r as [v|error]; simpl; rewrite Heq; [done|].
  by destruct (_ || _).
Qed.

Lemma spawn_onTaskFailure_view r st :
  Spawn.view (Spawn.onTaskFailure r st) = Spawn.view st.
Proof.
  destruct r as [v|error]; simpl; [done|].
  unfold catchAbortError. destruct (isAbortError error); [done|].
  by rewrite spawn_abortSpawn_view.
Qed.

Lemma spawn_phase_onFinally st r :
  Spawn.promise st = Some r →
  addCalls (Spawn.signal st) = 1 → removeCalls (Spawn.signal st) = 0 →
  Spawn.finalPromise st = None →
  Spawn.phase (Spawn.onFinally st).
Proof.
  intros Hp Ha Hr Hf. unfold Spawn.phase, Spawn.onFinally; simpl.
  rewrite Hp, Ha, Hr, Hf. split; [done|]. split; [done|].
  destruct (reverse (Spawn.deferredFunctions st)) as [|fn queue] eqn:Hq.
  - repeat split; eauto; done.
  - repeat split; try done;
      match goal with H : Spawn.deferredFunctions st = [] |- _ => by rewrite H in Hq end.
Qed.

Lemma spawn_phase_settlePromise st r :
  Spawn.phase st → Spawn.phase (Spawn.settlePromise r st).
Proof.
  intros Hph. unfold Spawn.settlePromise.
  destruct (Spawn.promise st) as [o|] eqn:Hp; [done|].
  destruct Hph as (Ha & Hph). rewrite Hp in Hph. destruct Hph as (Hr & Hf & _).
  by eapply spawn_phase_onFinally.
Qed.

Lemma spawn_phase_onTaskFinally id st :
  Spawn.phase st → Spawn.phase (Spawn.onTaskFinally id st).
Proof.
  intros Hph. unfold Spawn.onTaskFinally.
  set (st1 := Spawn.setTasks _ st).
  assert (Spawn.phase st1) as Hph1 by (by apply (spawn_phase_view st)).
  destruct (Nat.eqb _ _); [|done].
  destruct (Spawn.failure st1), (Spawn.result st1);
    by first [apply spawn_phase_settlePromise | idtac].
Qed.

Lemma spawn_phase_onDeferredSettled r st :
  Spawn.phase st → Spawn.phase (Spawn.onDeferredSettled r st).
Proof.
  intros Hph. unfold Spawn.onDeferredSettled.
  destruct (Spawn.deferQueue st) as [|fn rest] eqn:Hq; [done|].
  destruct Hph as (Ha & Hph).
  unfold Spawn.phase; simpl. split; [done|].
  destruct (Spawn.promise st) as [o|] eqn:Hp.
  2:{ destruct Hph as (_ & _ & Hnil & _). by rewrite Hq in Hnil. }
  destruct Hph as (Hr & Hpend & Hdone & Hnone).
  assert (Spawn.deferredFunctions st ≠ []) as Hfns.
  { intros Hnil. destruct (Hnone Hnil) as [Hnil' _]. by rewrite Hq in Hnil'. }
  split; [done|].
  destruct rest as [|fn' rest].
  - split; [done|]. split; [|done].
    intros _. destruct r, (Spawn.deferFailure st); by eexists.
  - split; [|split; [done|done]].
    intros _. apply Hpend. by rewrite Hq.
Qed.

Lemma spawn_phase_step st ev : Spawn.phase st → Spawn.phase (Spawn.step st ev).
Proof.
  intros Hph. destruct ev as [|fn|t| |id r|r]; cbn [Spawn.step].
  - unfold Spawn.fork. destruct (aborted (Spawn.spawnSignal st)); [done|].
    by apply (spawn_phase_view st).
  - destruct Hph as (Ha & Hph). split; [done|]. simpl.
    destruct (Spawn.promise st); [|done].
    destruct Hph as (Hr & Hpend & Hdone & _).
    split; [done|]. split; [done|]. split; [done|].
    intros Hnil. by destruct (Spawn.deferredFunctions st).
  - destruct t; [done|]. by apply (spawn_phase_view st).
  - unfold abort. destruct (aborted (Spawn.signal st)); [by apply (spawn_phase_view st)|].
    destruct (listening (Spawn.signal st)).
    + apply (spawn_phase_view st); [|done]. by rewrite spawn_abortSpawn_view.
    + by apply (spawn_phase_view st).
  - destruct (bool_decide _); [|done].
    unfold Spawn.onTaskSettled.
    apply spawn_phase_onTaskFinally.
    apply (spawn_phase_view st); [|done].
    rewrite spawn_onTaskFailure_view.
    destruct (Nat.eqb id Spawn.root); [|done].
    apply spawn_onRootSettled_view.
  - by apply spawn_phase_onDeferredSettled.
Qed.

Lemma spawn_phase_run evs : Spawn.phase (Spawn.run (Spawn.spawn pendingSignal) evs).
Proof.
  induction evs as [|ev evs IH] using rev_ind.
  - by vm_compute.
  - rewrite spawn_run_app. by apply spawn_phase_step.
Qed.

(** *** The settlement history *)

Lemma find_snoc {A} (f : A → bool) (l : list A) (x : A) :
  find f (l ++ [x])
  = match find f l with
    | Some y => Some y
    | None => if f x then Some x else None
    end.
Proof.
  induction l as [|y l IH]; simpl; [done|].
  by destruct (f y).
Qed.

Lemma rootSettlement_snoc h id r :
  rootSettlement (h ++ [(id, r)])
  = match rootSettlement h with
    | Some x => Some x
    | None => if Nat.eqb id Spawn.root then Some r else None
    end.
Proof.
  unfold rootSettlement. rewrite find_snoc. simpl.
  destruct (find _ h); [done|]. by destruct (Nat.eqb id Spawn.root).
Qed.

Lemma lastGenuine_snoc h id r :
  lastGenuine (taskFailures (h ++ [(id, r)]))
  = match r with
    | Fulfilled _ => lastGenuine (taskFailures h)
    | Rejected error =>
        if isAbortError error then lastGenuine (taskFailures h) else Some error
    end.
Proof.
  unfold lastGenuine, taskFailures. rewrite omap_app.
  destruct r as [v|error]; simpl.
  - by rewrite app_nil_r.
  - rewrite reverse_snoc. simpl. unfold genuine at 1.
    by destruct (isAbortError error).
Qed.

(** The closure variables after the handlers of one settlement, before the
    [finally] callback runs. *)
Lemma spawn_handlers_variables id r st :
  let st' := Spawn.onTaskFailure r
               (if Nat.eqb id Spawn.root then Spawn.onRootSettled r st else st) in
  Spawn.tasks st' = Spawn.tasks st ∧
  Spawn.forked st' = Spawn.forked st ∧
  Spawn.promise st' = Spawn.promise st ∧
  Spawn.result st'
  = (if Nat.eqb id Spawn.root
     then match r with Fulfilled v => Some v | Rejected _ => Spawn.result st end
     else Spawn.result st) ∧
  Spawn.failure st'
  = match r with
    | Fulfilled _ => Spawn.failure st
    | Rejected error =>
        if isAbortError error
        then if Nat.eqb id Spawn.root
             then match Spawn.failure st with
                  | Some old => Some old
                  | None => Some error
                  end
             else Spawn.failure st
        else Some error
    end ∧
  (aborted (Spawn.spawnSignal st) = true ∨ Nat.eqb id Spawn.root = true →
   aborted (Spawn.spawnSignal st') = true).
Proof.
  destruct (spawn_abortSpawn_eq st) as (sig & ats & Hsig & Heq).
  destruct (Nat.eqb id Spawn.root) eqn:Hroot, r as [v|error]; cbn zeta.
  - cbn [Spawn.onRootSettled Spawn.onTaskFailure]. rewrite Heq. simpl. by split_and!.
  - cbn [Spawn.onRootSettled Spawn.onTaskFailure]. rewrite Heq.
    unfold catchAbortError.
    destruct (isAbortError error) eqn:He; cbn [negb orb].
    + destruct (Spawn.failure st) as [old|] eqn:Hf; simpl; rewrite Hf; simpl;
        by split_and!.
    + set (st1 := Spawn.setFailure error (Spawn.setFailure error _)).
      destruct (spawn_abortSpawn_eq st1) as (sig1 & ats1 & Hsig1 & ->).
      simpl. by split_and!.
  - cbn [Spawn.onTaskFailure]. split_and!; try done. by intros [?|?].
  - cbn [Spawn.onTaskFailure]. unfold catchAbortError.
    destruct (isAbortError error) eqn:He.
    + split_and!; try done. by intros [?|?].
    + destruct (spawn_abortSpawn_eq (Spawn.setFailure error st))
        as (sig1 & ats1 & Hsig1 & ->).
      simpl. by split_and!.
Qed.

Lemma spawn_onTaskFinally_variables id st :
  Spawn.promise st = None →
  let st' := Spawn.onTaskFinally id st in
  Spawn.tasks st' = Spawn.tasks st ∖ {[id]} ∧
  Spawn.forked st' = Spawn.forked st ∧
  Spawn.result st' = Spawn.result st ∧
  Spawn.failure st' = Spawn.failure st ∧
  aborted (Spawn.spawnSignal st') = aborted (Spawn.spawnSignal st) ∧
  Spawn.promise st'
  = if decide (Spawn.tasks st ∖ {[id]} = ∅)
    then match Spawn.failure st, Spawn.result st with
         | Some error, _ => Some (Rejected error)
         | None, Some v => Some (Fulfilled v)
         | None, None => None
         end
    else None.
Proof.
  intros Hp. unfold Spawn.onTaskFinally. cbn zeta.
  cbn [Spawn.tasks Spawn.setTasks Spawn.failure Spawn.result].
  destruct (Nat.eqb (size (Spawn.tasks st ∖ {[id]})) 0) eqn:Hsize.
  - apply Nat.eqb_eq, size_empty_iff, leibniz_equiv in Hsize.
    rewrite decide_True by done.
    destruct (Spawn.failure st) as [error|] eqn:Hf;
      [|destruct (Spawn.result st) as [v|] eqn:Hr];
      unfold Spawn.settlePromise; simpl; rewrite ?Hp; simpl; by rewrite ?Hf, ?Hr.
  - apply Nat.eqb_neq in Hsize.
    rewrite decide_False; [done|].
    intros Hempty. apply Hsize. by rewrite Hempty.
Qed.

Lemma spawn_tracks_settles st h id r :
  spawnTracks st h →
  id ∈ Spawn.tasks st →
  spawnTracks (Spawn.onTaskSettled id r st) (h ++ [(id, r)]).
Proof.
  intros (Hforked & Hroot & Hres & Hfail & Habort & Hprom) Hin.
  assert (Spawn.promise st = None) as Hnone.
  { rewrite Hprom. apply decide_False. intros Hempty. by rewrite Hempty in Hin. }
  unfold Spawn.onTaskSettled.
  destruct (spawn_handlers_variables id r st) as (Ht & Hfk & Hpr & Hr & Hfl & Ha).
  set (st1 := Spawn.onTaskFailure r _) in *. cbn zeta in *.
  destruct (spawn_onTaskFinally_variables id st1) as (Ht' & Hfk' & Hr' & Hfl' & Ha' & Hp').
  { by rewrite Hpr. }
  set (st2 := Spawn.onTaskFinally id st1) in *. cbn zeta in *.
  assert (rootSettlement (h ++ [(id, r)])
          = if Nat.eqb id Spawn.root then Some r else rootSettlement h) as Hrs.
  { rewrite rootSettlement_snoc.
    destruct (Nat.eqb id Spawn.root) eqn:Hid.
    - apply Nat.eqb_eq in Hid. subst id. apply Hroot in Hin. by rewrite Hin.
    - by destruct (rootSettlement h). }
  assert (recordedFailure (h ++ [(id, r)]) = Spawn.failure st2) as Hrf.
  { rewrite Hfl', Hfl. unfold recordedFailure. rewrite lastGenuine_snoc, Hrs.
    rewrite Hfail. unfold recordedFailure.
    destruct (Nat.eqb id Spawn.root) eqn:Hid.
    - apply Nat.eqb_eq in Hid. subst id. apply Hroot in Hin. rewrite Hin.
      destruct r as [v|error]; [by destruct (lastGenuine (taskFailures h))|].
      destruct (isAbortError error); by destruct (lastGenuine (taskFailures h)).
    - destruct r as [v|error]; [done|].
      by destruct (isAbortError error). }
  assert (Spawn.result st2
          = match rootSettlement (h ++ [(id, r)]) with
            | Some (Fulfilled v) => Some v
            | _ => None
            end) as Hrr.
  { rewrite Hr', Hr, Hrs, Hres.
    destruct (Nat.eqb id Spawn.root) eqn:Hid; [|done].
    apply Nat.eqb_eq in Hid. subst id. apply Hroot in Hin. rewrite Hin.
    by destruct r. }
  assert (Spawn.root ∈ Spawn.tasks st2 ↔ rootSettlement (h ++ [(id, r)]) = None)
    as Hroot'.
  { rewrite Ht', Ht, Hrs, elem_of_difference, elem_of_singleton.
    destruct (Nat.eqb id Spawn.root) eqn:Hid.
    - apply Nat.eqb_eq in Hid. split; [intros [_ Hne]; by symmetry in Hid|done].
    - apply Nat.eqb_neq in Hid. rewrite <- Hroot.
      split; [by intros [? _]|]. intros Hr0. split; [done|]. by intros <-. }
  split_and!.
  - by rewrite Hfk', Hfk.
  - exact Hroot'.
  - exact Hrr.
  - by rewrite Hrf.
  - rewrite Ha'. intros Hnot. apply Ha.
    destruct (Nat.eqb id Spawn.root) eqn:Hid; [by right|left].
    apply Habort. intros Hr0. apply Hnot.
    rewrite Ht', Ht. apply Nat.eqb_neq in Hid.
    apply elem_of_difference. split; [done|].
    rewrite elem_of_singleton. by intros <-.
  - rewrite Hp', Ht', Ht.
    destruct (decide (Spawn.tasks st ∖ {[id]} = ∅)) as [Hempty|]; [|done].
    assert (rootSettlement (h ++ [(id, r)]) ≠ None) as Hsettled.
    { intros Hn. apply Hroot' in Hn. rewrite Ht', Ht, Hempty in Hn.
      by apply elem_of_empty in Hn. }
    rewrite <- Hfl', <- Hrf, <- Hr', Hrr.
    unfold spawnOutcome, recordedFailure.
    destruct (lastGenuine _); [done|].
    by destruct (rootSettlement (h ++ [(id, r)])) as [[v|error]|].
Qed.

Lemma spawn_tracks_frame st st' h :
  Spawn.tasks st' = Spawn.tasks st →
  Spawn.forked st' = Spawn.forked st →
  Spawn.result st' = Spawn.result st →
  Spawn.failure st' = Spawn.failure st →
  Spawn.promise st' = Spawn.promise st →
  (aborted (Spawn.spawnSignal st) = true → aborted (Spawn.spawnSignal st') = true) →
  spawnTracks st h → spawnTracks st' h.
Proof.
  unfold spawnTracks. intros -> -> -> -> -> Ha (? & ? & ? & ? & Hab & ?).
  split_and!; try done. intros Hr. by apply Ha, Hab.
Qed.

Lemma spawn_tracks_fork st h : spawnTracks st h → spawnTracks (Spawn.fork st).1 h.
Proof.
  intros Htr. unfold Spawn.fork.
  destruct (aborted (Spawn.spawnSignal st)) eqn:Ha; [done|].
  destruct Htr as (Hforked & Hroot & Hres & Hfail & Habort & Hprom).
  assert (Spawn.root ∈ Spawn.tasks st) as Hin.
  { destruct (decide (Spawn.root ∈ Spawn.tasks st)) as [|Hnot]; [done|].
    apply Habort in Hnot. congruence. }
  unfold spawnTracks; simpl. split_and!; try done.
  - lia.
  - rewrite <- Hroot, elem_of_union, elem_of_singleton.
    split; [intros [Heq|]; [unfold Spawn.root in Heq; lia|done]|by right].
  - intros Hnot. exfalso. apply Hnot, elem_of_union. by right.
  - rewrite Hprom.
    rewrite (decide_False (P := Spawn.tasks st = ∅)).
    + rewrite decide_False; [done|]. intros Hempty.
      assert (Spawn.root ∈ ({[Spawn.forked st]} ∪ Spawn.tasks st : gset nat)) as Hin'
        by (apply elem_of_union; by right).
      rewrite Hempty in Hin'. by apply elem_of_empty in Hin'.
    + intros Hempty. rewrite Hempty in Hin. by apply elem_of_empty in Hin.
Qed.


Lemma spawn_tracks_abortSpawn st h :
  spawnTracks st h → spawnTracks (Spawn.abortSpawn st) h.
Proof.
  apply spawn_tracks_frame;
    by destruct (spawn_abortSpawn_eq st) as (sig & ats & Hsig & ->).
Qed.

(** An event other than the settlement of a task leaves the history as it
    is; the settlement of a live task extends it. *)
Lemma spawn_tracks_step st h ev :
  spawnTracks st h →
  Spawn.liveSettles st [ev] = true →
  spawnTracks (Spawn.step st ev) (h ++ Spawn.settlements [ev]).
Proof.
  intros Htr Hlive.
  destruct ev as [|fn|t| |id r|r]; cbn [Spawn.step Spawn.settlements omap];
    rewrite ?app_nil_r.
  - by apply spawn_tracks_fork.
  - by apply (spawn_tracks_frame st).
  - destruct t; [done|]. by apply (spawn_tracks_frame st).
  - unfold abort. destruct (aborted (Spawn.signal st)); [by apply (spawn_tracks_frame st)|].
    destruct (listening (Spawn.signal st)).
    + apply spawn_tracks_abortSpawn. by apply (spawn_tracks_frame st).
    + by apply (spawn_tracks_frame st).
  - simpl in Hlive. rewrite andb_true_r in Hlive. rewrite Hlive.
    apply bool_decide_eq_true in Hlive.
    by apply spawn_tracks_settles.
  - apply (spawn_tracks_frame st); try done.
    all: unfold Spawn.onDeferredSettled; by destruct (Spawn.deferQueue st).
Qed.

Lemma spawn_liveSettles_cons st ev evs :
  Spawn.liveSettles st (ev :: evs)
  = Spawn.liveSettles st [ev] && Spawn.liveSettles (Spawn.step st ev) evs.
Proof. simpl. by rewrite andb_true_r. Qed.

Lemma spawn_tracks_run st h evs :
  spawnTracks st h →
  Spawn.liveSettles st evs = true →
  spawnTracks (Spawn.run st evs) (h ++ Spawn.settlements evs).
Proof.
  revert st h. induction evs as [|ev evs IH]; intros st h Htr Hlive.
  - by rewrite app_nil_r.
  - rewrite spawn_liveSettles_cons in Hlive. apply andb_true_iff in Hlive as [Hev Hevs].
    rewrite spawn_run_cons.
    replace (Spawn.settlements (ev :: evs))
      with (Spawn.settlements [ev] ++ Spawn.settlements evs)
      by (by destruct ev).
    rewrite app_assoc. apply IH; [|done]. by apply spawn_tracks_step.
Qed.

Lemma spawn_tracks_init : spawnTracks (Spawn.spawn pendingSignal) [].
Proof.
  unfold spawnTracks. cbn. by split_and!.
Qed.

End SpawnFacts.

(** C2 (as amended).  [spawn] is called on a signal that is not aborted and
    every task settles.  The inner promise, which is what [spawn] returns
    when no function was deferred, settles with the last failure of a task
    that is not an [AbortError] if there is one, and otherwise as the spawned
    function itself settled: with its value, or with the [AbortError] it
    failed with.  An [AbortError] is therefore the outcome only when the
    spawned function itself failed with it. *)
Theorem spawn_settles_with_outcome (evs : list Spawn.Event) :
  let st := Spawn.run (Spawn.spawn pendingSignal) evs in
  let h := Spawn.settlements evs in
  Spawn.liveSettles (Spawn.spawn pendingSignal) evs = true →
  Spawn.tasks st = ∅ →
  Spawn.promise st = spawnOutcome h ∧
  is_Some (spawnOutcome h) ∧
  (Spawn.deferredFunctions st = [] → Spawn.finalPromise st = spawnOutcome h) ∧
  (∀ error, spawnOutcome h = Some (Rejected error) → isAbortError error = true →
            rootSettlement h = Some (Rejected error)).
Proof.
  intros st h Hlive Hdone.
  pose proof (spawn_tracks_run _ [] evs spawn_tracks_init Hlive) as Htr.
  fold st in Htr. change ([] ++ Spawn.settlements evs) with h in Htr.
  destruct Htr as (_ & Hroot & _ & _ & _ & Hprom).
  rewrite decide_True in Hprom by done.
  assert (is_Some (spawnOutcome h)) as Hsome.
  { assert (rootSettlement h ≠ None) as Hsettled.
    { intros Hr. apply Hroot in Hr. rewrite Hdone in Hr. by apply elem_of_empty in Hr. }
    unfold spawnOutcome. destruct (lastGenuine (taskFailures h)); [by eexists|].
    by destruct (rootSettlement h) as [r|]; [eexists|]. }
  split_and!; try done.
  - intros Hnil. pose proof (spawn_phase_run evs) as (_ & Hph). fold st in Hph.
    rewrite Hprom in Hph. destruct Hsome as [r Hr]. rewrite Hr in Hph |- *.
    destruct Hph as (_ & _ & _ & Hfinal). by destruct (Hfinal Hnil).
  - unfold spawnOutcome. intros error Hout Habort.
    destruct (lastGenuine (taskFailures h)) as [g|] eqn:Hg; [|done].
    injection Hout as ->. unfold lastGenuine in Hg.
    apply find_some in Hg as [_ Hg]. unfold genuine in Hg. by rewrite Habort in Hg.
Qed.

(** C2, witness: a fork is cancelled because the spawned function finished. *)
Lemma spawn_settles_with_outcome_witness :
  Spawn.finalPromise
    (Spawn.run (Spawn.spawn pendingSignal)
       [Spawn.Fork; Spawn.TaskSettles 0 (Fulfilled (Str "done"));
        Spawn.TaskSettles 1 (Rejected AbortError)])
  = Some (Fulfilled (Str "done")).
Proof.
  refine (proj1 (proj2 (proj2 (spawn_settles_with_outcome
    [Spawn.Fork; Spawn.TaskSettles 0 (Fulfilled (Str "done"));
     Spawn.TaskSettles 1 (Rejected AbortError)] _ _))) _).
  - by vm_compute.
  - by vm_compute.
  - reflexivity.
Defined.

(** C2, counterexample to the claim as stated: the outer signal is aborted
    after the call and the spawned function, the only task, rejects with the
    [AbortError]; [spawn] rejects with that [AbortError]. *)
Lemma spawn_surfaces_root_AbortError :
  let evs := [Spawn.Abort; Spawn.TaskSettles Spawn.root (Rejected AbortError)] in
  let st := Spawn.run (Spawn.spawn pendingSignal) evs in
  Spawn.liveSettles (Spawn.spawn pendingSignal) evs = true ∧
  Spawn.tasks st = ∅ ∧
  Spawn.finalPromise st = Some (Rejected AbortError) ∧
  isAbortError AbortError = true.
Proof. by vm_compute. Qed.

(** Once the spawn signal is aborted it stays aborted, and no event calls a
    forked function any more. *)
Lemma spawn_step_after_abort (st : Spawn.State) ev :
  aborted (Spawn.spawnSignal st) = true →
  aborted (Spawn.spawnSignal (Spawn.step st ev)) = true ∧
  Spawn.forked (Spawn.step st ev) = Spawn.forked st.
Proof.
  intros Ha. destruct ev as [|fn|t| |id r|r]; cbn [Spawn.step].
  - unfold Spawn.fork. by rewrite Ha.
  - done.
  - by destruct t.
  - unfold abort. destruct (aborted (Spawn.signal st)); [done|].
    destruct (listening (Spawn.signal st)); [|done].
    set (st' := Spawn.setSignal _ st).
    by destruct (spawn_abortSpawn_eq st') as (sig & ats & Hsig & ->).
  - destruct (bool_decide _); [|done].
    unfold Spawn.onTaskSettled.
    destruct (spawn_handlers_variables id r st) as (_ & Hfk & _ & _ & _ & Hab).
    set (st' := Spawn.onTaskFailure r _) in *. cbn zeta in Hfk, Hab.
    assert (aborted (Spawn.spawnSignal st') = true) as Ha' by (apply Hab; by left).
    unfold Spawn.onTaskFinally, Spawn.settlePromise. cbn zeta.
    cbn [Spawn.tasks Spawn.setTasks Spawn.failure Spawn.result Spawn.promise].
    destruct (Nat.eqb (size (Spawn.tasks st' ∖ {[id]})) 0); [|done].
    destruct (Spawn.failure st'), (Spawn.result st'), (Spawn.promise st'); done.
  - unfold Spawn.onDeferredSettled. by destruct (Spawn.deferQueue st).
Qed.

Lemma spawn_run_after_abort (st : Spawn.State) evs :
  aborted (Spawn.spawnSignal st) = true →
  Spawn.forked (Spawn.run st evs) = Spawn.forked st.
Proof.
  revert st. induction evs as [|ev evs IH]; intros st Ha; [done|].
  destruct (spawn_step_after_abort st ev Ha) as [Ha' Hforked].
  by rewrite spawn_run_cons, IH.
Qed.

(** C6.  When the spawn signal is already aborted, [fork] hands back the stub
    and leaves the state as it is: the forked function is not called and no
    task is registered, and no later event calls a forked function either.
    Calling [abort] on the returned task changes nothing, in whatever state
    it is called, and [join] returns a promise already rejected with
    [AbortError]. *)
Theorem fork_after_abort_returns_stub (st : Spawn.State) :
  aborted (Spawn.spawnSignal st) = true →
  (Spawn.fork st).1 = st ∧
  (∀ evs, Spawn.forked (Spawn.run (Spawn.fork st).1 evs) = Spawn.forked st) ∧
  (∀ st', Spawn.taskAbort (Spawn.fork st).2 st' = st') ∧
  Spawn.join (Spawn.fork st).2 = Spawn.Settled (Rejected AbortError).
Proof.
  intros Ha.
  assert (Spawn.fork st = (st, Spawn.Stub)) as -> by (unfold Spawn.fork; by rewrite Ha).
  split_and!; try done.
  intros evs. by apply spawn_run_after_abort.
Qed.

(** C6, witness: the outer signal was aborted while the spawned function is
    still running; it then calls [fork] twice. *)
Lemma fork_after_abort_returns_stub_witness :
  let st := Spawn.run (Spawn.spawn pendingSignal) [Spawn.Abort] in
  aborted (Spawn.spawnSignal st) = true ∧
  Spawn.forked (Spawn.run (Spawn.fork st).1 [Spawn.Fork]) = 1 ∧
  Spawn.join (Spawn.fork st).2 = Spawn.Settled (Rejected AbortError).
Proof.
  intros st.
  assert (aborted (Spawn.spawnSignal st) = true) as Ha by reflexivity.
  destruct (fork_after_abort_returns_stub st Ha) as (_ & Hforked & _ & Hjoin).
  split; [exact Ha|]. split; [|exact Hjoin].
  rewrite Hforked. reflexivity.
Defined.

(** *** Deferred functions *)

Section SpawnDeferred.
Implicit Types (st : Spawn.State) (ev : Spawn.Event).
Implicit Types (rs : list (PromiseSettledResult unit)).

Lemma lastFailure_cons (r : PromiseSettledResult unit) rs :
  lastFailure (r :: rs)
  = match lastFailure rs with
    | Some error => Some error
    | None => failureOf r
    end.
Proof.
  unfold lastFailure.
  destruct r as [[]|error]; [by destruct (last _)|].
  change (omap failureOf (Rejected error :: rs))
    with (error :: omap (failureOf (T := unit)) rs).
  rewrite last_cons. by destruct (last _).
Qed.

(** The state in which the inner promise has just settled. *)
Lemma spawn_step_settles st ev r :
  Spawn.phase st →
  Spawn.promise st = None →
  Spawn.promise (Spawn.step st ev) = Some r →
  let st1 := Spawn.step st ev in
  Spawn.deferQueue st1 = reverse (Spawn.deferredFunctions st1) ∧
  Spawn.deferStarted st1 = take 1 (reverse (Spawn.deferredFunctions st1)) ∧
  Spawn.deferFailure st1 = None ∧
  spawnCleanup st1 r.
Proof.
  intros (_ & Hph) Hnone. rewrite Hnone in Hph.
  destruct Hph as (_ & Hfinal & Hqueue & Hstarted).
  destruct ev as [|fn|t| |id r'|r']; cbn [Spawn.step].
  - unfold Spawn.fork. destruct (aborted _); simpl; congruence.
  - simpl. congruence.
  - destruct t; simpl; congruence.
  - unfold abort. destruct (aborted (Spawn.signal st)); [simpl; congruence|].
    destruct (listening (Spawn.signal st)); [|simpl; congruence].
    intros Hp. exfalso. revert Hp.
    destruct (spawn_abortSpawn_eq (Spawn.setSignal (mkSignal true true
      (addCalls (Spawn.signal st)) (removeCalls (Spawn.signal st))) st))
      as (sig & ats & _ & ->).
    simpl. congruence.
  - destruct (bool_decide _); [|congruence].
    unfold Spawn.onTaskSettled.
    set (st' := Spawn.onTaskFailure r' _).
    assert (Spawn.view st' = Spawn.view st) as Hview.
    { unfold st'. rewrite spawn_onTaskFailure_view.
      destruct (Nat.eqb id Spawn.root); [|done]. apply spawn_onRootSettled_view. }
    unfold Spawn.view in Hview.
    injection Hview as _ _ Hp' Hf' Hq' Hs' Hfns' _.
    unfold Spawn.onTaskFinally. cbn zeta.
    set (st'' := Spawn.setTasks _ st').
    assert (∀ o, Spawn.promise (Spawn.settlePromise o st'') = Some r →
      Spawn.deferQueue (Spawn.settlePromise o st'')
      = reverse (Spawn.deferredFunctions (Spawn.settlePromise o st'')) ∧
      Spawn.deferStarted (Spawn.settlePromise o st'')
      = take 1 (reverse (Spawn.deferredFunctions (Spawn.settlePromise o st''))) ∧
      Spawn.deferFailure (Spawn.settlePromise o st'') = None ∧
      spawnCleanup (Spawn.settlePromise o st'') r) as Hsettle.
    { intros o. unfold Spawn.settlePromise, spawnCleanup. simpl.
      rewrite Hp', Hnone. simpl. rewrite Hs', Hstarted, Hf', Hfinal.
      intros [= ->]. by split_and!. }
    destruct (Nat.eqb (size (Spawn.tasks st'')) 0).
    + destruct (Spawn.failure st''), (Spawn.result st''); try apply Hsettle.
      subst st''. simpl. rewrite Hp'. congruence.
    + subst st''. simpl. rewrite Hp'. congruence.
  - unfold Spawn.onDeferredSettled. rewrite Hqueue. congruence.
Qed.

(** One deferred function completes. *)
Lemma spawn_cleanup_step st r r0 fn rest :
  spawnCleanup st r →
  Spawn.deferQueue st = fn :: rest →
  let st' := Spawn.step st (Spawn.DeferredSettles r0) in
  spawnCleanup st' r ∧
  Spawn.deferQueue st' = rest ∧
  Spawn.deferStarted st' = Spawn.deferStarted st ++ take 1 rest ∧
  Spawn.deferFailure st'
  = match failureOf r0 with
    | Some error => Some error
    | None => Spawn.deferFailure st
    end.
Proof.
  intros (Hp & Hf) Hq. cbn [Spawn.step]. unfold Spawn.onDeferredSettled, spawnCleanup.
  rewrite Hq in *. simpl. rewrite Hp.
  split_and!; try done.
  - destruct rest; [|done]. by destruct r0, (Spawn.deferFailure st).
  - by destruct r0.
Qed.

(** The cleanup after [length rs] deferred functions have completed. *)
Lemma spawn_cleanup_run rs st r :
  spawnCleanup st r →
  length rs ≤ length (Spawn.deferQueue st) →
  let st' := Spawn.run st (Spawn.DeferredSettles <$> rs) in
  spawnCleanup st' r ∧
  Spawn.deferQueue st' = drop (length rs) (Spawn.deferQueue st) ∧
  Spawn.deferStarted st'
  = Spawn.deferStarted st ++ take (length rs) (drop 1 (Spawn.deferQueue st)) ∧
  Spawn.deferFailure st'
  = match lastFailure rs with
    | Some error => Some error
    | None => Spawn.deferFailure st
    end.
Proof.
  revert st. induction rs as [|r0 rs IH]; intros st Hc Hlen.
  - simpl. rewrite app_nil_r. by rewrite drop_0.
  - destruct (Spawn.deferQueue st) as [|fn rest] eqn:Hq; [simpl in Hlen; lia|].
    destruct (spawn_cleanup_step st r r0 fn rest Hc Hq) as (Hc' & Hq' & Hs' & Hf').
    cbn zeta in *. rewrite fmap_cons, spawn_run_cons.
    destruct (IH (Spawn.step st (Spawn.DeferredSettles r0)) Hc')
      as (Hc'' & Hq'' & Hs'' & Hf'').
    { rewrite Hq'. simpl in Hlen. lia. }
    cbn zeta in *. split_and!.
    + exact Hc''.
    + by rewrite Hq'', Hq'.
    + rewrite Hs'', Hs', Hq', <- app_assoc. f_equal. simpl.
      destruct rest as [|fn' rest]; [by destruct rs|].
      simpl. by rewrite drop_0.
    + rewrite Hf'', Hf', lastFailure_cons. by destruct (lastFailure rs).
Qed.

(** C5.  The live task set empties when the event [ev] is handled: the inner
    promise, pending before, settles with [r]; the deferred functions
    registered until then are [fns].  After [length rs] of them have
    completed with the results [rs], the functions started so far are the
    first [length rs + 1] of [fns] in reverse order of registration, so each
    one starts only when its predecessor has completed; the promise returned
    by [spawn] is pending as long as one of them has not completed; when all
    have completed it rejects with the failure of the deferred function that
    failed last, and settles like the inner promise if none failed. *)
Theorem spawn_runs_deferred_in_reverse
    (pre : list Spawn.Event) ev (r : PromiseSettledResult value) rs :
  let st := Spawn.run (Spawn.spawn pendingSignal) pre in
  let st1 := Spawn.step st ev in
  let fns := Spawn.deferredFunctions st1 in
  let st2 := Spawn.run st1 (Spawn.DeferredSettles <$> rs) in
  Spawn.promise st = None →
  Spawn.promise st1 = Some r →
  length rs ≤ length fns →
  Spawn.deferStarted st2 = take (S (length rs)) (reverse fns) ∧
  Spawn.finalPromise st2
  = if decide (length rs = length fns)
    then Some (match lastFailure rs with
               | Some error => Rejected error
               | None => r
               end)
    else None.
Proof.
  intros st st1 fns st2 Hnone Hsettled Hlen.
  destruct (spawn_step_settles st ev r (spawn_phase_run pre) Hnone Hsettled)
    as (Hq & Hs & Hf & Hc).
  fold st1 in Hq, Hs, Hf, Hc. fold fns in Hq, Hs.
  destruct (spawn_cleanup_run rs st1 r Hc) as ((_ & Hfinal) & Hq' & Hs' & Hf').
  { by rewrite Hq, length_reverse. }
  fold st2 in Hfinal, Hq', Hs', Hf'.
  rewrite Hq in Hq', Hs'. rewrite Hs in Hs'. rewrite Hf in Hf'.
  split.
  - rewrite Hs'. destruct (reverse fns) as [|fn rest]; [by destruct rs|].
    simpl. by rewrite drop_0.
  - rewrite Hfinal, Hq', Hf'.
    assert (length (reverse fns) = length fns) as Hrev by apply length_reverse.
    destruct (decide (length rs = length fns)) as [Heq|Hne].
    + rewrite drop_ge by lia. by destruct (lastFailure rs).
    + destruct (drop (length rs) (reverse fns)) as [|fn rest] eqn:Hdrop; [|done].
      apply (f_equal length) in Hdrop. rewrite length_drop in Hdrop. simpl in Hdrop. lia.
Qed.

End SpawnDeferred.

(** C5, witness: [defer] is called with A (1) and then B (2); B completes,
    then A fails. *)
Lemma spawn_runs_deferred_in_reverse_witness :
  let st := Spawn.run (Spawn.spawn pendingSignal)
              [Spawn.Defer 1; Spawn.Defer 2;
               Spawn.TaskSettles Spawn.root (Fulfilled (Str "ok"));
               Spawn.DeferredSettles (Fulfilled tt);
               Spawn.DeferredSettles (Rejected (Str "cleanup"))] in
  Spawn.deferStarted st = [2; 1] ∧
  Spawn.finalPromise st = Some (Rejected (Str "cleanup")).
Proof.
  refine (spawn_runs_deferred_in_reverse
            [Spawn.Defer 1; Spawn.Defer 2]
            (Spawn.TaskSettles Spawn.root (Fulfilled (Str "ok")))
            (Fulfilled (Str "ok"))
            [Fulfilled tt; Rejected (Str "cleanup")] _ _ _).
  - reflexivity.
  - by vm_compute.
  - by vm_compute.
Defined.

(** ** Subscriptions to the outer signal *)

Section Subscriptions.
Context {T : Type}.

(** *** execute *)









(** The call on an aborted signal never subscribes. *)
Lemma execute_aborted_unsubscribed sync cb (evs : list (Execute.Event T)) :
  let st := Execute.run (Execute.execute abortedSignal sync cb) evs in
  Execute.executorCalls st = 0 ∧
  Execute.promise st = Some (Rejected AbortError) ∧
  unsubscribed (Execute.signal st).
Proof.
  intros st.
  assert (Execute.promise st = Some (Rejected AbortError)) as Hp
    by (by apply execute_run_settled).
  split; [|split; [exact Hp|]]; subst st; clear Hp.
  - induction evs as [|ev evs IH] using rev_ind; [done|].
    rewrite execute_run_app. cbn [Execute.run foldl].
    set (st := Execute.run _ evs) in *.
    destruct ev as [[v|r]| | |r]; simpl.
    + unfold Execute.finish; simpl. by destruct (Execute.finished st).
    + unfold Execute.finish; simpl. by destruct (Execute.finished st).
    + unfold abort. destruct (aborted (Execute.signal st)); [done|].
      destruct (listening (Execute.signal st)); [|done].
      unfold Execute.listener; simpl.
      destruct (Execute.callback st); unfold Execute.finish; simpl;
        by destruct (Execute.finished st).
    + by destruct (Execute.callbackPending st).
    + by destruct (Execute.callbackPending st).
  - assert (Execute.removeAbortListener
              (Execute.run (Execute.execute abortedSignal sync cb) evs) = false ∧
            unsubscribed (Execute.signal
              (Execute.run (Execute.execute abortedSignal sync cb) evs))) as [_ H];
      [|exact H].
    induction evs as [|ev evs IH] using rev_ind; [done|].
    rewrite execute_run_app. cbn [Execute.run foldl].
    set (st := Execute.run _ evs) in *. destruct IH as (Hral & Hadd & Hrem).
    assert (∀ s : Execute.State T,
      Execute.removeAbortListener s = false → unsubscribed (Execute.signal s) →
      Execute.removeAbortListener (Execute.finish s) = false ∧
      unsubscribed (Execute.signal (Execute.finish s))) as Hfinish.
    { intros s Hs Hu. unfold Execute.finish.
      destruct (Execute.finished s); [done|]. simpl. by rewrite Hs. }
    destruct ev as [[v|r]| | |r]; simpl.
    + by apply Hfinish.
    + by apply Hfinish.
    + unfold abort. destruct (aborted (Execute.signal st)); [done|].
      destruct (listening (Execute.signal st)); [|done].
      unfold Execute.listener; simpl.
      destruct (Execute.callback st); [by apply Hfinish|by apply Hfinish|done].
    + by destruct (Execute.callbackPending st).
    + by destruct (Execute.callbackPending st).
Qed.

End Subscriptions.

Section CombinatorSubscriptions.
Context {T : Type}.

(** *** all *)

Lemma all_subscription_settled (st : All.State T) :
  allSubscription st → allSubscription (All.settled st).
Proof.
  intros (Ha & Hp). unfold allSubscription, All.settled.
  cbn [All.settledCount All.length].
  destruct (Nat.eqb (S (All.settledCount st)) (All.length st)) eqn:Hc; simpl.
  - apply Nat.eqb_eq in Hc. split; [done|].
    destruct (All.promise st); simpl; [lia|]. destruct Hp as [-> _]. lia.
  - apply Nat.eqb_neq in Hc. split; [done|].
    destruct (All.promise st); lia.
Qed.

Lemma all_subscription_step (st : All.State T) ev :
  allSubscription st → allSubscription (All.step st ev).
Proof.
  intros Hinv. destruct ev as [i [v|reason]|]; cbn [All.step].
  - by apply all_subscription_settled.
  - by apply all_subscription_settled.
  - unfold abort. destruct (aborted (All.signal st)); [done|].
    by destruct (listening (All.signal st)).
Qed.

Lemma all_subscription_run (n : nat) (evs : list (All.Event T)) :
  n ≠ 0 → allSubscription (All.run (All.all pendingSignal n) evs).
Proof.
  intros Hn. induction evs as [|ev evs IH] using rev_ind.
  - destruct n as [|m]; [done|]. unfold allSubscription; simpl. split_and!; [done|done|lia].
  - rewrite all_run_app. by apply all_subscription_step.
Qed.



(** *** race *)

Lemma race_subscription_settled (st : Race.State T) :
  is_Some (Race.result st) →
  raceSubscription st → raceSubscription (Race.settled st).
Proof.
  intros [r Hres] (Ha & Hp). unfold raceSubscription, Race.settled.
  cbn [Race.settledCount Race.length].
  destruct (Nat.eqb (S (Race.settledCount st)) (Race.length st)) eqn:Hc; simpl.
  - apply Nat.eqb_eq in Hc. split; [done|]. rewrite Hres.
    destruct (Race.promise st); simpl; [lia|]. destruct Hp as [-> _]. lia.
  - apply Nat.eqb_neq in Hc. split; [done|].
    destruct (Race.promise st); lia.
Qed.

Lemma race_subscription_step (st : Race.State T) ev :
  raceSubscription st → raceSubscription (Race.step st ev).
Proof.
  intros Hinv. destruct ev as [i [v|reason]|]; cbn [Race.step].
  - apply race_subscription_settled; [|done].
    simpl. unfold Race.recordFulfilment. by destruct (Race.result st).
  - apply race_subscription_settled; [|done].
    simpl. unfold Race.recordRejection.
    destruct (Race.result st); [|done]. by destruct (_ && _).
  - unfold abort. destruct (aborted (Race.signal st)); [done|].
    by destruct (listening (Race.signal st)).
Qed.

Lemma race_subscription_run (n : nat) (evs : list (Race.Event T)) :
  raceSubscription (Race.run (Race.race pendingSignal n) evs).
Proof.
  induction evs as [|ev evs IH] using rev_ind.
  - unfold raceSubscription; simpl. split_and!; [done|done|lia].
  - unfold Race.run in *. rewrite foldl_app. by apply race_subscription_step.
Qed.

Lemma race_fast_path_step (st : Race.State T) ev :
  Race.length st = 0 →
  Race.length (Race.step st ev) = 0 ∧
  addCalls (Race.signal (Race.step st ev)) = addCalls (Race.signal st) ∧
  removeCalls (Race.signal (Race.step st ev)) = removeCalls (Race.signal st).
Proof.
  intros Hl. destruct ev as [i [v|reason]|]; cbn [Race.step].
  - unfold Race.onFulfilled, Race.settled; cbn [Race.settledCount Race.length].
    by rewrite Hl.
  - unfold Race.onRejected, Race.settled; cbn [Race.settledCount Race.length].
    by rewrite Hl.
  - unfold abort. destruct (aborted (Race.signal st)); [done|].
    by destruct (listening (Race.signal st)).
Qed.

Lemma race_fast_path_run (st : Race.State T) evs :
  Race.length st = 0 →
  addCalls (Race.signal (Race.run st evs)) = addCalls (Race.signal st) ∧
  removeCalls (Race.signal (Race.run st evs)) = removeCalls (Race.signal st).
Proof.
  revert st. induction evs as [|ev evs IH]; intros st Hl; [done|].
  rewrite race_run_cons.
  destruct (race_fast_path_step st ev Hl) as (Hl' & <- & <-). by apply IH.
Qed.

End CombinatorSubscriptions.

(** *** spawn *)





(** ** abortable *)

Section AbortableFacts.
Context {T : Type}.

Lemma abortable_fast_path_step (st : Abortable.State T) ev :
  abortableFastPath st → abortableFastPath (Abortable.step st ev).
Proof.
  intros (Hh & Hu & evs & He). destruct ev as [r|]; cbn [Abortable.step].
  - destruct (Abortable.underlying st); [by split_and!; [| |exists evs]|].
    unfold abortableFastPath; simpl. rewrite Hh. simpl.
    split_and!; [done|by destruct r|by exists evs].
  - unfold abortableFastPath; simpl. split_and!; [done|done|].
    exists (evs ++ [Execute.Abort]). by rewrite execute_run_app, <- He.
Qed.

(** C10.  [abortable] is called on an aborted signal.  Whatever the wrapped
    promise does afterwards, the returned promise is rejected with
    [AbortError], the executor was never called, nothing was ever subscribed
    to the signal, the only handlers on the wrapped promise are the pair of
    no-ops, and its rejection is not reported as unhandled. *)
Theorem abortable_on_aborted_signal (evs : list (Abortable.Event T)) :
  let st := Abortable.run (Abortable.abortable abortedSignal) evs in
  Execute.promise (Abortable.execution st) = Some (Rejected AbortError) ∧
  Execute.executorCalls (Abortable.execution st) = 0 ∧
  unsubscribed (Execute.signal (Abortable.execution st)) ∧
  Abortable.handlers st = [Abortable.Noop] ∧
  Abortable.unhandledRejection st = false.
Proof.
  intros st.
  assert (abortableFastPath st) as (Hh & Hu & evs' & He).
  { subst st. induction evs as [|ev evs IH] using rev_ind.
    - split_and!; [done|done|by exists []].
    - unfold Abortable.run in *. rewrite foldl_app.
      by apply abortable_fast_path_step. }
  rewrite He.
  destruct (execute_aborted_unsubscribed (T := T) [] Execute.NoAction evs')
    as (Hcalls & Hp & Hsub).
  by split_and!.
Qed.

End AbortableFacts.

(** ** retry *)

Section RetryFacts.
#[local] Open Scope Q_scope.



End RetryFacts.

Section RetryClaims.
#[local] Open Scope Q_scope.


End RetryClaims.



(** * Further properties *)

(** ** The tests of waitForEvent, replayed *)

Example test_waitForEvent_external_abort :
  let target := WaitForEvent.mkTarget true true false false false false in
  let st0 := WaitForEvent.waitForEvent pendingSignal target [] in
  let st := WaitForEvent.run st0 [WaitForEvent.Abort] in
  WaitForEvent.unlistenCalls st0 = 0 ∧
  Execute.promise (WaitForEvent.execution st) = Some (Rejected AbortError) ∧
  WaitForEvent.unlistenCalls st = 1 ∧
  addCalls (Execute.signal (WaitForEvent.execution st)) = 1 ∧
  removeCalls (Execute.signal (WaitForEvent.execution st)) = 1.
Proof. by vm_compute. Qed.

Example test_waitForEvent_fulfill :
  let target := WaitForEvent.mkTarget true true false false false false in
  let st := WaitForEvent.run (WaitForEvent.waitForEvent pendingSignal target [])
              [WaitForEvent.Emit [Obj [("type", Str "test")]]] in
  Execute.promise (WaitForEvent.execution st)
  = Some (Fulfilled (WaitForEvent.Single (Obj [("type", Str "test")]))) ∧
  WaitForEvent.unlistenCalls st = 1 ∧
  addCalls (Execute.signal (WaitForEvent.execution st)) = 1 ∧
  removeCalls (Execute.signal (WaitForEvent.execution st)) = 1.
Proof. by vm_compute. Qed.

(** ** execute: the paths on which the abort callback is not called *)

Section ExecuteDetached.
Context {T : Type}.
Implicit Types (st : Execute.State T) (ev : Execute.Event T) (evs : list (Execute.Event T)).

Lemma execute_finish_finished st : Execute.finished st = true → Execute.finish st = st.
Proof. intros Hf. unfold Execute.finish. by rewrite Hf. Qed.

(** A finished call that is not registered on the signal keeps its
    subscription counts and never calls the abort callback. *)
Lemma execute_step_detached st ev :
  executeDetached st →
  executeDetached (Execute.step st ev) ∧
  Execute.callbackCalls (Execute.step st ev) = Execute.callbackCalls st ∧
  addCalls (Execute.signal (Execute.step st ev)) = addCalls (Execute.signal st) ∧
  removeCalls (Execute.signal (Execute.step st ev)) = removeCalls (Execute.signal st).
Proof.
  intros [Hf Hl]. unfold executeDetached.
  destruct ev as [[v|r]| | |r]; cbn [Execute.step Execute.complete].
  - by rewrite execute_finish_finished.
  - by rewrite execute_finish_finished.
  - unfold abort. rewrite Hl. by destruct (aborted (Execute.signal st)).
  - by destruct (Execute.callbackPending st).
  - by destruct (Execute.callbackPending st).
Qed.

Lemma execute_run_detached st evs :
  executeDetached st →
  executeDetached (Execute.run st evs) ∧
  Execute.callbackCalls (Execute.run st evs) = Execute.callbackCalls st ∧
  addCalls (Execute.signal (Execute.run st evs)) = addCalls (Execute.signal st) ∧
  removeCalls (Execute.signal (Execute.run st evs)) = removeCalls (Execute.signal st).
Proof.
  revert st. induction evs as [|ev evs IH]; intros st Hd; [done|].
  rewrite execute_run_cons.
  destruct (execute_step_detached st ev Hd) as (Hd' & <- & <- & <-).
  by apply IH.
Qed.

Lemma execute_complete_pending st c :
  Execute.promise st = None →
  Execute.promise (Execute.complete c st) = Some (settlementOf c).
Proof.
  intros Hp. destruct c; simpl; rewrite execute_finish_promise; simpl; by rewrite Hp.
Qed.

(** X1.  [execute] is called on a signal that is not aborted and the executor
    completes nothing while it runs.  If a completion function is called
    before the signal fires, the promise settles as that call asks, the
    listener is removed from the signal at once, and the abort callback is
    never called, whatever happens afterwards: later completion calls and a
    later abort change nothing. *)
Theorem execute_completion_before_abort (cb : Execute.CallbackResult)
    (c : Execute.Completion T) (rest : list (Execute.Event T)) :
  let st := Execute.run (Execute.execute pendingSignal [] cb)
              (Execute.Complete c :: rest) in
  Execute.promise st = Some (settlementOf c) ∧
  Execute.callbackCalls st = 0 ∧
  listening (Execute.signal st) = false ∧
  addCalls (Execute.signal st) = 1 ∧
  removeCalls (Execute.signal st) = 1.
Proof.
  intros st. subst st. rewrite execute_run_cons.
  set (st1 := Execute.step _ _).
  assert (Execute.promise st1 = Some (settlementOf c)) as Hp by (by destruct c).
  assert (executeDetached st1) as Hd by (by destruct c).
  destruct (execute_run_detached st1 rest Hd) as ((_ & Hl) & Hc & Ha & Hr).
  rewrite (execute_run_settled _ _ _ Hp), Hc, Hl, Ha, Hr. by destruct c.
Qed.

Lemma execute_sync_finished sync st :
  Execute.finished st = true →
  foldl (λ st c, Execute.complete c st) st sync
  = Execute.mkState (Execute.signal st) (Execute.executorCalls st)
      (Execute.removeAbortListener st) true (Execute.callback st)
      (Execute.callbackCalls st) (Execute.callbackPending st)
      (Execute.promise (foldl (λ st c, Execute.complete c st) st sync)).
Proof.
  revert st. induction sync as [|c sync IH]; intros st Hf.
  - simpl. rewrite <- Hf. by destruct st.
  - cbn [foldl]. rewrite IH by (destruct c; simpl; by rewrite execute_finish_finished).
    destruct c; simpl; by rewrite execute_finish_finished.
Qed.

Lemma execute_sync_settled sync st o :
  Execute.promise st = Some o →
  Execute.promise (foldl (λ st c, Execute.complete c st) st sync) = Some o.
Proof.
  revert st. induction sync as [|c sync IH]; intros st Hp; [done|].
  cbn [foldl]. apply IH. destruct c; simpl; rewrite execute_finish_promise; simpl;
    by rewrite Hp.
Qed.

(** The state [execute] returns when the executor has called a completion
    function before returning. *)
Lemma execute_synchronous_init (cb : Execute.CallbackResult)
    (c : Execute.Completion T) (sync : list (Execute.Completion T)) :
  let st := Execute.execute pendingSignal (c :: sync) cb in
  Execute.promise st = Some (settlementOf c) ∧
  executeDetached st ∧
  Execute.callbackCalls st = 0 ∧
  Execute.executorCalls st = 1 ∧
  unsubscribed (Execute.signal st).
Proof.
  intros st. subst st. unfold Execute.execute. cbn [aborted pendingSignal foldl].
  set (st1 := Execute.complete c _).
  assert (Execute.finished st1 = true) as Hf by (by destruct c).
  assert (Execute.promise st1 = Some (settlementOf c)) as Hp by (by destruct c).
  rewrite (execute_sync_finished sync st1 Hf). cbn [Execute.finished].
  split; [by apply execute_sync_settled|]. by destruct c.
Qed.

(** X2.  When the executor calls a completion function before it returns,
    the promise settles as the first such call asks, [execute] never
    registers a listener on the signal, and the abort callback the executor
    returned is never called, whatever happens afterwards. *)
Theorem execute_synchronous_completion (cb : Execute.CallbackResult)
    (c : Execute.Completion T) (sync : list (Execute.Completion T))
    (evs : list (Execute.Event T)) :
  let st := Execute.run (Execute.execute pendingSignal (c :: sync) cb) evs in
  Execute.promise st = Some (settlementOf c) ∧
  Execute.callbackCalls st = 0 ∧
  Execute.executorCalls (Execute.execute pendingSignal (c :: sync) cb) = 1 ∧
  unsubscribed (Execute.signal st).
Proof.
  intros st. subst st.
  destruct (execute_synchronous_init cb c sync) as (Hp & Hd & Hc & He & Ha & Hr).
  destruct (execute_run_detached _ evs Hd) as (_ & Hc' & Ha' & Hr').
  unfold unsubscribed. rewrite Hc', Ha', Hr'.
  split; [by apply execute_run_settled|done].
Qed.

(** X3.  Whatever the signal, the executor and the events: the abort callback
    is called at most once, only after the signal has fired, and not at all
    when the signal was already aborted at the call. *)
Theorem execute_cleanup_at_most_once (sig : AbortSignal)
    (sync : list (Execute.Completion T)) (cb : Execute.CallbackResult)
    (evs : list (Execute.Event T)) :
  let st := Execute.run (Execute.execute sig sync cb) evs in
  Execute.callbackCalls st ≤ 1 ∧
  (Execute.callbackCalls st = 1 → aborted (Execute.signal st) = true) ∧
  (aborted sig = true → Execute.callbackCalls st = 0).
Proof.
  intros st.
  assert (Execute.callbackCalls (Execute.execute sig sync cb) = 0) as H0.
  { unfold Execute.execute. destruct (aborted sig); [done|].
    set (st0 := Execute.mkState _ _ _ _ _ _ _ _).
    assert (Execute.callbackCalls (foldl (λ st c, Execute.complete c st) st0 sync) = 0)
      as Hsync.
    { assert (Execute.callbackCalls st0 = 0) as Hc by done. clearbody st0.
      revert st0 Hc. induction sync as [|c sync IH]; intros st0 Hc; [done|].
      cbn [foldl]. apply IH. destruct c; simpl; by rewrite execute_finish_calls. }
    by destruct (Execute.finished _). }
  assert (Execute.callbackCalls st = 0 ∨
          (Execute.callbackCalls st = 1 ∧ aborted (Execute.signal st) = true)) as Hinv.
  { subst st. induction evs as [|ev evs IH] using rev_ind; [by left|].
    rewrite execute_run_app. cbn [Execute.run foldl].
    set (st := Execute.run _ evs) in *. clearbody st.
    destruct IH as [Hc|[Hc Ha]].
    - destruct ev as [[v|r]| | |r]; cbn [Execute.step Execute.complete].
      + left. by rewrite execute_finish_calls.
      + left. by rewrite execute_finish_calls.
      + unfold abort. destruct (aborted (Execute.signal st)); [by left|].
        destruct (listening (Execute.signal st)); [|by left].
        right. unfold Execute.listener. simpl.
        destruct (Execute.callback st);
          rewrite ?execute_finish_calls, ?execute_finish_aborted; simpl; by rewrite Hc.
      + left. by destruct (Execute.callbackPending st).
      + left. by destruct (Execute.callbackPending st).
    - right. destruct (execute_step_after_abort st ev Ha) as [Ha' Hc'].
      by rewrite Hc'. }
  split; [destruct Hinv as [->|[-> _]]; lia|]. split.
  - intros H1. destruct Hinv as [H|[_ H]]; [lia|done].
  - intros Ha. subst st. rewrite execute_run_after_abort; [done|].
    unfold Execute.execute. by rewrite Ha.
Qed.

(** X4.  An abort callback that throws leaves the call as it was: the promise
    stays pending and the listener stays on the signal, until a completion
    function is called, which settles the promise and removes the
    listener. *)
Theorem execute_throwing_cleanup (e : value) (quiet rest : list (Execute.Event T))
    (c : Execute.Completion T) :
  Forall (λ ev, ∀ c', ev ≠ Execute.Complete c') quiet →
  let st0 := Execute.execute pendingSignal [] (Execute.Throws e) in
  let st1 := Execute.run st0 (Execute.Abort :: quiet) in
  let st2 := Execute.run st0 (Execute.Abort :: quiet ++ Execute.Complete c :: rest) in
  Execute.callbackCalls st1 = 1 ∧
  Execute.promise st1 = None ∧
  listening (Execute.signal st1) = true ∧
  removeCalls (Execute.signal st1) = 0 ∧
  Execute.promise st2 = Some (settlementOf c) ∧
  removeCalls (Execute.signal st2) = 1.
Proof.
  intros Hquiet st0 st1 st2.
  set (sta := Execute.step st0 Execute.Abort).
  assert (Execute.run sta quiet = sta) as Hq.
  { induction Hquiet as [|ev quiet Hev _ IH]; [done|].
    rewrite execute_run_cons.
    assert (Execute.step sta ev = sta) as ->; [|exact IH].
    destruct ev as [c'| | |r]; [by destruct (Hev c')|done|done|done]. }
  assert (st1 = sta) as ->.
  { unfold st1. rewrite execute_run_cons. by fold sta. }
  assert (st2 = Execute.run (Execute.complete c sta) rest) as ->.
  { unfold st2. rewrite execute_run_cons. fold sta.
    by rewrite execute_run_app, Hq, execute_run_cons. }
  split_and!; try done.
  - apply execute_run_settled. by destruct c.
  - assert (executeDetached (Execute.complete c sta)) as Hd by (by destruct c).
    destruct (execute_run_detached _ rest Hd) as (_ & _ & _ & ->). by destruct c.
Qed.

End ExecuteDetached.

(** X4, witness: the signal fires twice, then the executor rejects. *)
Lemma execute_throwing_cleanup_witness :
  let st0 := Execute.execute (T := Z) pendingSignal [] (Execute.Throws (Str "cleanup")) in
  Execute.promise (Execute.run st0 [Execute.Abort; Execute.Abort]) = None ∧
  Execute.promise
    (Execute.run st0 [Execute.Abort; Execute.Abort;
                      Execute.Complete (Execute.CallReject (Str "late"))])
  = Some (Rejected (Str "late")).
Proof.
  assert (Forall (λ ev : Execute.Event Z, ∀ c', ev ≠ Execute.Complete c')
            [Execute.Abort]) as H by (repeat constructor; done).
  destruct (execute_throwing_cleanup (Str "cleanup") [Execute.Abort] []
              (Execute.CallReject (Str "late")) H) as (_ & Hp & _ & _ & Hs & _).
  split; [exact Hp|exact Hs].
Defined.

(** ** forever, delay, waitForEvent and abortable: calls of [execute] *)

(** An abort request leaves a call that is not registered on the signal as it
    is, up to the flag of the signal. *)
Lemma execute_abort_not_listening {T} (st : Execute.State T) :
  listening (Execute.signal st) = false →
  let st' := Execute.step st Execute.Abort in
  Execute.promise st' = Execute.promise st ∧
  Execute.callbackCalls st' = Execute.callbackCalls st ∧
  listening (Execute.signal st') = false ∧
  addCalls (Execute.signal st') = addCalls (Execute.signal st) ∧
  removeCalls (Execute.signal st') = removeCalls (Execute.signal st).
Proof.
  intros Hl. cbn [Execute.step]. unfold abort. rewrite Hl.
  by destruct (aborted (Execute.signal st)).
Qed.

(** X5.  [forever signal] never fulfils: its promise is pending until the
    signal fires and rejected with [AbortError] from then on; on a signal
    that is already aborted it is rejected from the start and the executor is
    not called. *)
Theorem forever_settles_only_by_abort (initially : bool) (aborts : nat) :
  let sig := if initially then abortedSignal else pendingSignal in
  let st := Forever.run (Forever.forever sig) aborts in
  Execute.promise st
  = (if initially || negb (Nat.eqb aborts 0) then Some (Rejected AbortError) else None) ∧
  Execute.executorCalls st = (if initially then 0 else 1) ∧
  Execute.callbackCalls st = (if initially || Nat.eqb aborts 0 then 0 else 1).
Proof.
  intros sig st. subst sig st. unfold Forever.run, Forever.forever.
  destruct initially; cbn [orb].
  - destruct (execute_aborted_unsubscribed (T := Empty_set) [] Execute.NoAction
                (replicate aborts Execute.Abort)) as (He & Hp & _).
    split; [exact Hp|]. split; [exact He|].
    by apply execute_run_after_abort.
  - destruct aborts as [|n]; [done|]. cbn [Nat.eqb negb replicate].
    rewrite execute_run_cons.
    set (st1 := Execute.step _ _).
    assert (Execute.run st1 (replicate n Execute.Abort) = st1) as ->; [|done].
    apply execute_run_aborts; [done|]. by apply Forall_replicate.
Qed.

Section DelayFacts.
Implicit Types (st : Delay.State) (ev : Delay.Event) (evs : list Delay.Event).

(** Once the timer is gone and the listener is off the signal, nothing
    happens to a call of [delay]. *)
Lemma delay_step_idle st ev :
  Delay.timer st = None →
  listening (Execute.signal (Delay.execution st)) = false →
  let st' := Delay.step st ev in
  Delay.timer st' = None ∧
  listening (Execute.signal (Delay.execution st')) = false ∧
  Execute.promise (Delay.execution st') = Execute.promise (Delay.execution st) ∧
  Delay.setTimeoutCalls st' = Delay.setTimeoutCalls st ∧
  Delay.clearTimeoutCalls st' = Delay.clearTimeoutCalls st.
Proof.
  intros Ht Hl. destruct ev; cbn [Delay.step].
  - by rewrite Ht.
  - destruct (execute_abort_not_listening (Delay.execution st) Hl)
      as (Hp & Hc & Hl' & _).
    cbn zeta in Hp, Hc, Hl'. rewrite Hc, Nat.ltb_irrefl. by cbn.
Qed.

Lemma delay_run_idle st evs :
  Delay.timer st = None →
  listening (Execute.signal (Delay.execution st)) = false →
  let st' := Delay.run st evs in
  Delay.timer st' = None ∧
  Execute.promise (Delay.execution st') = Execute.promise (Delay.execution st) ∧
  Delay.setTimeoutCalls st' = Delay.setTimeoutCalls st ∧
  Delay.clearTimeoutCalls st' = Delay.clearTimeoutCalls st.
Proof.
  revert st. induction evs as [|ev evs IH]; intros st Ht Hl; [done|].
  destruct (delay_step_idle st ev Ht Hl) as (Ht' & Hl' & <- & <- & <-).
  by apply IH.
Qed.

(** X6.  [delay signal dueTime] on a signal that is not aborted sets one
    timer, and the first thing to happen decides: when the timer fires first
    the promise fulfils and a later abort changes nothing; when the signal
    fires first the timer is cleared and the promise rejects with
    [AbortError].  In either case no timer is left once the promise has
    settled.  On a signal that is already aborted no timer is ever set. *)
Theorem delay_first_event_decides (now : Z) (dueTime : Delay.DueTime) evs :
  let st := Delay.run (Delay.delay pendingSignal now dueTime) evs in
  let st' := Delay.run (Delay.delay abortedSignal now dueTime) evs in
  Execute.promise (Delay.execution st)
  = match evs with
    | [] => None
    | Delay.TimerFires :: _ => Some (Fulfilled tt)
    | Delay.Abort :: _ => Some (Rejected AbortError)
    end ∧
  Delay.timer st
  = match evs with
    | [] => Some (Delay.milliseconds now dueTime)
    | _ :: _ => None
    end ∧
  Delay.setTimeoutCalls st = 1 ∧
  Delay.clearTimeoutCalls st = match evs with Delay.Abort :: _ => 1 | _ => 0 end ∧
  Execute.promise (Delay.execution st') = Some (Rejected AbortError) ∧
  Delay.setTimeoutCalls st' = 0 ∧
  Delay.clearTimeoutCalls st' = 0.
Proof.
  intros st st'.
  assert (Execute.promise (Delay.execution st') = Some (Rejected AbortError) ∧
          Delay.setTimeoutCalls st' = 0 ∧ Delay.clearTimeoutCalls st' = 0) as Haborted.
  { subst st'.
    destruct (delay_run_idle (Delay.delay abortedSignal now dueTime) evs)
      as (_ & Hp & Hs & Hc); [done|done|]. by rewrite Hp, Hs, Hc. }
  split_and!; try apply Haborted; clear st' Haborted; subst st.
  all: destruct evs as [|ev evs]; [done|].
  all: change (Delay.run ?s (ev :: evs)) with (Delay.run (Delay.step s ev) evs).
  all: set (st1 := Delay.step _ ev).
  all: destruct (delay_run_idle st1 evs) as (Ht & Hp & Hs & Hc);
    [by destruct ev|by destruct ev|].
  all: rewrite ?Ht, ?Hp, ?Hs, ?Hc; by destruct ev.
Qed.

End DelayFacts.

Section WaitForEventFacts.
Implicit Types (st : WaitForEvent.State) (ev : WaitForEvent.Event).
Implicit Types (evs : list WaitForEvent.Event).

(** Once the handler is off the target and the listener is off the signal,
    nothing happens to a call of [waitForEvent]. *)
Lemma waitForEvent_step_idle st ev :
  WaitForEvent.registered st = false →
  listening (Execute.signal (WaitForEvent.execution st)) = false →
  let st' := WaitForEvent.step st ev in
  WaitForEvent.registered st' = false ∧
  listening (Execute.signal (WaitForEvent.execution st')) = false ∧
  Execute.promise (WaitForEvent.execution st')
  = Execute.promise (WaitForEvent.execution st) ∧
  WaitForEvent.listenCalls st' = WaitForEvent.listenCalls st ∧
  WaitForEvent.unlistenCalls st' = WaitForEvent.unlistenCalls st ∧
  addCalls (Execute.signal (WaitForEvent.execution st'))
  = addCalls (Execute.signal (WaitForEvent.execution st)) ∧
  removeCalls (Execute.signal (WaitForEvent.execution st'))
  = removeCalls (Execute.signal (WaitForEvent.execution st)).
Proof.
  intros Hr Hl. destruct ev as [args|]; cbn [WaitForEvent.step].
  - by rewrite Hr.
  - destruct (execute_abort_not_listening (WaitForEvent.execution st) Hl)
      as (Hp & Hc & Hl' & Ha & Hrem).
    cbn zeta in Hp, Hc, Hl', Ha, Hrem. rewrite Hc, Nat.ltb_irrefl. by cbn.
Qed.

Lemma waitForEvent_run_idle st evs :
  WaitForEvent.registered st = false →
  listening (Execute.signal (WaitForEvent.execution st)) = false →
  let st' := WaitForEvent.run st evs in
  WaitForEvent.registered st' = false ∧
  Execute.promise (WaitForEvent.execution st')
  = Execute.promise (WaitForEvent.execution st) ∧
  WaitForEvent.listenCalls st' = WaitForEvent.listenCalls st ∧
  WaitForEvent.unlistenCalls st' = WaitForEvent.unlistenCalls st ∧
  addCalls (Execute.signal (WaitForEvent.execution st'))
  = addCalls (Execute.signal (WaitForEvent.execution st)) ∧
  removeCalls (Execute.signal (WaitForEvent.execution st'))
  = removeCalls (Execute.signal (WaitForEvent.execution st)).
Proof.
  revert st. induction evs as [|ev evs IH]; intros st Hr Hl; [done|].
  destruct (waitForEvent_step_idle st ev Hr Hl) as (Hr' & Hl' & <- & <- & <- & <- & <-).
  by apply IH.
Qed.

(** X7.  A target that has none of the three pairs of methods makes [listen]
    throw: the promise rejects with [Error('Invalid event target')], no
    handler is registered on the target and no listener on the signal,
    whatever happens afterwards. *)
Theorem waitForEvent_invalid_target (target : WaitForEvent.EventTargetLike)
    (during : list (list value)) evs :
  WaitForEvent.isEventTarget target = false →
  WaitForEvent.isJQueryStyleEventEmitter target = false →
  WaitForEvent.isNodeStyleEventEmitter target = false →
  let st := WaitForEvent.run (WaitForEvent.waitForEvent pendingSignal target during) evs in
  Execute.promise (WaitForEvent.execution st)
  = Some (Rejected (Error "Invalid event target")) ∧
  WaitForEvent.registered st = false ∧
  WaitForEvent.unlistenCalls st = 0 ∧
  unsubscribed (Execute.signal (WaitForEvent.execution st)).
Proof.
  intros Hdom Hjq Hnode st. subst st.
  unfold WaitForEvent.waitForEvent, WaitForEvent.listen.
  rewrite Hdom, Hjq, Hnode. cbn [aborted pendingSignal].
  set (st0 := WaitForEvent.mkState _ _ _ _ _ _).
  destruct (waitForEvent_run_idle st0 evs) as (Hr & Hp & _ & Hu & Ha & Hrem);
    [done|done|].
  unfold unsubscribed. by rewrite Hr, Hp, Hu, Ha, Hrem.
Qed.

(** X8.  On a valid target and a signal that is not aborted, [waitForEvent]
    registers its handler once, and the first thing to happen decides: an
    emission (while [listen] runs or later) fulfils the promise with its
    payload, an abort rejects it with [AbortError].  Either way the handler
    is removed from the target exactly once, at that moment, and later
    emissions and aborts change nothing. *)
Theorem waitForEvent_first_event_decides (target : WaitForEvent.EventTargetLike)
    (m : WaitForEvent.Methods) (during : list (list value)) evs :
  WaitForEvent.listen target = Some m →
  let st := WaitForEvent.run (WaitForEvent.waitForEvent pendingSignal target during) evs in
  WaitForEvent.listenCalls st = 1 ∧
  match during, evs with
  | [], [] =>
      Execute.promise (WaitForEvent.execution st) = None ∧
      WaitForEvent.registered st = true ∧ WaitForEvent.unlistenCalls st = 0
  | args :: _, _ | [], WaitForEvent.Emit args :: _ =>
      Execute.promise (WaitForEvent.execution st)
      = Some (Fulfilled (WaitForEvent.payload args)) ∧
      WaitForEvent.registered st = false ∧ WaitForEvent.unlistenCalls st = 1
  | [], WaitForEvent.Abort :: _ =>
      Execute.promise (WaitForEvent.execution st) = Some (Rejected AbortError) ∧
      WaitForEvent.registered st = false ∧ WaitForEvent.unlistenCalls st = 1
  end.
Proof.
  intros Hlisten st. subst st. unfold WaitForEvent.waitForEvent.
  rewrite Hlisten. cbn [aborted pendingSignal].
  destruct during as [|args during].
  - destruct evs as [|ev evs]; [done|].
    change (WaitForEvent.run ?s (ev :: evs))
      with (WaitForEvent.run (WaitForEvent.step s ev) evs).
    set (st1 := WaitForEvent.step _ ev).
    destruct (waitForEvent_run_idle st1 evs) as (Hr & Hp & Hl & Hu & _);
      [by destruct ev|by destruct ev|].
    rewrite Hr, Hp, Hl, Hu. by destruct ev.
  - set (st0 := WaitForEvent.mkState _ _ _ _ _ _).
    assert (Execute.promise (WaitForEvent.execution st0)
            = Some (Fulfilled (WaitForEvent.payload args)) ∧
            listening (Execute.signal (WaitForEvent.execution st0)) = false)
      as [Hp0 Hl0].
    { unfold st0. cbn [WaitForEvent.execution fmap list_fmap].
      destruct (execute_synchronous_init Execute.NoAction
                  (Execute.CallResolve (WaitForEvent.payload args))
                  ((λ a, Execute.CallResolve (WaitForEvent.payload a)) <$> during))
        as (Hp & [_ Hl] & _).
      split; [exact Hp|exact Hl]. }
    destruct (waitForEvent_run_idle st0 evs) as (Hr & Hp & Hl & Hu & _);
      [done|exact Hl0|].
    rewrite Hr, Hp, Hl, Hu. by destruct evs.
Qed.

End WaitForEventFacts.

(** X8, witness: an emitter with [on] and [off] emits the event with two
    arguments, then once more, then the signal is aborted. *)
Lemma waitForEvent_first_event_decides_witness :
  let target := WaitForEvent.mkTarget false false true true false false in
  let st := WaitForEvent.run (WaitForEvent.waitForEvent pendingSignal target [])
              [WaitForEvent.Emit [Num 1; Num 2]; WaitForEvent.Emit [Num 3];
               WaitForEvent.Abort] in
  WaitForEvent.listen target = Some WaitForEvent.OnOff ∧
  Execute.promise (WaitForEvent.execution st)
  = Some (Fulfilled (WaitForEvent.Several [Num 1; Num 2])) ∧
  WaitForEvent.unlistenCalls st = 1.
Proof.
  intros target st.
  assert (WaitForEvent.listen target = Some WaitForEvent.OnOff) as H by reflexivity.
  split; [exact H|].
  destruct (waitForEvent_first_event_decides target WaitForEvent.OnOff []
              [WaitForEvent.Emit [Num 1; Num 2]; WaitForEvent.Emit [Num 3];
               WaitForEvent.Abort] H) as (_ & Hp & _ & Hu).
  split; [exact Hp|exact Hu].
Defined.

(** X7, witness: an object with [addEventListener] only. *)
Lemma waitForEvent_invalid_target_witness :
  let target := WaitForEvent.mkTarget true false false false false false in
  Execute.promise
    (WaitForEvent.execution
       (WaitForEvent.run (WaitForEvent.waitForEvent pendingSignal target [])
          [WaitForEvent.Emit [Num 1]; WaitForEvent.Abort]))
  = Some (Rejected (Error "Invalid event target")).
Proof.
  intros target.
  apply (waitForEvent_invalid_target target []
           [WaitForEvent.Emit [Num 1]; WaitForEvent.Abort]); reflexivity.
Defined.

Section AbortableForwarding.
Context {T : Type}.
Implicit Types (st : Abortable.State T) (ev : Abortable.Event T).

Lemma abortable_step_handlers st ev :
  Abortable.handlers st = [Abortable.Forward] →
  Abortable.unhandledRejection st = false →
  Abortable.handlers (Abortable.step st ev) = [Abortable.Forward] ∧
  Abortable.unhandledRejection (Abortable.step st ev) = false.
Proof.
  intros Hh Hu. destruct ev as [r|]; cbn [Abortable.step]; [|done].
  destruct (Abortable.underlying st); [done|]. simpl. rewrite Hh. by destruct r.
Qed.

Lemma abortable_step_settled st ev o :
  Execute.promise (Abortable.execution st) = Some o →
  Execute.promise (Abortable.execution (Abortable.step st ev)) = Some o.
Proof.
  intros Hp. destruct ev as [r|]; cbn [Abortable.step].
  - destruct (Abortable.underlying st); [done|]. cbn [Abortable.execution].
    revert Hp. generalize (Abortable.execution st).
    induction (Abortable.handlers st) as [|h hs IH]; intros e Hp; [done|].
    cbn [foldl]. apply IH. destruct h; [done|].
    apply (execute_step_settled e (Execute.Complete (Abortable.completion r)) o Hp).
  - by apply execute_step_settled.
Qed.

(** X9.  [abortable signal promise] on a signal that is not aborted settles
    like the wrapped promise when that settles before the signal fires, and
    rejects with [AbortError] when the signal fires first; what comes later
    changes nothing.  The wrapped promise always has the forwarding handlers
    attached, so its rejection is never reported as unhandled, also when it
    arrives after the abort. *)
Theorem abortable_first_event_decides (evs : list (Abortable.Event T)) :
  let st := Abortable.run (Abortable.abortable pendingSignal) evs in
  Execute.promise (Abortable.execution st)
  = match evs with
    | [] => None
    | Abortable.Settles r :: _ => Some r
    | Abortable.Abort :: _ => Some (Rejected AbortError)
    end ∧
  Abortable.unhandledRejection st = false ∧
  Execute.callbackCalls (Abortable.execution st)
  = match evs with Abortable.Abort :: _ => 1 | _ => 0 end.
Proof.
  intros st.
  assert (Abortable.handlers st = [Abortable.Forward] ∧
          Abortable.unhandledRejection st = false) as [_ Hu].
  { subst st. induction evs as [|ev evs IH] using rev_ind; [done|].
    unfold Abortable.run in *. rewrite foldl_app. cbn [foldl].
    destruct IH as [Hh Hu]. by apply abortable_step_handlers. }
  split; [|split; [exact Hu|]]; subst st; clear Hu.
  - destruct evs as [|ev evs]; [done|].
    change (Abortable.run ?s (ev :: evs))
      with (Abortable.run (Abortable.step s ev) evs).
    set (st1 := Abortable.step _ ev).
    assert (∀ o, Execute.promise (Abortable.execution st1) = Some o →
                 Execute.promise (Abortable.execution (Abortable.run st1 evs)) = Some o)
      as Hkeep.
    { intros o. generalize st1. induction evs as [|ev' evs IH]; intros s Hp; [done|].
      apply (IH (Abortable.step s ev')). by apply abortable_step_settled. }
    destruct ev as [[v|reason]|]; by apply Hkeep.
  - assert (∀ (s : Abortable.State T) evs,
              executeDetached (Abortable.execution s) →
              Execute.callbackCalls (Abortable.execution (Abortable.run s evs))
              = Execute.callbackCalls (Abortable.execution s)) as Hkeep.
    { intros s evs'. revert s. induction evs' as [|ev' evs' IH]; intros s Hd; [done|].
      change (Abortable.run s (ev' :: evs'))
        with (Abortable.run (Abortable.step s ev') evs').
      assert (executeDetached (Abortable.execution (Abortable.step s ev')) ∧
              Execute.callbackCalls (Abortable.execution (Abortable.step s ev'))
              = Execute.callbackCalls (Abortable.execution s)) as [Hd' <-];
        [|by apply IH].
      destruct ev' as [r|]; cbn [Abortable.step].
      - destruct (Abortable.underlying s); [done|]. cbn [Abortable.execution].
        revert Hd. generalize (Abortable.execution s).
        induction (Abortable.handlers s) as [|h hs IHh]; intros e Hd; [done|].
        cbn [foldl].
        destruct h; cbn [Abortable.runHandler]; [by apply IHh|].
        destruct (execute_step_detached e (Execute.Complete (Abortable.completion r)) Hd)
          as (Hd' & Hc' & _).
        cbn [Execute.step] in Hd', Hc'. rewrite <- Hc'. by apply IHh.
      - destruct (execute_step_detached (Abortable.execution s) Execute.Abort Hd)
          as (Hd' & Hc' & _).
        done. }
    destruct evs as [|ev evs]; [done|].
    change (Abortable.run ?s (ev :: evs))
      with (Abortable.run (Abortable.step s ev) evs).
    rewrite Hkeep; [by destruct ev as [[v|reason]|]|].
    by destruct ev as [[v|reason]|].
Qed.

End AbortableForwarding.

(** ** all and race: waiting for the inputs, aborting the inner signal *)

Section CombinatorsWait.
Context {T : Type}.

(** X10.  [all] on [n > 0] inputs settles exactly when the [n]-th settlement
    of an input has been handled, not before: it waits for every input, also
    after one of them has rejected and also after the signal has fired. *)
Theorem all_waits_for_every_input (n : nat) (evs : list (All.Event T)) :
  n ≠ 0 →
  let st := All.run (All.all pendingSignal n) evs in
  (length (All.settlers evs) < n → All.promise st = None) ∧
  (n ≤ length (All.settlers evs) → is_Some (All.promise st)).
Proof.
  intros Hn st.
  destruct (all_subscription_run n evs Hn) as [_ Hsub]. fold st in Hsub.
  destruct (all_run_variables (All.all pendingSignal n) evs) as (Hl & Hc & _).
  fold st in Hl, Hc.
  assert (All.length st = n ∧ All.settledCount st = length (All.settlers evs))
    as [Hl' Hc'].
  { rewrite Hl, Hc. by destruct n. }
  rewrite Hl', Hc' in Hsub.
  destruct (All.promise st) as [o|]; split; intros H; first [done | lia | by eexists].
Qed.

Lemma all_step_inner_aborted (st : All.State T) ev :
  All.innerAborted st = true → All.innerAborted (All.step st ev) = true.
Proof.
  intros Hi. destruct ev as [i [v|reason]|]; cbn [All.step].
  - unfold All.onFulfilled, All.settled; cbn [All.settledCount All.length].
    by destruct (Nat.eqb _ _).
  - unfold All.onRejected, All.settled; cbn [All.settledCount All.length].
    by destruct (Nat.eqb _ _).
  - destruct (abort (All.signal st)) as [sig [|]]; done.
Qed.

Lemma all_run_inner_aborted (st : All.State T) evs :
  All.innerAborted st = true → All.innerAborted (All.run st evs) = true.
Proof.
  revert st. induction evs as [|ev evs IH]; intros st Hi; [done|].
  rewrite all_run_cons. by apply IH, all_step_inner_aborted.
Qed.

(** While the promise of [all] is pending its listener is on the signal, and
    the inner signal is aborted if the outer one is. *)
Lemma all_run_listening (n : nat) (evs : list (All.Event T)) :
  n ≠ 0 →
  let st := All.run (All.all pendingSignal n) evs in
  All.promise st = None →
  listening (All.signal st) = true ∧
  (aborted (All.signal st) = true → All.innerAborted st = true).
Proof.
  intros Hn. induction evs as [|ev evs IH] using rev_ind.
  - by destruct n.
  - rewrite all_run_app. cbn [All.run foldl].
    set (st := All.run _ evs) in *. clearbody st. cbn zeta in IH.
    destruct ev as [i [v|reason]|]; cbn [All.step].
    + unfold All.onFulfilled, All.settled; cbn [All.settledCount All.length].
      destruct (Nat.eqb _ _); simpl; [by destruct (All.promise st)|done].
    + unfold All.onRejected, All.settled; cbn [All.settledCount All.length].
      destruct (Nat.eqb _ _); simpl; [by destruct (All.promise st)|].
      intros Hp. by destruct (IH Hp).
    + unfold abort. destruct (aborted (All.signal st)) eqn:Ha.
      * simpl. intros Hp. destruct (IH Hp) as [Hl Hi]. rewrite Ha. by split.
      * destruct (listening (All.signal st)) eqn:Hl; simpl; [done|].
        intros Hp. destruct (IH Hp). congruence.
Qed.

(** X11.  [all] aborts the inner signal, the one its inputs run on, as soon
    as an input rejects and as soon as the outer signal fires while inputs
    are outstanding; as long as inputs only fulfil and the outer signal does
    not fire, the inner signal is not aborted. *)
Theorem all_aborts_inner_signal (n : nat) (evs : list (All.Event T)) :
  n ≠ 0 →
  let st := All.run (All.all pendingSignal n) evs in
  (All.rejections evs ≠ [] → All.innerAborted st = true) ∧
  (∀ pre post, evs = pre ++ All.Abort :: post → length (All.settlers pre) < n →
               All.innerAborted st = true) ∧
  (All.rejections evs = [] → All.Abort ∉ evs → All.innerAborted st = false).
Proof.
  intros Hn st. subst st. split_and!.
  - generalize (All.all (T := T) pendingSignal n).
    induction evs as [|ev evs IH]; intros st Hrej; [done|].
    rewrite all_run_cons.
    destruct ev as [i [v|reason]|].
    + by apply IH.
    + apply all_run_inner_aborted. cbn [All.step].
      unfold All.onRejected, All.settled; cbn [All.settledCount All.length].
      by destruct (Nat.eqb _ _).
    + by apply IH.
  - intros pre post -> Hlt.
    rewrite all_run_app, all_run_cons. apply all_run_inner_aborted.
    set (st := All.run _ pre).
    assert (All.promise st = None) as Hp.
    { destruct (all_subscription_run n pre Hn) as [_ Hsub]. fold st in Hsub.
      destruct (all_run_variables (All.all pendingSignal n) pre) as (Hl & Hc & _).
      fold st in Hl, Hc.
      destruct (All.promise st); [|done].
      assert (All.length (All.all (T := T) pendingSignal n) = n) as Hn'
        by (by destruct n).
      assert (All.settledCount (All.all (T := T) pendingSignal n) = 0) as Hc'
        by (by destruct n).
      lia. }
    destruct (all_run_listening n pre Hn Hp) as [Hl Ha]. fold st in Hl, Ha.
    cbn [All.step]. unfold abort.
    destruct (aborted (All.signal st)); [by apply Ha|]. by rewrite Hl.
  - assert (All.innerAborted (All.all (T := T) pendingSignal n) = false) as H0
      by (by destruct n).
    revert H0. generalize (All.all (T := T) pendingSignal n).
    induction evs as [|ev evs IH]; intros st H0 Hrej Habort; [done|].
    rewrite all_run_cons.
    destruct ev as [i [v|reason]|].
    + apply IH; [|done|by intros ?; apply Habort; right].
      cbn [All.step].
      unfold All.onFulfilled, All.settled; cbn [All.settledCount All.length].
      by destruct (Nat.eqb _ _).
    + done.
    + exfalso. apply Habort. by left.
Qed.

(** X12.  [race] on [n > 0] inputs settles exactly when the [n]-th settlement
    of an input has been handled: the first input to settle decides nothing
    until all the others have settled too. *)
Theorem race_waits_for_every_input (n : nat) (evs : list (Race.Event T)) :
  n ≠ 0 →
  let st := Race.run (Race.race pendingSignal n) evs in
  (length (Race.settlers evs) < n → Race.promise st = None) ∧
  (n ≤ length (Race.settlers evs) → is_Some (Race.promise st)).
Proof.
  intros Hn st.
  destruct (race_subscription_run n evs) as [_ Hsub]. fold st in Hsub.
  destruct (race_run_variables (Race.race pendingSignal n) evs) as (Hl & Hc & _).
  fold st in Hl, Hc. simpl in Hl, Hc. rewrite Hl, Hc in Hsub.
  destruct (Race.promise st) as [o|]; split; intros H; first [done | lia | by eexists].
Qed.

Lemma race_step_inner_aborted (st : Race.State T) ev :
  Race.innerAborted st = true ∨ listening (Race.signal st) = true ∧
                                 aborted (Race.signal st) = false →
  Race.innerAborted (Race.step st ev) = true.
Proof.
  intros Hi. destruct ev as [i [v|reason]|]; cbn [Race.step].
  - unfold Race.onFulfilled, Race.settled; cbn [Race.settledCount Race.length].
    by destruct (Nat.eqb _ _).
  - unfold Race.onRejected, Race.settled; cbn [Race.settledCount Race.length].
    by destruct (Nat.eqb _ _).
  - unfold abort. destruct Hi as [Hi|[Hl Ha]].
    + by destruct (aborted (Race.signal st)), (listening (Race.signal st)).
    + by rewrite Ha, Hl.
Qed.

(** X13.  [race] aborts the inner signal, the one its inputs run on, at the
    first thing that happens: the first input to settle, however it settles,
    or an abort of the outer signal. *)
Theorem race_aborts_inner_signal (n : nat) (evs : list (Race.Event T)) :
  Race.innerAborted (Race.run (Race.race pendingSignal n) evs)
  = negb (bool_decide (evs = [])).
Proof.
  destruct evs as [|ev evs]; [done|].
  rewrite race_run_cons, bool_decide_false by done. cbn [negb].
  assert (Race.innerAborted (Race.step (Race.race pendingSignal n) ev) = true) as H0
    by (apply race_step_inner_aborted; by right).
  revert H0. generalize (Race.step (Race.race pendingSignal n) ev).
  induction evs as [|ev' evs IH]; intros st Hi; [done|].
  rewrite race_run_cons. apply IH, race_step_inner_aborted. by left.
Qed.

Lemma race_step_no_inputs (st : Race.State T) ev :
  Race.length st = 0 →
  Race.length (Race.step st ev) = 0 ∧
  Race.promise (Race.step st ev) = Race.promise st.
Proof.
  intros Hl. destruct ev as [i [v|reason]|]; cbn [Race.step].
  - unfold Race.onFulfilled, Race.settled; cbn [Race.settledCount Race.length].
    by rewrite Hl.
  - unfold Race.onRejected, Race.settled; cbn [Race.settledCount Race.length].
    by rewrite Hl.
  - by destruct (abort (Race.signal st)) as [sig [|]].
Qed.

(** X14.  [race] on no inputs never settles, not even when the signal fires,
    and never removes the listener it registered: unlike [all], it has no
    case for the empty list. *)
Theorem race_of_nothing_never_settles (evs : list (Race.Event T)) :
  let st := Race.run (Race.race pendingSignal 0) evs in
  Race.promise st = None ∧
  addCalls (Race.signal st) = 1 ∧
  removeCalls (Race.signal st) = 0.
Proof.
  intros st.
  destruct (race_fast_path_run (Race.race (T := T) pendingSignal 0) evs) as [Ha Hr];
    [done|].
  fold st in Ha, Hr. rewrite Ha, Hr. split; [|done].
  subst st. clear Ha Hr.
  assert (Race.length (Race.race (T := T) pendingSignal 0) = 0) as Hl by done.
  assert (Race.promise (Race.race (T := T) pendingSignal 0) = None) as Hp by done.
  revert Hl Hp. generalize (Race.race (T := T) pendingSignal 0).
  induction evs as [|ev evs IH]; intros st Hl Hp; [done|].
  rewrite race_run_cons. destruct (race_step_no_inputs st ev Hl) as [Hl' Hp'].
  apply IH; [done|]. by rewrite Hp'.
Qed.

End CombinatorsWait.

(** X10, witness: two inputs, the first rejects, the signal fires, the second
    fulfils. *)
Lemma all_waits_for_every_input_witness :
  All.promise (All.run (All.all (T := Z) pendingSignal 2)
                 [All.Settles 0 (Rejected (Str "boom")); All.Abort]) = None ∧
  is_Some (All.promise (All.run (All.all (T := Z) pendingSignal 2)
                          [All.Settles 0 (Rejected (Str "boom")); All.Abort;
                           All.Settles 1 (Fulfilled 7%Z)])).
Proof.
  split.
  - apply (all_waits_for_every_input 2
             [All.Settles 0 (Rejected (Str "boom")); All.Abort]); [lia|simpl; lia].
  - apply (all_waits_for_every_input 2
             [All.Settles 0 (Rejected (Str "boom")); All.Abort;
              All.Settles 1 (Fulfilled 7%Z)]); [lia|simpl; lia].
Defined.

(** X11, witness: of three inputs the second rejects. *)
Lemma all_aborts_inner_signal_witness :
  All.innerAborted
    (All.run (All.all (T := Z) pendingSignal 3)
       [All.Settles 0 (Fulfilled 1%Z); All.Settles 1 (Rejected (Str "boom"))])
  = true.
Proof.
  apply (all_aborts_inner_signal 3
           [All.Settles 0 (Fulfilled 1%Z); All.Settles 1 (Rejected (Str "boom"))]);
    [lia|done].
Defined.

(** X12, witness: two inputs, the first fulfils, then the second rejects. *)
Lemma race_waits_for_every_input_witness :
  Race.promise (Race.run (Race.race (T := Z) pendingSignal 2)
                  [Race.Settles 0 (Fulfilled 7%Z)]) = None ∧
  is_Some (Race.promise (Race.run (Race.race (T := Z) pendingSignal 2)
                           [Race.Settles 0 (Fulfilled 7%Z);
                            Race.Settles 1 (Rejected AbortError)])).
Proof.
  split.
  - apply (race_waits_for_every_input 2 [Race.Settles 0 (Fulfilled 7%Z)]);
      [lia|simpl; lia].
  - apply (race_waits_for_every_input 2
             [Race.Settles 0 (Fulfilled 7%Z); Race.Settles 1 (Rejected AbortError)]);
      [lia|simpl; lia].
Defined.

(** ** spawn: how aborts reach the tasks *)

Section SpawnCancellation.
Implicit Types (st : Spawn.State) (ev : Spawn.Event) (evs : list Spawn.Event).












End SpawnCancellation.



(** ** spawn: deferred functions registered too late *)

Section SpawnLateDefer.
Implicit Types (st : Spawn.State) (ev : Spawn.Event) (evs : list Spawn.Event).




End SpawnLateDefer.


(** ** spawn: aborting a task by hand *)

Section SpawnTaskAbort.
Implicit Types (st : Spawn.State) (ev : Spawn.Event) (evs : list Spawn.Event).
Implicit Types (ids : gset nat).

Lemma spawn_mark_abortSpawn ids st :
  Spawn.abortSpawn (spawnMarkAborted ids st) = spawnMarkAborted ids (Spawn.abortSpawn st).
Proof.
  unfold Spawn.abortSpawn, abort, spawnMarkAborted. simpl.
  destruct (aborted (Spawn.spawnSignal st)); [done|].
  destruct (listening (Spawn.spawnSignal st)); [|done].
  unfold Spawn.abortTasks, Spawn.setAbortedTasks; simpl. f_equal.
  apply leibniz_equiv. intros x. rewrite !elem_of_union. tauto.
Qed.

Lemma spawn_mark_onTaskSettled ids id r st :
  Spawn.onTaskSettled id r (spawnMarkAborted ids st)
  = spawnMarkAborted ids (Spawn.onTaskSettled id r st).
Proof.
  assert (∀ s v, Spawn.setResult v (spawnMarkAborted ids s)
                 = spawnMarkAborted ids (Spawn.setResult v s)) as Hres by done.
  assert (∀ s e, Spawn.setFailure e (spawnMarkAborted ids s)
                 = spawnMarkAborted ids (Spawn.setFailure e s)) as Hfail by done.
  assert (∀ s, Spawn.onRootSettled r (spawnMarkAborted ids s)
               = spawnMarkAborted ids (Spawn.onRootSettled r s)) as Hroot.
  { intros s. destruct r as [v|error]; cbn [Spawn.onRootSettled].
    - by rewrite spawn_mark_abortSpawn, Hres.
    - rewrite spawn_mark_abortSpawn.
      change (Spawn.failure (spawnMarkAborted ids (Spawn.abortSpawn s)))
        with (Spawn.failure (Spawn.abortSpawn s)).
      destruct (_ || _); [by rewrite Hfail|done]. }
  assert (∀ s, Spawn.onTaskFailure r (spawnMarkAborted ids s)
               = spawnMarkAborted ids (Spawn.onTaskFailure r s)) as Hcatch.
  { intros s. destruct r as [v|error]; cbn [Spawn.onTaskFailure]; [done|].
    destruct (catchAbortError error); [done|].
    by rewrite Hfail, spawn_mark_abortSpawn. }
  assert (∀ s, Spawn.onTaskFinally id (spawnMarkAborted ids s)
               = spawnMarkAborted ids (Spawn.onTaskFinally id s)) as Hfinally.
  { intros s. unfold Spawn.onTaskFinally. cbn zeta.
    change (Spawn.tasks (Spawn.setTasks ?t (spawnMarkAborted ids s))) with t.
    change (Spawn.tasks (Spawn.setTasks ?t s)) with t.
    change (Spawn.tasks (spawnMarkAborted ids s)) with (Spawn.tasks s).
    destruct (Nat.eqb _ _); [|done].
    change (Spawn.failure (Spawn.setTasks ?t (spawnMarkAborted ids s)))
      with (Spawn.failure s).
    change (Spawn.result (Spawn.setTasks ?t (spawnMarkAborted ids s)))
      with (Spawn.result s).
    change (Spawn.failure (Spawn.setTasks ?t s)) with (Spawn.failure s).
    change (Spawn.result (Spawn.setTasks ?t s)) with (Spawn.result s).
    destruct (Spawn.failure s), (Spawn.result s); try done;
      unfold Spawn.settlePromise; simpl; by destruct (Spawn.promise s). }
  unfold Spawn.onTaskSettled.
  destruct (Nat.eqb id Spawn.root); by rewrite ?Hroot, Hcatch, Hfinally.
Qed.

(** Every event other than a call of [abort] on a task treats the set of
    aborted tasks as a log it only adds to. *)
Lemma spawn_mark_step ids st ev :
  spawnIsTaskAbort ev = false →
  Spawn.step (spawnMarkAborted ids st) ev = spawnMarkAborted ids (Spawn.step st ev).
Proof.
  intros Hev. destruct ev as [|fn|t| |id r|r]; cbn [Spawn.step]; [| |done| | |].
  - unfold Spawn.fork. simpl. by destruct (aborted (Spawn.spawnSignal st)).
  - done.
  - change (Spawn.signal (spawnMarkAborted ids st)) with (Spawn.signal st).
    destruct (abort (Spawn.signal st)) as [sig [|]]; [|done].
    apply (spawn_mark_abortSpawn ids (Spawn.setSignal sig st)).
  - change (Spawn.tasks (spawnMarkAborted ids st)) with (Spawn.tasks st).
    destruct (bool_decide _); [|done]. apply spawn_mark_onTaskSettled.
  - unfold Spawn.onDeferredSettled. simpl. by destruct (Spawn.deferQueue st).
Qed.

Lemma spawn_mark_mark ids ids' st :
  spawnMarkAborted ids (spawnMarkAborted ids' st) = spawnMarkAborted (ids' ∪ ids) st.
Proof.
  unfold spawnMarkAborted, Spawn.setAbortedTasks; simpl. f_equal.
  apply leibniz_equiv. intros x. rewrite !elem_of_union. tauto.
Qed.

Lemma spawn_mark_run ids st evs :
  Spawn.run (spawnMarkAborted ids st) evs
  = spawnMarkAborted (ids ∪ spawnHandAborted evs)
      (Spawn.run st (spawnWithoutTaskAborts evs)).
Proof.
  revert ids st. induction evs as [|ev evs IH]; intros ids st.
  - simpl. by rewrite (right_id_L ∅ (∪)).
  - rewrite spawn_run_cons. destruct (spawnIsTaskAbort ev) eqn:Hev.
    + destruct ev as [|fn|t| |id r|r]; try done.
      change (spawnWithoutTaskAborts (Spawn.TaskAbort t :: evs))
        with (spawnWithoutTaskAborts evs).
      destruct t as [|id]; cbn [Spawn.step Spawn.taskAbort spawnHandAborted foldr].
      * apply IH.
      * assert (Spawn.setAbortedTasks
                  ({[id]} ∪ Spawn.abortedTasks (spawnMarkAborted ids st))
                  (spawnMarkAborted ids st)
                = spawnMarkAborted (ids ∪ {[id]}) st) as ->.
        { unfold spawnMarkAborted, Spawn.setAbortedTasks; simpl. f_equal.
          apply leibniz_equiv. intros x. rewrite !elem_of_union. tauto. }
        rewrite IH. f_equal. fold (spawnHandAborted evs).
        apply leibniz_equiv. intros x. rewrite !elem_of_union. tauto.
    + rewrite (spawn_mark_step ids st ev Hev), IH.
      assert (spawnWithoutTaskAborts (ev :: evs) = ev :: spawnWithoutTaskAborts evs) as ->.
      { unfold spawnWithoutTaskAborts. simpl. by rewrite Hev. }
      rewrite spawn_run_cons. by destruct ev.
Qed.

(** X18.  Calling [abort] on tasks by hand does nothing but abort the signals
    of those tasks: the state reached is the one reached without those calls,
    with these signals aborted in addition.  In particular the calls never
    abort another task, nor the spawn signal, and change nothing about the
    settlement of [spawn]. *)
Theorem spawn_task_abort_only_marks (evs : list Spawn.Event) :
  Spawn.run (Spawn.spawn pendingSignal) evs
  = spawnMarkAborted (spawnHandAborted evs)
      (Spawn.run (Spawn.spawn pendingSignal) (spawnWithoutTaskAborts evs)).
Proof.
  assert (Spawn.spawn pendingSignal = spawnMarkAborted ∅ (Spawn.spawn pendingSignal))
    as Hinit.
  { unfold spawnMarkAborted, Spawn.setAbortedTasks; simpl. by f_equal. }
  rewrite Hinit at 1. rewrite spawn_mark_run. by rewrite (left_id_L ∅ (∪)).
Qed.


End SpawnTaskAbort.

(** ** retry: the loop *)

Section RetryLoop.
Context {T : Type}.
Implicit Types (a : Retry.Attempt T) (script fails rest : list (Retry.Attempt T)).
#[local] Open Scope Q_scope.

Lemma retry_iteration_decides opts (k : Z) a :
  retryDecides a = true →
  Retry.iteration opts k a
  = match Retry.returns a with
    | Fulfilled v => Retry.Return v
    | Rejected error => Retry.Throw error
    end.
Proof.
  unfold retryDecides, Retry.iteration, rethrowAbortError.
  destruct (Retry.returns a) as [v|error]; [done|]. by intros ->.
Qed.

Lemma retry_iteration_fails opts (k : Z) a :
  retryFails a = true →
  Retry.exhausted (if Retry.resets a then (-1)%Z else k) opts = false →
  Retry.iteration opts k a
  = Retry.Continue ((if Retry.resets a then (-1)%Z else k) + 1)%Z
      (Retry.delayMs opts (if Retry.resets a then (-1)%Z else k) (Retry.random a)).
Proof.
  unfold retryFails, Retry.iteration, rethrowAbortError, genuine.
  intros Hf Hex.
  destruct (Retry.returns a) as [v|error]; [done|].
  destruct (isAbortError error); [done|].
  rewrite Hex.
  destruct (Retry.onErrorThrows a); [done|].
  destruct (Retry.delay a); [|by rewrite andb_false_r in Hf].
  by destruct (Z.eqb _ 0).
Qed.

(** X20.  Without a bound on the attempts, [retry] goes on for as long as
    attempts fail with errors other than [AbortError] (and [onError] returns,
    and the signal does not fire during a delay), computing one delay per
    failure.  It ends with the first attempt that fulfils, with its value, or
    that fails with an [AbortError], with that error: an [AbortError] is never
    retried. *)
Theorem retry_until_decided (opts : Retry.RetryOptions) fails a rest :
  Retry.maxAttempts opts = None →
  forallb retryFails fails = true →
  retryDecides a = true →
  (Retry.retry opts (fails ++ a :: rest)).2 = Some (Retry.returns a) ∧
  length (Retry.retry opts (fails ++ a :: rest)).1 = length fails.
Proof.
  intros Hmax Hfails Hdec. unfold Retry.retry. generalize 0%Z.
  induction fails as [|f fails IH]; intros k.
  - cbn [app Retry.loop]. rewrite (retry_iteration_decides opts k a Hdec).
    by destruct (Retry.returns a).
  - cbn [forallb] in Hfails. apply andb_true_iff in Hfails as [Hf Hfails].
    cbn [app Retry.loop]. rewrite (retry_iteration_fails opts k f Hf).
    2:{ unfold Retry.exhausted. by rewrite Hmax. }
    destruct (IH Hfails ((if Retry.resets f then (-1)%Z else k) + 1)%Z) as [Hr Hl].
    destruct (Retry.loop opts _ (fails ++ a :: rest)) as [ds r]. simpl in *.
    by rewrite Hr, Hl.
Qed.

(** X21.  With [maxAttempts = m] and attempts that do not call [reset],
    [retry] gives up when the attempt numbered [m] has failed, that is after
    [m + 1] calls of [fn] and [m] delays, and rejects with the error of that
    last call; until then it is pending. *)
Theorem retry_attempt_budget (opts : Retry.RetryOptions) (m : nat) script :
  Retry.maxAttempts opts = Some (inject_Z (Z.of_nat m)) →
  forallb (λ a, retryFails a && negb (Retry.resets a)) script = true →
  (Retry.retry opts script).2 = Retry.returns <$> script !! m ∧
  length (Retry.retry opts script).1 = Nat.min (length script) m.
Proof.
  intros Hmax Hfails. unfold Retry.retry.
  assert (∀ (k : nat) script,
    k ≤ m →
    forallb (λ a, retryFails a && negb (Retry.resets a)) script = true →
    (Retry.loop opts (Z.of_nat k) script).2 = Retry.returns <$> script !! (m - k)%nat ∧
    length (Retry.loop opts (Z.of_nat k) script).1 = Nat.min (length script) (m - k))
    as Hloop.
  { clear script Hfails. intros k script. revert k.
    induction script as [|a script IH]; intros k Hk Hfails; [done|].
    cbn [forallb] in Hfails. apply andb_true_iff in Hfails as [Ha Hfails].
    apply andb_true_iff in Ha as [Hf Hr]. apply negb_true_iff in Hr.
    cbn [Retry.loop].
    destruct (decide (k = m)) as [->|Hne].
    - assert (Retry.iteration opts (Z.of_nat m) a
              = match Retry.returns a with
                | Fulfilled v => Retry.Return v
                | Rejected error => Retry.Throw error
                end) as ->.
      { revert Hf. unfold retryFails, Retry.iteration, rethrowAbortError, genuine.
        rewrite Hr. destruct (Retry.returns a) as [v|error]; [done|].
        destruct (isAbortError error); [done|]. intros _.
        unfold Retry.exhausted. rewrite Hmax.
        assert (Qle_bool (inject_Z (Z.of_nat m)) (inject_Z (Z.of_nat m)) = true) as ->;
          [|done].
        apply Qle_bool_iff. apply Qle_refl. }
      rewrite Nat.sub_diag. cbn [lookup list_lookup fmap option_fmap option_map].
      destruct (Retry.returns a); simpl; split; first [done | lia].
    - rewrite (retry_iteration_fails opts (Z.of_nat k) a Hf).
      2:{ rewrite Hr. unfold Retry.exhausted. rewrite Hmax.
          destruct (Qle_bool _ _) eqn:Hle; [|done].
          apply Qle_bool_iff in Hle. rewrite <- Zle_Qle in Hle. lia. }
      rewrite Hr.
      replace (Z.of_nat k + 1)%Z with (Z.of_nat (S k)) by lia.
      destruct (IH (S k)) as [Hres Hlen]; [lia|done|].
      destruct (Retry.loop opts (Z.of_nat (S k)) script) as [ds r]. simpl in *.
      replace (m - k)%nat with (S (m - S k)) by lia.
      cbn [lookup list_lookup]. split; [exact Hres|]. rewrite Hlen. lia. }
  destruct (Hloop 0%nat script) as [Hres Hlen]; [lia|done|].
  rewrite Nat.sub_0_r in Hres, Hlen. done.
Qed.




End RetryLoop.

(** X20, witness: two failures, the second after a call of [reset], then an
    [AbortError]. *)
Lemma retry_until_decided_witness :
  (Retry.retry (T := Z) Retry.defaults
     ([Retry.mkAttempt false (Rejected (Str "a")) (1 # 2) None (Fulfilled tt);
       Retry.mkAttempt true (Rejected (Str "b")) (1 # 2) None (Fulfilled tt)] ++
      Retry.mkAttempt false (Rejected AbortError) 0 None (Fulfilled tt) :: [])).2
  = Some (Rejected AbortError).
Proof.
  apply (retry_until_decided (T := Z) Retry.defaults
           [Retry.mkAttempt false (Rejected (Str "a")) (1 # 2) None (Fulfilled tt);
            Retry.mkAttempt true (Rejected (Str "b")) (1 # 2) None (Fulfilled tt)]
           (Retry.mkAttempt false (Rejected AbortError) 0 None (Fulfilled tt)) []);
    reflexivity.
Defined.

(** X21, witness: [maxAttempts = 1] and three failing calls on offer. *)
Lemma retry_attempt_budget_witness :
  (Retry.retry (T := Z) (Retry.mkOptions 1000 30000 (Some (inject_Z (Z.of_nat 1))))
     [Retry.mkAttempt false (Rejected (Str "a")) 0 None (Fulfilled tt);
      Retry.mkAttempt false (Rejected (Str "b")) 0 None (Fulfilled tt);
      Retry.mkAttempt false (Rejected (Str "c")) 0 None (Fulfilled tt)]).2
  = Some (Rejected (Str "b")).
Proof.
  apply (retry_attempt_budget (T := Z)
           (Retry.mkOptions 1000 30000 (Some (inject_Z (Z.of_nat 1)))) 1
           [Retry.mkAttempt false (Rejected (Str "a")) 0 None (Fulfilled tt);
            Retry.mkAttempt false (Rejected (Str "b")) 0 None (Fulfilled tt);
            Retry.mkAttempt false (Rejected (Str "c")) 0 None (Fulfilled tt)]);
    reflexivity.
Defined.


(** ** proactiveRetry *)

Section ProactiveRetryFacts.
Context {T : Type}.
Implicit Types (st : ProactiveRetry.State T) (ev : ProactiveRetry.Event T).
Implicit Types (evs : list (ProactiveRetry.Event T)).
Implicit Types (opts : ProactiveRetry.ProactiveRetryOptions).

Lemma proactiveRetry_run_app opts st evs evs' :
  ProactiveRetry.run opts st (evs ++ evs')
  = ProactiveRetry.run opts (ProactiveRetry.run opts st evs) evs'.
Proof. apply foldl_app. Qed.

Lemma proactiveRetry_run_cons opts st ev evs :
  ProactiveRetry.run opts st (ev :: evs)
  = ProactiveRetry.run opts (ProactiveRetry.step opts st ev) evs.
Proof. reflexivity. Qed.

Lemma proactiveRetry_step_settled opts st ev o :
  Execute.promise (ProactiveRetry.execution st) = Some o →
  Execute.promise (ProactiveRetry.execution (ProactiveRetry.step opts st ev)) = Some o.
Proof.
  intros Hp.
  assert (∀ c, Execute.promise (Execute.complete c (ProactiveRetry.execution st))
               = Some o) as Hc.
  { intros c. apply (execute_step_settled _ (Execute.Complete c) o Hp). }
  destruct ev as [k [v|err] th|random|]; cbn [ProactiveRetry.step].
  - destruct (bool_decide _); [|done]. apply Hc.
  - destruct (bool_decide _); [|done].
    unfold ProactiveRetry.handleRejected. cbn zeta.
    cbn [ProactiveRetry.attemptsExhausted ProactiveRetry.setPromises
         ProactiveRetry.promises].
    destruct (_ && _); [apply Hc|].
    destruct (isAbortError err); [done|].
    destruct th; [apply Hc|done].
  - destruct (ProactiveRetry.waiting st); [|done].
    unfold ProactiveRetry.launch. by destruct (ProactiveRetry.lastAttempt _ _).
  - cbn zeta.
    pose proof (execute_step_settled (ProactiveRetry.execution st) Execute.Abort o Hp).
    by destruct (Nat.ltb _ _).
Qed.

Lemma proactiveRetry_run_settled opts st evs o :
  Execute.promise (ProactiveRetry.execution st) = Some o →
  Execute.promise (ProactiveRetry.execution (ProactiveRetry.run opts st evs)) = Some o.
Proof.
  revert st. induction evs as [|ev evs IH]; intros st Hp; [done|].
  rewrite proactiveRetry_run_cons. by apply IH, proactiveRetry_step_settled.
Qed.

(** Once [makeAttempts] has ended, [fn] is not called again, and the inner
    signal stays aborted. *)
Lemma proactiveRetry_step_stopped opts st ev :
  ProactiveRetry.waiting st = false →
  ProactiveRetry.waiting (ProactiveRetry.step opts st ev) = false ∧
  ProactiveRetry.calls (ProactiveRetry.step opts st ev) = ProactiveRetry.calls st ∧
  (ProactiveRetry.innerAborted st = true →
   ProactiveRetry.innerAborted (ProactiveRetry.step opts st ev) = true).
Proof.
  intros Hw. destruct ev as [k [v|err] th|random|]; cbn [ProactiveRetry.step].
  - by destruct (bool_decide _).
  - destruct (bool_decide _); [|done].
    unfold ProactiveRetry.handleRejected. cbn zeta.
    cbn [ProactiveRetry.attemptsExhausted ProactiveRetry.setPromises
         ProactiveRetry.promises].
    destruct (_ && _); [done|].
    destruct (isAbortError err); [done|].
    by destruct th.
  - by rewrite Hw.
  - cbn zeta. by destruct (Nat.ltb _ _).
Qed.

Lemma proactiveRetry_run_stopped opts st evs :
  ProactiveRetry.waiting st = false →
  ProactiveRetry.calls (ProactiveRetry.run opts st evs) = ProactiveRetry.calls st ∧
  (ProactiveRetry.innerAborted st = true →
   ProactiveRetry.innerAborted (ProactiveRetry.run opts st evs) = true).
Proof.
  revert st. induction evs as [|ev evs IH]; intros st Hw; [done|].
  rewrite proactiveRetry_run_cons.
  destruct (proactiveRetry_step_stopped opts st ev Hw) as (Hw' & <- & Hi).
  destruct (IH _ Hw') as [Hc Hi']. split; [done|]. intros Ha. by apply Hi', Hi.
Qed.

(** X23.  The first attempt of [proactiveRetry] to fulfil decides: the
    promise fulfils with its value, the inner signal, on which all attempts
    run, is aborted, and [fn] is not called again, whatever happens
    afterwards. *)
Theorem proactiveRetry_first_success opts (random : Q)
    (pre post : list (ProactiveRetry.Event T)) (k : nat) (v : T) (th : option value) :
  let st0 := ProactiveRetry.proactiveRetry opts pendingSignal random in
  let st := ProactiveRetry.run opts st0 pre in
  let st' := ProactiveRetry.run opts st0
               (pre ++ ProactiveRetry.AttemptSettles k (Fulfilled v) th :: post) in
  Execute.promise (ProactiveRetry.execution st) = None →
  k ∈ ProactiveRetry.unsettled st →
  Execute.promise (ProactiveRetry.execution st') = Some (Fulfilled v) ∧
  ProactiveRetry.innerAborted st' = true ∧
  ProactiveRetry.calls st' = ProactiveRetry.calls st.
Proof.
  intros st0 st st' Hp Hk. subst st'.
  rewrite proactiveRetry_run_app, proactiveRetry_run_cons. fold st.
  set (st1 := ProactiveRetry.step opts st _).
  assert (Execute.promise (ProactiveRetry.execution st1) = Some (Fulfilled v) ∧
          ProactiveRetry.innerAborted st1 = true ∧
          ProactiveRetry.waiting st1 = false ∧
          ProactiveRetry.calls st1 = ProactiveRetry.calls st) as (Hp1 & Hi1 & Hw1 & Hc1).
  { unfold st1. cbn [ProactiveRetry.step]. rewrite bool_decide_true by done.
    unfold ProactiveRetry.handleFulfilled. simpl.
    by rewrite execute_finish_promise; simpl; rewrite Hp. }
  destruct (proactiveRetry_run_stopped opts st1 post Hw1) as [Hc Hi].
  split; [by apply proactiveRetry_run_settled|]. split; [by apply Hi|]. by rewrite Hc.
Qed.

(** While the promise is pending the listener of [execute] is on the outer
    signal, which has not fired. *)
Lemma proactiveRetry_run_listening opts (random : Q) evs :
  let st := ProactiveRetry.run opts
              (ProactiveRetry.proactiveRetry opts pendingSignal random) evs in
  Execute.callback (ProactiveRetry.execution st) = Execute.NoAction ∧
  (Execute.promise (ProactiveRetry.execution st) = None →
   listening (Execute.signal (ProactiveRetry.execution st)) = true ∧
   aborted (Execute.signal (ProactiveRetry.execution st)) = false).
Proof.
  induction evs as [|ev evs IH] using rev_ind.
  - simpl. unfold ProactiveRetry.proactiveRetry, ProactiveRetry.launch. simpl.
    by destruct (ProactiveRetry.lastAttempt _ _).
  - rewrite proactiveRetry_run_app. cbn [ProactiveRetry.run foldl].
    set (st := ProactiveRetry.run _ _ evs) in *. clearbody st. cbn zeta in IH |- *.
    destruct IH as [Hcb Hl].
    assert (∀ c,
      let e := Execute.complete c (ProactiveRetry.execution st) in
      Execute.callback e = Execute.NoAction ∧
      (Execute.promise e = None →
       listening (Execute.signal e) = true ∧ aborted (Execute.signal e) = false))
      as Hc.
    { intros c. split.
      - destruct c; simpl; unfold Execute.finish; simpl;
          by destruct (Execute.finished _).
      - intros Hnone. exfalso.
        destruct (Execute.promise (ProactiveRetry.execution st)) as [o|] eqn:Hp.
        + pose proof (execute_step_settled _ (Execute.Complete c) o Hp) as Hs.
          cbn [Execute.step] in Hs. congruence.
        + rewrite (execute_complete_pending _ c Hp) in Hnone. done. }
    destruct ev as [k [v|err] th|random'|]; cbn [ProactiveRetry.step].
    + destruct (bool_decide _); [|done]. apply Hc.
    + destruct (bool_decide _); [|done].
      unfold ProactiveRetry.handleRejected. cbn zeta.
      cbn [ProactiveRetry.attemptsExhausted ProactiveRetry.setPromises
           ProactiveRetry.promises].
      destruct (_ && _); [apply Hc|].
      destruct (isAbortError err); [done|].
      destruct th; [apply Hc|done].
    + destruct (ProactiveRetry.waiting st); [|done].
      unfold ProactiveRetry.launch. by destruct (ProactiveRetry.lastAttempt _ _).
    + cbn zeta.
      assert (Execute.callback (Execute.step (ProactiveRetry.execution st) Execute.Abort)
              = Execute.NoAction ∧
              (Execute.promise (Execute.step (ProactiveRetry.execution st) Execute.Abort)
               = None → False)) as [Hcb' Hp'].
      { cbn [Execute.step]. unfold abort.
        destruct (Execute.promise (ProactiveRetry.execution st)) as [o|] eqn:Hp.
        - split.
          + destruct (aborted _); [done|]. destruct (listening _); [|done].
            unfold Execute.listener; simpl. rewrite Hcb.
            unfold Execute.finish; simpl. by destruct (Execute.finished _).
          + pose proof (execute_step_settled _ Execute.Abort o Hp) as Hs.
            cbn [Execute.step] in Hs. unfold abort in Hs. congruence.
        - destruct (Hl eq_refl) as [-> ->].
          unfold Execute.listener; simpl. rewrite Hcb.
          unfold Execute.finish; simpl.
          destruct (Execute.finished _); simpl; by rewrite Hp. }
      destruct (Nat.ltb _ _); simpl; split; first [done | intros Hn; by destruct (Hp' Hn)].
Qed.

(** X24.  When the outer signal fires while [proactiveRetry] is pending, the
    promise rejects with [AbortError], the inner signal is aborted, so that
    every attempt in flight is told to stop, and [fn] is not called again. *)
Theorem proactiveRetry_abort opts (random : Q) (pre post : list (ProactiveRetry.Event T)) :
  let st0 := ProactiveRetry.proactiveRetry opts pendingSignal random in
  let st := ProactiveRetry.run opts st0 pre in
  let st' := ProactiveRetry.run opts st0 (pre ++ ProactiveRetry.Abort :: post) in
  Execute.promise (ProactiveRetry.execution st) = None →
  Execute.promise (ProactiveRetry.execution st') = Some (Rejected AbortError) ∧
  ProactiveRetry.innerAborted st' = true ∧
  ProactiveRetry.calls st' = ProactiveRetry.calls st.
Proof.
  intros st0 st st' Hp. subst st'.
  rewrite proactiveRetry_run_app, proactiveRetry_run_cons. fold st.
  destruct (proactiveRetry_run_listening opts random pre) as [Hcb Hl].
  fold st0 in Hcb, Hl. fold st in Hcb, Hl. destruct (Hl Hp) as [Hlis Hab].
  set (st1 := ProactiveRetry.step opts st _).
  assert (Execute.promise (ProactiveRetry.execution st1) = Some (Rejected AbortError) ∧
          ProactiveRetry.innerAborted st1 = true ∧
          ProactiveRetry.waiting st1 = false ∧
          ProactiveRetry.calls st1 = ProactiveRetry.calls st) as (Hp1 & Hi1 & Hw1 & Hc1).
  { unfold st1. cbn [ProactiveRetry.step Execute.step]. unfold abort.
    rewrite Hab, Hlis. unfold Execute.listener. simpl. rewrite Hcb.
    rewrite execute_finish_calls. cbn [Execute.callbackCalls Execute.settlePromise].
    rewrite (proj2 (Nat.ltb_lt _ _)) by lia.
    simpl. rewrite execute_finish_promise. simpl. by rewrite Hp. }
  destruct (proactiveRetry_run_stopped opts st1 post Hw1) as [Hc Hi].
  split; [by apply proactiveRetry_run_settled|]. split; [by apply Hi|]. by rewrite Hc.
Qed.

(** X25.  [proactiveRetry] calls [fn] at least once, also with
    [maxAttempts = 0], and with [maxAttempts = m] at most [max 1 m] times. *)
Theorem proactiveRetry_attempt_budget (base random : Q) (m : nat) evs :
  let opts := ProactiveRetry.mkOptions base (Some (inject_Z (Z.of_nat m))) in
  let st := ProactiveRetry.run opts
              (ProactiveRetry.proactiveRetry opts pendingSignal random) evs in
  1 ≤ ProactiveRetry.calls st ≤ Nat.max 1 m.
Proof.
  intros opts st.
  assert (∀ k : nat, ProactiveRetry.lastAttempt opts k = bool_decide (m ≤ S k))
    as Hlast.
  { intros k. unfold ProactiveRetry.lastAttempt, opts; simpl.
    destruct (Qle_bool _ _) eqn:Hle.
    - apply Qle_bool_iff in Hle. rewrite <- Zle_Qle in Hle.
      rewrite bool_decide_true; [done|lia].
    - rewrite bool_decide_false; [done|]. intros Hm.
      assert (Qle_bool (inject_Z (Z.of_nat m)) (inject_Z (Z.of_nat k + 1)) = true)
        as Htrue; [|congruence].
      apply Qle_bool_iff. rewrite <- Zle_Qle. lia. }
  assert (1 ≤ ProactiveRetry.calls st ≤ Nat.max 1 m ∧
          (ProactiveRetry.waiting st = true → ProactiveRetry.calls st < m)) as [H _];
    [|exact H].
  subst st. induction evs as [|ev evs IH] using rev_ind.
  - simpl. unfold ProactiveRetry.proactiveRetry, ProactiveRetry.launch. simpl.
    rewrite Hlast. case_bool_decide; simpl; split; first [lia | done].
  - rewrite proactiveRetry_run_app. cbn [ProactiveRetry.run foldl].
    set (st := ProactiveRetry.run _ _ evs) in *. clearbody st.
    destruct IH as [Hcalls Hwait].
    destruct ev as [k [v|err] th|random'|]; cbn [ProactiveRetry.step].
    + destruct (bool_decide _); [|by split]. simpl. by split.
    + destruct (bool_decide _); [|by split].
      unfold ProactiveRetry.handleRejected. cbn zeta.
      cbn [ProactiveRetry.attemptsExhausted ProactiveRetry.setPromises
           ProactiveRetry.promises].
      destruct (_ && _); [by split|].
      destruct (isAbortError err); [by split|].
      destruct th; by split.
    + destruct (ProactiveRetry.waiting st) eqn:Hw;
        [|split; [exact Hcalls|by rewrite Hw]].
      specialize (Hwait eq_refl).
      unfold ProactiveRetry.launch. rewrite Hlast.
      case_bool_decide; simpl; split; first [lia | done].
    + cbn zeta. destruct (Nat.ltb _ _); simpl; by split.
Qed.

(** What holds of a call while the outer signal has not fired and [onError]
    has not thrown. *)
Lemma proactiveRetry_undisturbed_step opts st ev :
  proactiveRetryUndisturbed [ev] = true →
  (ProactiveRetry.innerAborted st = false →
   ProactiveRetry.promises st = ProactiveRetry.unsettled st) →
  (ProactiveRetry.innerAborted st = true →
   ∃ v, Execute.promise (ProactiveRetry.execution st) = Some (Fulfilled v)) →
  (∀ e, Execute.promise (ProactiveRetry.execution st) = Some (Rejected e) →
        ProactiveRetry.attemptsExhausted st = true ∧
        ProactiveRetry.unsettled st = ∅) →
  (ProactiveRetry.waiting st = true → ProactiveRetry.attemptsExhausted st = false) →
  (ProactiveRetry.attemptsExhausted st = true →
   is_Some (ProactiveRetry.maxAttempts opts)) →
  let st' := ProactiveRetry.step opts st ev in
  (ProactiveRetry.innerAborted st' = false →
   ProactiveRetry.promises st' = ProactiveRetry.unsettled st') ∧
  (ProactiveRetry.innerAborted st' = true →
   ∃ v, Execute.promise (ProactiveRetry.execution st') = Some (Fulfilled v)) ∧
  (∀ e, Execute.promise (ProactiveRetry.execution st') = Some (Rejected e) →
        ProactiveRetry.attemptsExhausted st' = true ∧
        ProactiveRetry.unsettled st' = ∅) ∧
  (ProactiveRetry.waiting st' = true → ProactiveRetry.attemptsExhausted st' = false) ∧
  (ProactiveRetry.attemptsExhausted st' = true →
   is_Some (ProactiveRetry.maxAttempts opts)).
Proof.
  intros Hev H1 H2 H3 H4 H5.
  assert (∀ k, k ∈ ProactiveRetry.unsettled st →
               ∀ e, Execute.promise (ProactiveRetry.execution st) ≠ Some (Rejected e))
    as Hlive.
  { intros k Hk e He. destruct (H3 e He) as [_ Hempty].
    rewrite Hempty in Hk. by apply elem_of_empty in Hk. }
  destruct ev as [k [v|err] [th|]|random|]; try done; cbn [ProactiveRetry.step]; cbn zeta.
  - destruct (bool_decide _) eqn:Hk; [|by split_and!].
    apply bool_decide_eq_true in Hk. specialize (Hlive k Hk).
    unfold ProactiveRetry.handleFulfilled. simpl.
    rewrite execute_finish_promise. simpl.
    destruct (Execute.promise (ProactiveRetry.execution st)) as [[v0|e0]|] eqn:Hp; simpl.
    + split_and!; try done. intros _. by exists v0.
    + by destruct (Hlive e0).
    + split_and!; try done. intros _. by exists v.
  - destruct (bool_decide _) eqn:Hk; [|by split_and!].
    apply bool_decide_eq_true in Hk. specialize (Hlive k Hk).
    unfold ProactiveRetry.handleRejected. cbn zeta.
    cbn [ProactiveRetry.attemptsExhausted ProactiveRetry.setPromises
         ProactiveRetry.promises].
    assert (ProactiveRetry.innerAborted st = false →
            ProactiveRetry.promises st ∖ {[k]} = ProactiveRetry.unsettled st ∖ {[k]})
      as H1' by (intros Hi; by rewrite (H1 Hi)).
    destruct (ProactiveRetry.attemptsExhausted st &&
              Nat.eqb (size (ProactiveRetry.promises st ∖ {[k]})) 0) eqn:Hdone.
    + apply andb_true_iff in Hdone as [Hex Hsize].
      apply Nat.eqb_eq, size_empty_iff, leibniz_equiv in Hsize.
      simpl. rewrite execute_finish_promise. simpl.
      destruct (Execute.promise (ProactiveRetry.execution st)) as [[v0|e0]|] eqn:Hp; simpl.
      * split_and!; try done.
      * by destruct (Hlive e0).
      * split_and!; try done.
        -- intros Hi. destruct (H2 Hi) as [? ?]. done.
        -- intros e _. split; [done|].
           destruct (ProactiveRetry.innerAborted st) eqn:Hi.
           ++ destruct (H2 eq_refl) as [? ?]. done.
           ++ by rewrite <- (H1' eq_refl).
    + assert (∀ e, Execute.promise (ProactiveRetry.execution st) = Some (Rejected e) →
                   ProactiveRetry.attemptsExhausted st = true ∧
                   ProactiveRetry.unsettled st ∖ {[k]} = ∅) as H3'.
      { intros e He. by destruct (Hlive e). }
      destruct (isAbortError err); simpl; by split_and!.
  - destruct (ProactiveRetry.waiting st) eqn:Hw;
      [|refine (conj H1 (conj H2 (conj H3 (conj _ H5)))); intros Hw'; congruence].
    specialize (H4 eq_refl).
    assert (∀ e, Execute.promise (ProactiveRetry.execution st) ≠ Some (Rejected e))
      as Hpending.
    { intros e He. destruct (H3 e He) as [Hex _]. congruence. }
    unfold ProactiveRetry.launch.
    destruct (ProactiveRetry.lastAttempt opts (ProactiveRetry.calls st)) eqn:Hlast; simpl.
    + split_and!; try done.
      * intros Hi. by rewrite (H1 Hi).
      * intros e He. by destruct (Hpending e).
      * intros _. unfold ProactiveRetry.lastAttempt in Hlast.
        destruct (ProactiveRetry.maxAttempts opts); [by eexists|done].
    + split_and!; try done.
      * intros Hi. by rewrite (H1 Hi).
      * intros e He. by destruct (Hpending e).
Qed.

(** X26.  As long as the outer signal does not fire and [onError] does not
    throw, [proactiveRetry] rejects only when [makeAttempts] has made its
    last attempt and every attempt has settled; with [maxAttempts] left at
    [Infinity] it does not reject at all. *)
Theorem proactiveRetry_rejects_when_exhausted opts (random : Q) evs (e : value) :
  proactiveRetryUndisturbed evs = true →
  let st := ProactiveRetry.run opts
              (ProactiveRetry.proactiveRetry opts pendingSignal random) evs in
  Execute.promise (ProactiveRetry.execution st) = Some (Rejected e) →
  ProactiveRetry.attemptsExhausted st = true ∧
  ProactiveRetry.unsettled st = ∅ ∧
  is_Some (ProactiveRetry.maxAttempts opts).
Proof.
  intros Hevs st.
  assert (
    (ProactiveRetry.innerAborted st = false →
     ProactiveRetry.promises st = ProactiveRetry.unsettled st) ∧
    (ProactiveRetry.innerAborted st = true →
     ∃ v, Execute.promise (ProactiveRetry.execution st) = Some (Fulfilled v)) ∧
    (∀ e, Execute.promise (ProactiveRetry.execution st) = Some (Rejected e) →
          ProactiveRetry.attemptsExhausted st = true ∧
          ProactiveRetry.unsettled st = ∅) ∧
    (ProactiveRetry.waiting st = true → ProactiveRetry.attemptsExhausted st = false) ∧
    (ProactiveRetry.attemptsExhausted st = true →
     is_Some (ProactiveRetry.maxAttempts opts))) as (_ & _ & H3 & _ & H5).
  { subst st. induction evs as [|ev evs IH] using rev_ind.
    - simpl. unfold ProactiveRetry.proactiveRetry, ProactiveRetry.launch. simpl.
      destruct (ProactiveRetry.lastAttempt opts 0) eqn:Hlast; simpl; split_and!; try done.
      intros _. unfold ProactiveRetry.lastAttempt in Hlast.
      destruct (ProactiveRetry.maxAttempts opts); [by eexists|done].
    - unfold proactiveRetryUndisturbed in Hevs. rewrite forallb_app in Hevs.
      apply andb_true_iff in Hevs as [Hevs Hev].
      destruct (IH Hevs) as (H1 & H2 & H3 & H4 & H5).
      rewrite proactiveRetry_run_app. cbn [ProactiveRetry.run foldl].
      by apply proactiveRetry_undisturbed_step. }
  intros He. destruct (H3 e He) as [Hex Hu]. split; [done|]. split; [done|].
  by apply H5.
Qed.

#[local] Open Scope Q_scope.



End ProactiveRetryFacts.

(** X23, witness: the first attempt fulfils while the second is in flight. *)
Lemma proactiveRetry_first_success_witness :
  let st' := ProactiveRetry.run (T := Z) ProactiveRetry.defaults
               (ProactiveRetry.proactiveRetry ProactiveRetry.defaults pendingSignal (1 # 2))
               ([ProactiveRetry.DelayElapses (1 # 2)] ++
                ProactiveRetry.AttemptSettles 0 (Fulfilled 7%Z) None ::
                [ProactiveRetry.DelayElapses 0;
                 ProactiveRetry.AttemptSettles 1 (Rejected AbortError) None]) in
  Execute.promise (ProactiveRetry.execution st') = Some (Fulfilled 7%Z) ∧
  ProactiveRetry.innerAborted st' = true ∧
  ProactiveRetry.calls st' = 2.
Proof.
  apply (proactiveRetry_first_success (T := Z) ProactiveRetry.defaults (1 # 2)
           [ProactiveRetry.DelayElapses (1 # 2)]
           [ProactiveRetry.DelayElapses 0;
            ProactiveRetry.AttemptSettles 1 (Rejected AbortError) None]
           0 7%Z None).
  - reflexivity.
  - apply (bool_decide_unpack _). by vm_compute.
Defined.

(** X24, witness: the outer signal fires while two attempts are in flight. *)
Lemma proactiveRetry_abort_witness :
  let st' := ProactiveRetry.run (T := Z) ProactiveRetry.defaults
               (ProactiveRetry.proactiveRetry ProactiveRetry.defaults pendingSignal (1 # 2))
               ([ProactiveRetry.DelayElapses (1 # 2)] ++
                ProactiveRetry.Abort :: [ProactiveRetry.DelayElapses 0]) in
  Execute.promise (ProactiveRetry.execution st') = Some (Rejected AbortError) ∧
  ProactiveRetry.innerAborted st' = true ∧
  ProactiveRetry.calls st' = 2.
Proof.
  apply (proactiveRetry_abort (T := Z) ProactiveRetry.defaults (1 # 2)
           [ProactiveRetry.DelayElapses (1 # 2)] [ProactiveRetry.DelayElapses 0]).
  reflexivity.
Defined.

(** X26, witness: [maxAttempts = 2]; both attempts fail, the first one
    last. *)
Lemma proactiveRetry_rejects_when_exhausted_witness :
  let opts := ProactiveRetry.mkOptions 1000 (Some 2%Q) in
  let st := ProactiveRetry.run (T := Z) opts
              (ProactiveRetry.proactiveRetry opts pendingSignal (1 # 2))
              [ProactiveRetry.DelayElapses (1 # 2);
               ProactiveRetry.AttemptSettles 1 (Rejected (Str "b")) None;
               ProactiveRetry.AttemptSettles 0 (Rejected (Str "a")) None] in
  Execute.promise (ProactiveRetry.execution st) = Some (Rejected (Str "a")) ∧
  ProactiveRetry.attemptsExhausted st = true ∧
  ProactiveRetry.unsettled st = ∅.
Proof.
  intros opts st.
  assert (Execute.promise (ProactiveRetry.execution st) = Some (Rejected (Str "a")))
    as Hp by (by vm_compute).
  split; [exact Hp|].
  destruct (proactiveRetry_rejects_when_exhausted (T := Z) opts (1 # 2)
              [ProactiveRetry.DelayElapses (1 # 2);
               ProactiveRetry.AttemptSettles 1 (Rejected (Str "b")) None;
               ProactiveRetry.AttemptSettles 0 (Rejected (Str "a")) None]
              (Str "a") eq_refl Hp) as (Hex & Hu & _).
  split; [exact Hex|exact Hu].
Defined.


(** ** run *)

Section RunFacts.
Implicit Types (st : Execute.State unit) (evs : list (Execute.Event unit)).

(** A call of [execute] whose executor completes nothing while it runs and
    whose abort callback returns nothing: while the promise is pending the
    listener is on the signal, which has not fired, and the promise does not
    reject with an error other than [AbortError] unless the executor asks for
    it. *)
Lemma execute_run_no_action evs :
  forallb completesQuietly evs = true →
  let st := Execute.run (Execute.execute pendingSignal [] Execute.NoAction) evs in
  Execute.callback st = Execute.NoAction ∧
  Execute.callbackPending st = false ∧
  (Execute.promise st = None →
   listening (Execute.signal st) = true ∧ aborted (Execute.signal st) = false) ∧
  (∀ e, Execute.promise st = Some (Rejected e) → isAbortError e = true).
Proof.
  induction evs as [|ev evs IH] using rev_ind; intros Hevs; [by split_and!|].
  rewrite forallb_app in Hevs. apply andb_true_iff in Hevs as [Hevs Hev].
  specialize (IH Hevs). rewrite execute_run_app. cbn [Execute.run foldl].
  set (st := Execute.run _ evs) in *. clearbody st. cbn zeta in IH |- *.
  destruct IH as (Hcb & Hpend & Hl & Hrej).
  assert (∀ s : Execute.State unit,
    Execute.callback (Execute.finish s) = Execute.callback s ∧
    Execute.callbackPending (Execute.finish s) = Execute.callbackPending s) as Hfin.
  { intros s. unfold Execute.finish. by destruct (Execute.finished s). }
  destruct ev as [[v|r]| | |r]; cbn [Execute.step Execute.complete].
  - destruct (Hfin (Execute.settlePromise (Fulfilled v) st)) as [-> ->].
    rewrite execute_finish_promise. simpl.
    destruct (Execute.promise st) as [[v0|e0]|] eqn:Hp; simpl; split_and!; try done;
      intros e He; injection He as <-; by apply Hrej.
  - destruct (Hfin (Execute.settlePromise (Rejected r) st)) as [-> ->].
    rewrite execute_finish_promise. simpl. simpl in Hev. rewrite andb_true_r in Hev.
    destruct (Execute.promise st) as [[v0|e0]|] eqn:Hp; simpl; split_and!; try done.
    by intros e [= <-].
  - unfold abort.
    destruct (aborted (Execute.signal st)) eqn:Ha.
    { simpl. split_and!; try done. intros Hp. by destruct (Hl Hp). }
    destruct (listening (Execute.signal st)) eqn:Hlis.
    2:{ simpl. split_and!; try done. intros Hp. by destruct (Hl Hp). }
    unfold Execute.listener. simpl. rewrite Hcb.
    destruct (Hfin (Execute.settlePromise (Rejected AbortError)
      (Execute.mkState (mkSignal true true (addCalls (Execute.signal st))
                          (removeCalls (Execute.signal st)))
         (Execute.executorCalls st) (Execute.removeAbortListener st)
         (Execute.finished st) Execute.NoAction (S (Execute.callbackCalls st))
         (Execute.callbackPending st) (Execute.promise st)))) as [-> ->].
    rewrite execute_finish_promise. simpl.
    split_and!; try done.
    + intros Hp. by destruct (Execute.promise st).
    + intros e He. destruct (Execute.promise st) as [o|] eqn:Hp; simpl in He.
      * by apply Hrej.
      * by injection He as <-.
  - rewrite Hpend. by split_and!.
  - rewrite Hpend. by split_and!.
Qed.

(** X28.  [run fn], for a function [fn] that hands its signal to [execute]
    with an abort callback that returns nothing, as [forever] and [delay] do:
    once the function returned by [run] has been called, the promise it
    returns is fulfilled, provided [fn] has not failed by itself with an error
    other than [AbortError]: the [AbortError] caused by the call is swallowed.
    In no case does that promise reject with an [AbortError]. *)
Theorem run_stop_swallows_AbortError (pre post : list (Execute.Event unit)) :
  forallb completesQuietly pre = true →
  let st := Execute.run (Run.stop (Execute.run (Run.run [] Execute.NoAction) pre)) post in
  Run.promise st = Some (Fulfilled tt) ∧
  ∀ (sync : list (Execute.Completion unit)) cb evs e,
    Run.promise (Execute.run (Run.run sync cb) evs) = Some (Rejected e) →
    isAbortError e = false.
Proof.
  intros Hpre st. split.
  - destruct (execute_run_no_action pre Hpre) as (Hcb & _ & Hl & Hrej).
    subst st. unfold Run.run, Run.promise, Run.stop in *.
    set (st0 := Execute.run _ pre) in *. clearbody st0.
    destruct (Execute.promise st0) as [[[]|e]|] eqn:Hp.
    + rewrite (execute_run_settled _ post (Fulfilled tt)); [done|].
      by apply execute_step_settled.
    + rewrite (execute_run_settled _ post (Rejected e));
        [|by apply execute_step_settled].
      simpl. unfold catchAbortError. by rewrite (Hrej e eq_refl).
    + destruct (Hl eq_refl) as [Hlis Hab].
      rewrite (execute_run_settled _ post (Rejected AbortError)); [done|].
      cbn [Execute.step]. unfold abort. rewrite Hab, Hlis.
      unfold Execute.listener. simpl. rewrite Hcb.
      rewrite execute_finish_promise. simpl. by rewrite Hp.
  - intros sync cb evs e. unfold Run.promise, Run.catch, catchAbortError.
    destruct (Execute.promise _) as [[v|e0]|]; [done| |done].
    destruct (isAbortError e0) eqn:He; [done|]. by intros [= <-].
Qed.

End RunFacts.

(** X28, witness: [run] applied to a function that waits on its signal; the
    returned function is called twice. *)
Lemma run_stop_swallows_AbortError_witness :
  Run.promise
    (Execute.run (Run.stop (Execute.run (Run.run [] Execute.NoAction) []))
       [Execute.Abort]) = Some (Fulfilled tt).
Proof.
  apply (run_stop_swallows_AbortError [] [Execute.Abort]). reflexivity.
Defined.

(** ** Calls on a signal that is already aborted *)

(** X29.  On a signal that is already aborted, [waitForEvent] and
    [proactiveRetry] reject with [AbortError] and start nothing, whatever
    happens afterwards: [waitForEvent] does not call [listen], so not even an
    invalid target is noticed, and [proactiveRetry] never calls [fn]. *)
Theorem aborted_signal_starts_nothing :
  (∀ target during evs,
     let st := WaitForEvent.run
                 (WaitForEvent.waitForEvent abortedSignal target during) evs in
     Execute.promise (WaitForEvent.execution st) = Some (Rejected AbortError) ∧
     WaitForEvent.listenCalls st = 0 ∧
     WaitForEvent.unlistenCalls st = 0 ∧
     unsubscribed (Execute.signal (WaitForEvent.execution st))) ∧
  (∀ (T : Type) opts random (evs : list (ProactiveRetry.Event T)),
     let st := ProactiveRetry.run opts
                 (ProactiveRetry.proactiveRetry opts abortedSignal random) evs in
     Execute.promise (ProactiveRetry.execution st) = Some (Rejected AbortError) ∧
     ProactiveRetry.calls st = 0).
Proof.
  split.
  - intros target during evs st. subst st.
    destruct (waitForEvent_run_idle
                (WaitForEvent.waitForEvent abortedSignal target during) evs)
      as (_ & Hp & Hl & Hu & Ha & Hr); [done|done|].
    unfold unsubscribed. by rewrite Hp, Hl, Hu, Ha, Hr.
  - intros T opts random evs st. subst st.
    split; [by apply proactiveRetry_run_settled|].
    destruct (proactiveRetry_run_stopped opts
                (ProactiveRetry.proactiveRetry (T := T) opts abortedSignal random) evs)
      as [Hc _]; [done|].
    by rewrite Hc.
Qed.
